(** * Reference-resolution evaluator of edible: the two prototypes

    [evaluator.py] and [evaluator2.py] are embedded side by side, each in
    its own module ([Evaluator], [Evaluator2]) with its own expression
    type, as the two files declare their own classes.

    Python objects are mutable and compared by identity.  The shape of the
    tree never changes during evaluation; only the three evaluation fields
    of a [Ref] object do.  A [Ref] node therefore carries an object
    identity [oid], and its mutable fields live in a store keyed by that
    identity.  A field that holds a pointer into the tree ([_parent],
    [_cache]) is modelled by the expression it points to: the [Ref] nodes
    inside it still name their shared state through their [oid].

    Exceptions are the Python exception classes the code raises.  A raised
    exception keeps the store as mutated so far, which is what a
    [try]/[except] handler observes.  Recursion and [while] loops are
    driven by a fuel counter that decreases at every call and at every
    turn of a [while] loop; [OutOfFuel] stands for a run that has not
    finished within the given call depth and number of turns.

    The diagnostic [print] calls of evaluator.py are part of the run: the
    text they write is not represented, but whether they return is.
    Printing an expression goes through the [__repr__] methods, and
    [Ref.__repr__] prints the cache of the reference; when the caches
    lead from reference to reference in a cycle this recursion has no
    end and the interpreter stops it with [RecursionError], which the
    handlers of the evaluator see like any other [RuntimeError].

    The recursion limit of the interpreter is not a number here: a
    recursion that has an end is taken to fit in the call stack, and the
    only recursion that has none, the one of [__repr__] just described,
    raises [RecursionError]. *)

From Stdlib Require Import ZArith String List Bool Lia Floats.
From stdpp Require Import base option gmap.
Import ListNotations.

Local Open Scope string_scope.
Set Warnings "-register-all".

(** ** Outcomes of a stateful, fallible computation *)

Section Outcome.
Context {St Ex : Type}.

Inductive Outcome (A : Type) : Type :=
| Return (a : A) (st : St)
| Raise (e : Ex) (st : St)
| OutOfFuel.

Definition M (A : Type) : Type := St -> Outcome A.

Definition ret {A} (a : A) : M A := fun st => Return A a st.

Definition raise {A} (e : Ex) : M A := fun st => Raise A e st.

Definition out_of_fuel {A} : M A := fun _ => OutOfFuel A.

Definition bind {A B} (m : M A) (k : A -> M B) : M B :=
  fun st =>
    match m st with
    | Return _ a st' => k a st'
    | Raise _ e st' => Raise B e st'
    | OutOfFuel _ => OutOfFuel B
    end.

(** [try: m except caught: h] *)
Definition try_except {A} (caught : Ex -> bool) (m : M A) (h : M A) : M A :=
  fun st =>
    match m st with
    | Raise _ e st' => if caught e then h st' else Raise A e st'
    | r => r
    end.

(** The run finished, normally or with an exception. *)
Definition finished {A} (r : Outcome A) : Prop :=
  match r with OutOfFuel _ => False | _ => True end.

(** The run finished with an exception. *)
Definition fails {A} (r : Outcome A) : Prop :=
  match r with Raise _ _ _ => True | _ => False end.

(** No amount of fuel lets the run finish. *)
Definition diverges {A} (run : nat -> Outcome A) : Prop :=
  forall fuel, run fuel = OutOfFuel A.

(** [m'] does what [m] does whenever [m] finishes. *)
Definition refines {A} (m m' : M A) : Prop :=
  forall st, finished (m st) -> m' st = m st.

(** Every run of [m] that finishes, normally or with an exception,
    relates the store it started from to the store it leaves. *)
Definition preserves {A} (R : St -> St -> Prop) (m : M A) : Prop :=
  forall st,
    match m st with
    | Return _ _ st' | Raise _ _ st' => R st st'
    | OutOfFuel _ => True
    end.

(** The store a finished run leaves. *)
Definition store_of {A} (r : Outcome A) : option St :=
  match r with
  | Return _ _ st' | Raise _ _ st' => Some st'
  | OutOfFuel _ => None
  end.
End Outcome.

Arguments Outcome : clear implicits.
Arguments M : clear implicits.
Arguments Return {St Ex A} a st.
Arguments Raise {St Ex A} e st.
Arguments OutOfFuel {St Ex A}.

Declare Scope eval_scope.
Delimit Scope eval_scope with eval.
Notation "'do' x <- m ; k" := (bind m (fun x => k))
  (at level 10, x pattern, m at level 100, k at level 200) : eval_scope.
Notation "m ;; k" := (bind m (fun _ => k))
  (at level 100, k at level 200, right associativity) : eval_scope.

Local Open Scope eval_scope.

(** The later of two writes to a field: [new] when there is one. *)
Definition later {A} (new old : option A) : option A :=
  match new with
  | Some _ => new
  | None => old
  end.

(** ** evaluator.py *)

Module Evaluator.

Module RefModifier.
Inductive t := ABSOLUTE | RELATIVE.
End RefModifier.

Module UnaryOp.
Inductive t := PLUS | MINUS.
End UnaryOp.

Module BinaryOp.
Inductive t := PLUS | MINUS | STAR | SLASH.
End BinaryOp.

(** [Expr = Str | Bool | Int | Float | Ref | Unary | Binary | Array | Table].
    The [_cache]/[_evaluated] fields that [Unary], [Binary], [Array] and
    [Table] declare are never read or written by the evaluator and are
    not represented. *)
Inductive Expr : Type :=
| Str (value : string)
| Bool (value : bool)
| Int (value : Z)
| Float (value : float)
| Ref (oid : nat) (keys : list Expr) (modifier : RefModifier.t)
| Unary (op : UnaryOp.t) (right : Expr)
| Binary (left : Expr) (op : BinaryOp.t) (right : Expr)
| Array (items : list Expr)
| Table (items : list TableItem)
with TableItem : Type :=
| Build_TableItem (key : Expr) (value : Expr) (parent : option Expr).

Definition key (item : TableItem) : Expr :=
  match item with Build_TableItem k _ _ => k end.
Definition value (item : TableItem) : Expr :=
  match item with Build_TableItem _ v _ => v end.
Definition parent (item : TableItem) : option Expr :=
  match item with Build_TableItem _ _ p => p end.

(** The "data for evaluation" of a [Ref] object. *)
Record RefData : Type := Build_RefData {
  _parent : option Expr;
  _cache : option Expr;
  _evaluated : bool
}.

(** Field defaults of the dataclass: [None], [None], [False]. *)
Definition fresh : RefData :=
  {| _parent := None; _cache := None; _evaluated := false |}.

Definition get (st : gmap nat RefData) (oid : nat) : RefData :=
  default fresh (st !! oid).

Definition set_parent (oid : nat) (p : option Expr) (st : gmap nat RefData)
  : gmap nat RefData :=
  <[oid := {| _parent := p;
              _cache := _cache (get st oid);
              _evaluated := _evaluated (get st oid) |}]> st.

Definition set_cache (oid : nat) (c : option Expr) (st : gmap nat RefData)
  : gmap nat RefData :=
  <[oid := {| _parent := _parent (get st oid);
              _cache := c;
              _evaluated := _evaluated (get st oid) |}]> st.

Definition set_evaluated (oid : nat) (b : bool) (st : gmap nat RefData)
  : gmap nat RefData :=
  <[oid := {| _parent := _parent (get st oid);
              _cache := _cache (get st oid);
              _evaluated := b |}]> st.

(** Exceptions raised by the code, with their arguments.
    [UnboundLocalError] is what Python raises when a local variable is
    read before any assignment, [RecursionError] when a recursion does
    not end. *)
Inductive Exn : Type :=
| TypeError (msg : string)
| RuntimeError (msg : string)
| NotImplementedError
| RecursionError
| KeyError (msg : string) (key item_key : Expr)
| UnboundLocalError (name : string).

(** [except (RuntimeError, TypeError)]: [NotImplementedError] and
    [RecursionError] are subclasses of [RuntimeError]; [KeyError] and
    [UnboundLocalError] are not. *)
Definition is_RuntimeError_or_TypeError (e : Exn) : bool :=
  match e with
  | TypeError _ | RuntimeError _ | NotImplementedError | RecursionError => true
  | KeyError _ _ _ | UnboundLocalError _ => false
  end.

Abbreviation Store := (gmap nat RefData).
Abbreviation Eval := (M Store Exn).

(** *** [__repr__] and [print]

    [print] converts each argument with [str], which for the classes of
    the tree is [__repr__]:
    - [Str], [Bool], [Int], [Float]: [repr(self.value)], of a built-in
      value;
    - [Ref]: [repr(self._cache)], so the cache is printed, and neither
      the keys nor the scope;
    - [Table]: [repr(self.items)], the list of the entries;
    - [TableItem], [Unary], [Binary], [Array]: the method that
      [dataclass] generates, which prints every field.
    The built-in [repr] of a list and the generated [__repr__] of a
    dataclass give a placeholder for an object that is already being
    printed; [Ref.__repr__] has no such guard.  A recursion that comes
    back to a table or to an entry is therefore cut short, and one that
    never ends runs, from some point on, from a reference to its cache,
    again a reference, and so on.  It ends in [RecursionError]. *)

(** The references whose [__repr__] is called while [e] is printed,
    before any cache is followed. *)
Fixpoint shown (e : Expr) : list nat :=
  match e with
  | Str _ | Bool _ | Int _ | Float _ => []
  | Ref oid _ _ => [oid]
  | Unary _ right0 => shown right0
  | Binary left0 _ right0 => (shown left0 ++ shown right0)%list
  | Array items => flat_map shown items
  | Table items =>
      flat_map (fun item =>
                  match item with
                  | Build_TableItem k v p =>
                      (shown k ++ shown v ++
                       match p with
                       | Some p' => shown p'
                       | None => []
                       end)%list
                  end) items
  end.

(** [Ref.__repr__] of the reference [oid] prints its cache: the
    references whose [__repr__] that calls in turn. *)
Definition cache_shown (st : Store) (oid : nat) : list nat :=
  match _cache (get st oid) with
  | Some c => shown c
  | None => []
  end.

(** The references printed from those of [l] by following caches at most
    [n] times. *)
Fixpoint reached (n : nat) (st : Store) (l : list nat) : list nat :=
  match n with
  | O => l
  | S n' => (l ++ reached n' st (flat_map (cache_shown st) l))%list
  end.

(** The reference whose [__repr__] is called directly by that of [oid]:
    the cache, when it is a reference. *)
Definition next_Ref (st : Store) (oid : nat) : option nat :=
  match _cache (get st oid) with
  | Some (Ref oid' _ _) => Some oid'
  | _ => None
  end.

(** [Ref.__repr__] calling [Ref.__repr__], [fuel] times at most: whether
    the chain of caches from [oid] has left the references by then. *)
Fixpoint leaves_refs (fuel : nat) (st : Store) (oid : nat) : bool :=
  match next_Ref st oid with
  | None => true
  | Some oid' =>
      match fuel with
      | O => false
      | S n => leaves_refs n st oid'
      end
  end.

(** Only a reference recorded in the store has a cache.  A chain that is
    still among references after as many steps as the store has
    references has come back to one of them, and never leaves them. *)
Definition repr_loops (st : Store) (oid : nat) : bool :=
  negb (leaves_refs (size st) st oid).

(** Printing [e] raises [RecursionError]: a reference printed on the
    way has a chain of caches that never leaves the references.  A
    reference printed at all is printed after at most as many caches as
    the store has references. *)
Definition repr_raises (st : Store) (e : Expr) : bool :=
  existsb (repr_loops st) (reached (size st) st (shown e)).

(** [print(label, *args)] *)
Definition print_ (label : string) (args : list Expr) : Eval unit :=
  fun st =>
    if existsb (repr_raises st) args then Raise RecursionError st
    else Return tt st.

(** The two bounds above are no restriction; this is stated with the
    predicates below, which have no bound, and proved as
    [repr_loops_spec] and [repr_raises_spec]. *)

(** [printed st l oid]: [__repr__] of the reference [oid] is called when
    the references of [l] are printed, directly or through caches. *)
Inductive printed (st : Store) (l : list nat) : nat -> Prop :=
| printed_first oid : In oid l -> printed st l oid
| printed_cache a oid :
    printed st l a -> In oid (cache_shown st a) -> printed st l oid.

(** [next_Ref] as a list of successors. *)
Definition next_Refs (st : Store) (oid : nat) : list nat :=
  match next_Ref st oid with
  | Some oid' => [oid']
  | None => []
  end.

(** The references recorded in the store. *)
Definition refs_of (st : Store) : list nat := (map_to_list st).*1.

Section Walks.
(** The successors of a node. *)
Variable succ : nat -> list nat.

(** [walks a q b]: from [a], going from a node to one of its successors
    at every step, one arrives at [b]; [q] lists the nodes left on the
    way, [a] first. *)
Inductive walks : nat -> list nat -> nat -> Prop :=
| walks_nil a : walks a [] a
| walks_cons a c q b : In c (succ a) -> walks c q b -> walks a (a :: q) b.
End Walks.

(** [_resolve]: one top-down pass writing [_parent] of the [Ref] nodes. *)
Fixpoint _resolve (parent0 : option Expr) (expr : Expr) (st : Store) : Store :=
  match expr with
  | Str _ | Bool _ | Int _ | Float _ => st
  | Ref oid _ _ => set_parent oid parent0 st
  | Unary _ right0 => _resolve parent0 right0 st
  | Binary left0 _ right0 => _resolve parent0 right0 (_resolve parent0 left0 st)
  | Array items =>
      (fix each (l : list Expr) (st : Store) : Store :=
         match l with
         | [] => st
         | array_item :: l' => each l' (_resolve parent0 array_item st)
         end) items st
  | Table items =>
      (fix each (l : list TableItem) (st : Store) : Store :=
         match l with
         | [] => st
         | table_item :: l' =>
             each l'
               (match table_item with
                | Build_TableItem k v p =>
                    let st1 := _resolve (Some expr) k st in
                    let st2 := _resolve (Some expr) v st1 in
                    match p with
                    | Some p' => _resolve (Some expr) p' st2
                    | None => st2
                    end
                end)
         end) items st
  end.

(** [isinstance(item_key, Str) and key.value == item_key.value], where
    [key] is a [Str] or an [Int]: an [int] never equals a [str]. *)
Definition key_matches (key0 item_key : Expr) : bool :=
  match item_key with
  | Str v2 =>
      match key0 with
      | Str v1 => String.eqb v1 v2
      | _ => false
      end
  | _ => false
  end.

Section Loops.
(** [self._evaluate_key], as called from the loops of [_evaluate_ref]. *)
Variable evaluate_key : Expr -> Eval Expr.

(** [for item in items: ...] of [_evaluate_ref], over the entries that
    are left of the table [current].  The local variable [item_key] is
    threaded through: it is [None] while unassigned.  The result is the
    matched entry's value ([found]) and [item_key].  The three [print]
    calls show the key looked up, the entry's key and [current], which
    is still the table when ["MATCH"] is printed. *)
Fixpoint scan (key0 : Expr) (current : Expr) (items : list TableItem)
    (item_key : option Expr) : Eval (option Expr * option Expr) :=
  match items with
  | [] => ret (None, item_key)
  | item :: rest =>
      do r <- try_except is_RuntimeError_or_TypeError
                (do ik <- evaluate_key (key item); ret (Some ik))
                (print_ "FAILURE" [key0; key item; current] ;; ret None);
      match r with
      | None => scan key0 current rest item_key
      | Some ik =>
          if key_matches key0 ik
          then print_ "MATCH" [key0; key item; current] ;;
               ret (Some (value item), Some ik)
          else print_ "OK" [key0; key item; current] ;;
               scan key0 current rest (Some ik)
      end
  end.

(** One iteration of [for key in ref.keys]: the body of the loop, from
    the current target and [item_key] to the next ones. *)
Definition segment (key0 : Expr) (current : option Expr) (item_key : option Expr)
  : Eval (option Expr * option Expr) :=
  do key1 <- evaluate_key key0;
  match current with
  | Some (Array _) => raise NotImplementedError
  | Some (Table items) =>
      do r <- scan key1 (Table items) items item_key;
      match r with
      | (Some v, ik) => ret (Some v, ik)
      | (None, Some ik) => raise (KeyError "Key not found." key1 ik)
      | (None, None) => raise (UnboundLocalError "item_key")
      end
  | _ => ret (current, item_key)
  end.

(** [for key in ref.keys: ...], from the locals [current] and [item_key]
    before the loop to their values after it. *)
Fixpoint walk (keys : list Expr) (current : option Expr) (item_key : option Expr)
  : Eval (option Expr * option Expr) :=
  match keys with
  | [] => ret (current, item_key)
  | key0 :: rest =>
      do r <- segment key0 current item_key;
      walk rest (fst r) (snd r)
  end.
End Loops.

(** [for item in table.items: ...] of [_evaluate_table]. *)
Fixpoint each_item (evaluate0 : Expr -> Eval unit) (items : list TableItem)
  : Eval unit :=
  match items with
  | [] => ret tt
  | item :: rest =>
      evaluate0 (key item) ;; evaluate0 (value item) ;; each_item evaluate0 rest
  end.

Section Methods.
(** [self._expr] *)
Variable _expr : Expr.

Fixpoint _evaluate (fuel : nat) (expr : Expr) {struct fuel} : Eval unit :=
  match fuel with
  | O => out_of_fuel
  | S n =>
      match expr with
      | Str _ | Bool _ | Int _ | Float _ => ret tt
      | Ref oid keys modifier => _evaluate_ref n oid keys modifier
      | Unary _ _ => raise NotImplementedError
      | Binary _ _ _ => raise NotImplementedError
      | Array _ => raise NotImplementedError
      | Table items => _evaluate_table n items
      end
  end

with _evaluate_ref (fuel : nat) (oid : nat) (keys : list Expr)
       (modifier : RefModifier.t) {struct fuel} : Eval unit :=
  match fuel with
  | O => out_of_fuel
  | S n =>
      fun st =>
        if _evaluated (get st oid) then Return tt st
        else
          let st1 := set_evaluated oid true st in
          let current :=
            match modifier with
            | RefModifier.ABSOLUTE => Some _expr
            | RefModifier.RELATIVE => _parent (get st1 oid)
            end in
          (do r <- walk (_evaluate_key n) keys current None;
           fun st2 => Return tt (set_cache oid (fst r) st2)) st1
  end

with _evaluate_key (fuel : nat) (key0 : Expr) {struct fuel} : Eval Expr :=
  match fuel with
  | O => out_of_fuel
  | S n =>
      match key0 with
      | Str _ | Int _ => ret key0
      | Ref oid _ _ =>
          _evaluate n key0 ;;
          fun st =>
            match _cache (get st oid) with
            | None => Raise (RuntimeError "Failed to evaluate reference.") st
            | Some c => _evaluate_key n c st
            end
      | _ => raise (TypeError "Expected string or integer for key.")
      end
  end

with _evaluate_table (fuel : nat) (items : list TableItem) {struct fuel}
  : Eval unit :=
  match fuel with
  | O => out_of_fuel
  | S n => each_item (_evaluate n) items
  end.

Definition evaluate (fuel : nat) : Eval Expr :=
  fun st =>
    let parent0 :=
      match _expr with
      | Table _ => Some _expr
      | _ => None
      end in
    (_evaluate fuel _expr ;; ret _expr) (_resolve parent0 _expr st).
End Methods.

(** [isinstance(key, Str | Int)] *)
Definition is_Str_or_Int (e : Expr) : bool :=
  match e with
  | Str _ | Int _ => true
  | _ => false
  end.

(** *** Predicates used in the statements *)

Section KeysFail.
Variable evaluate_key : Expr -> Eval Expr.

(** The entries are scanned to the end without a match for [key0]: each
    key either raises an exception that the handler catches, or unwraps
    to a key that does not match, and the line that is printed for the
    entry, with the table [current], is printed without an error.  The
    store and the local [item_key] are threaded as the loop threads
    them. *)
Inductive no_match (key0 current : Expr)
  : list TableItem -> Store -> option Expr -> Store -> option Expr -> Prop :=
| no_match_nil st item_key : no_match key0 current [] st item_key st item_key
| no_match_fail item rest e st st1 item_key st2 item_key2 :
    evaluate_key (key item) st = Raise e st1 ->
    is_RuntimeError_or_TypeError e = true ->
    print_ "FAILURE" [key0; key item; current] st1 = Return tt st1 ->
    no_match key0 current rest st1 item_key st2 item_key2 ->
    no_match key0 current (item :: rest) st item_key st2 item_key2
| no_match_differs item rest ik st st1 item_key st2 item_key2 :
    evaluate_key (key item) st = Return ik st1 ->
    key_matches key0 ik = false ->
    print_ "OK" [key0; key item; current] st1 = Return tt st1 ->
    no_match key0 current rest st1 (Some ik) st2 item_key2 ->
    no_match key0 current (item :: rest) st item_key st2 item_key2.

(** Every entry's key raises an exception that the handler catches, and
    the handler prints its line without an error. *)
Inductive keys_fail (key0 current : Expr)
  : list TableItem -> Store -> Store -> Prop :=
| keys_fail_nil st : keys_fail key0 current [] st st
| keys_fail_cons item rest e st st1 st2 :
    evaluate_key (key item) st = Raise e st1 ->
    is_RuntimeError_or_TypeError e = true ->
    print_ "FAILURE" [key0; key item; current] st1 = Return tt st1 ->
    keys_fail key0 current rest st1 st2 ->
    keys_fail key0 current (item :: rest) st st2.
End KeysFail.

(** [ext st st']: a reference flagged in [st] is still flagged in [st'],
    and the recorded scopes are those of [st]. *)

Definition ext (st st' : Store) : Prop :=
  forall oid,
    (_evaluated (get st oid) = true -> _evaluated (get st' oid) = true) /\
    _parent (get st' oid) = _parent (get st oid).

(** A computation that only extends the store in the sense of [ext]. *)
Definition keeps {A} (m : Eval A) : Prop :=
  forall st,
    match m st with
    | Return _ st' | Raise _ st' => ext st st'
    | OutOfFuel => True
    end.

(** A [resolver] leaves caches and flags alone and, for each reference,
    either leaves its scope alone or overwrites it with a value that
    does not depend on the store. *)

Definition resolver (f : Store -> Store) : Prop :=
  forall oid,
    (forall st, _cache (get (f st) oid) = _cache (get st oid) /\
                _evaluated (get (f st) oid) = _evaluated (get st oid)) /\
    ((exists v, forall st, _parent (get (f st) oid) = v) \/
     (forall st, _parent (get (f st) oid) = _parent (get st oid))).

(** *** What a run may change, and where a reference may point *)

(** [forces st st']: a reference either is in [st'] as it is in [st], or
    it was not flagged in [st], is flagged in [st'], and has kept its
    scope. *)
Definition forces (st st' : Store) : Prop :=
  forall oid,
    get st' oid = get st oid \/
    (_evaluated (get st oid) = false /\ _evaluated (get st' oid) = true /\
     _parent (get st' oid) = _parent (get st oid)).

(** The references that [_evaluate] is called on while it goes through an
    expression: the expression itself, and the keys and values of the
    entries of its tables.  The keys of a reference and the [parent] of
    an entry are not among them. *)
Fixpoint visited (e : Expr) : list nat :=
  match e with
  | Ref oid _ _ => [oid]
  | Table items =>
      flat_map (fun item =>
                  match item with
                  | Build_TableItem k v _ => (visited k ++ visited v)%list
                  end) items
  | _ => []
  end.

(** The references that [_resolve] is called on: as above, and through
    unary and binary expressions, arrays and the [parent] of an entry.
    The keys of a reference are not among them. *)
Fixpoint resolved (e : Expr) : list nat :=
  match e with
  | Ref oid _ _ => [oid]
  | Unary _ right0 => resolved right0
  | Binary left0 _ right0 => (resolved left0 ++ resolved right0)%list
  | Array items => flat_map resolved items
  | Table items =>
      flat_map (fun item =>
                  match item with
                  | Build_TableItem k v p =>
                      (resolved k ++ resolved v ++
                       match p with
                       | Some p' => resolved p'
                       | None => []
                       end)%list
                  end) items
  | _ => []
  end.

Definition is_Ref (e : Expr) : bool :=
  match e with
  | Ref _ _ _ => true
  | _ => false
  end.

Definition is_Table (e : Expr) : bool :=
  match e with
  | Table _ => true
  | _ => false
  end.

(** [f] gives each reference listed in [l] the scope [p] or a table as
    its scope, and leaves every other reference as it is. *)
Definition writes_scopes (l : list nat) (p : option Expr) (f : Store -> Store)
  : Prop :=
  forall oid st,
    (In oid l ->
     _parent (get (f st) oid) = p \/
     exists t, _parent (get (f st) oid) = Some t /\ is_Table t = true) /\
    (~ In oid l -> get (f st) oid = get st oid).

(** The scope that [_resolve parent0 e] leaves in the reference [oid]:
    that of the last place, in the order of the pass, at which the
    reference stands; [None] when it stands at none. *)
Fixpoint scope_of (parent0 : option Expr) (e : Expr) (oid : nat)
  : option (option Expr) :=
  match e with
  | Str _ | Bool _ | Int _ | Float _ => None
  | Ref oid' _ _ => if Nat.eqb oid oid' then Some parent0 else None
  | Unary _ right0 => scope_of parent0 right0 oid
  | Binary left0 _ right0 =>
      later (scope_of parent0 right0 oid) (scope_of parent0 left0 oid)
  | Array items =>
      fold_left (fun acc array_item => later (scope_of parent0 array_item oid) acc)
        items None
  | Table items =>
      fold_left
        (fun acc table_item =>
           match table_item with
           | Build_TableItem k v p =>
               let acc1 := later (scope_of (Some e) k oid) acc in
               let acc2 := later (scope_of (Some e) v oid) acc1 in
               match p with
               | Some p' => later (scope_of (Some e) p' oid) acc2
               | None => acc2
               end
           end) items None
  end.

(** A reference's data with its scope overwritten, or left alone. *)
Definition with_scope (q : option (option Expr)) (d : RefData) : RefData :=
  match q with
  | Some p => {| _parent := p; _cache := _cache d; _evaluated := _evaluated d |}
  | None => d
  end.

(** [f] overwrites the scopes as [s] says and changes nothing else. *)
Definition sets_scopes (s : nat -> option (option Expr)) (f : Store -> Store)
  : Prop :=
  forall st oid, get (f st) oid = with_scope (s oid) (get st oid).

(** [chain force key st len r st']: the chain of caches that starts at
    [key] in the store [st] ends after [len] references.  Each reference
    on the way is forced, by [force], and the forcing returns; the chain
    goes on with the cache the reference then has.  It ends at [r]: an
    expression [Some v] that is not a reference, or [None] at a
    reference left without a cache.  [st'] is the store after the
    forcings. *)
Inductive chain (force : Expr -> Eval unit)
  : Expr -> Store -> nat -> option Expr -> Store -> Prop :=
| chain_end v st :
    is_Ref v = false -> chain force v st 0 (Some v) st
| chain_missing oid keys modifier st st1 :
    force (Ref oid keys modifier) st = Return tt st1 ->
    _cache (get st1 oid) = None ->
    chain force (Ref oid keys modifier) st 1 None st1
| chain_link oid keys modifier st st1 c len r st2 :
    force (Ref oid keys modifier) st = Return tt st1 ->
    _cache (get st1 oid) = Some c ->
    chain force c st1 len r st2 ->
    chain force (Ref oid keys modifier) st (S len) r st2.

(** [descends v e]: [v] is [e], or is reached from [e] by going from a
    table to the value of one of its entries, any number of times. *)
Inductive descends : Expr -> Expr -> Prop :=
| descends_refl e : descends e e
| descends_value v items item :
    In item items -> descends v (value item) -> descends v (Table items).

(** The value of the first entry whose key is the string literal [kv]. *)
Fixpoint find_entry (kv : string) (items : list TableItem) : option Expr :=
  match items with
  | [] => None
  | item :: rest =>
      match key item with
      | Str s => if String.eqb kv s then Some (value item) else find_entry kv rest
      | _ => find_entry kv rest
      end
  end.

(** The path [ks] followed from [current], in the store [st], through
    tables none of whose keys is a reference and which are printed
    without an error.  A target that is neither a table nor an array
    lets the key pass, as [_evaluate_ref] does; [None] when a key names
    no entry, at an array, at a table with a reference as a key, and at
    a table whose printing raises [RecursionError]. *)
Fixpoint follow (st : Store) (ks : list string) (current : Expr) : option Expr :=
  match ks with
  | [] => Some current
  | kv :: rest =>
      match current with
      | Table items =>
          if forallb (fun item => negb (is_Ref (key item))) items &&
             negb (repr_raises st current)
          then match find_entry kv items with
               | Some v => follow st rest v
               | None => None
               end
          else None
      | Array _ => None
      | _ => follow st rest current
      end
  end.

(** An expression that [_evaluate] reaches and has no rule for: a unary
    or binary expression or an array, as the expression itself or as the
    key or the value of an entry of its tables. *)
Fixpoint unsupported (e : Expr) : bool :=
  match e with
  | Unary _ _ | Binary _ _ _ | Array _ => true
  | Table items =>
      existsb (fun item =>
                 match item with
                 | Build_TableItem k v _ => unsupported k || unsupported v
                 end) items
  | _ => false
  end.

(** *** Example trees and stores *)

(** The store while the reference numbered [oid] is being resolved and
    nothing else has happened: it is flagged and its cache is not set. *)
Definition in_progress (oid : nat) : Store := set_evaluated oid true ∅.

(** [TableItem(k, v)] *)
Definition entry (k v : Expr) : TableItem := Build_TableItem k v None.

(** [Ref(keys)]: an absolute reference, the object numbered [oid]. *)
Definition ref (oid : nat) (keys : list Expr) : Expr :=
  Ref oid keys RefModifier.ABSOLUTE.

(** The tree built under [__main__]. *)
Definition main_expr : Expr :=
  Table [
    entry (ref 0 [Str "a"; ref 1 [Str "d"]]) (Table [
      entry (Str "c") (Str "10");
      entry (Str "z") (Str "c");
      entry (Str "b") (ref 2 [Str "a"; ref 3 [Str "10"; Str "z"]])]);
    entry (Str "a") (Table [entry (Str "c") (Str "10")]);
    entry (Str "d") (Str "c")].

(** [Table{ a: "1" }] *)
Definition table_a1 : Expr := Table [entry (Str "a") (Str "1")].

(** [Table{ a: Table{ c: "10" }, b: Ref["a", "c"] }] *)
Definition table_nested : Expr :=
  Table [entry (Str "a") (Table [entry (Str "c") (Str "10")]);
         entry (Str "b") (ref 0 [Str "a"; Str "c"])].

(** [Table{ x: Ref["a"], a: Ref["b"], b: "1" }] *)
Definition table_chain : Expr :=
  Table [entry (Str "x") (ref 0 [Str "a"]);
         entry (Str "a") (ref 1 [Str "b"]);
         entry (Str "b") (Str "1")].

(** [Table{ 1: "x" }] *)
Definition table_int : Expr := Table [entry (Int 1) (Str "x")].

(** [Table{ Ref["zz"]: "v", a: "1" }]: the first key names no entry. *)
Definition table_dangling : Expr :=
  Table [entry (ref 0 [Str "zz"]) (Str "v"); entry (Str "a") (Str "1")].

(** [Table{ Ref["x"]: "v", x: "k" }]: resolving the first key scans the
    table and so meets that key again. *)
Definition table_cyclic_key : Expr :=
  Table [entry (ref 0 [Str "x"]) (Str "v"); entry (Str "x") (Str "k")].

(** [Table{ Ref["a"]: "v", a: Ref["a"], b: Ref["a"] }]: three distinct
    [Ref] objects with the same key. *)
Definition table_loop : Expr :=
  Table [entry (ref 0 [Str "a"]) (Str "v");
         entry (Str "a") (ref 1 [Str "a"]);
         entry (Str "b") (ref 2 [Str "a"])].

(** A relative reference as the whole document: it has no enclosing
    table. *)
Definition relative_root : Expr := Ref 0 [Str "a"] RefModifier.RELATIVE.

(** [Table{ c: "0", n: Table{ c: "1", r: Relative["c"] } }] *)
Definition table_relative : Expr :=
  Table [entry (Str "c") (Str "0");
         entry (Str "n")
           (Table [entry (Str "c") (Str "1");
                   entry (Str "r") (Ref 0 [Str "c"] RefModifier.RELATIVE)])].

(** [Table{ a: Ref["a"], b: Ref["a"] }]: the first reference finds
    itself and becomes its own cache. *)
Definition table_self : Expr :=
  Table [entry (Str "a") (ref 0 [Str "a"]); entry (Str "b") (ref 1 [Str "a"])].

(** The store in which the reference numbered [oid], written [r], is
    evaluated and is its own cache. *)
Definition self_cached (oid : nat) (r : Expr) : Store :=
  set_cache oid (Some r) (set_evaluated oid true ∅).

End Evaluator.

(** ** evaluator2.py *)

Module Evaluator2.

Module RefModifier.
Inductive t := ABSOLUTE | RELATIVE.
End RefModifier.

(** [Expr = Str | Bool | Int | Float | Ref | Table] *)
Inductive Expr : Type :=
| Str (value : string)
| Bool (value : bool)
| Int (value : Z)
| Float (value : float)
| Ref (oid : nat) (keys : list Expr) (modifier : RefModifier.t)
| Table (items : list TableItem)
with TableItem : Type :=
| Build_TableItem (key : Expr) (value : Expr) (parent : option Expr).

Definition key (item : TableItem) : Expr :=
  match item with Build_TableItem k _ _ => k end.
Definition value (item : TableItem) : Expr :=
  match item with Build_TableItem _ v _ => v end.
Definition parent (item : TableItem) : option Expr :=
  match item with Build_TableItem _ _ p => p end.

(** The "data for evaluation" of a [Ref] object: its fields [parent],
    [cache] and [evaluated] (prefixed here, [parent] being taken by
    [TableItem]). *)
Record RefData : Type := Build_RefData {
  ref_parent : option Expr;
  ref_cache : option Expr;
  ref_evaluated : bool
}.

Definition fresh : RefData :=
  {| ref_parent := None; ref_cache := None; ref_evaluated := false |}.

Definition get (st : gmap nat RefData) (oid : nat) : RefData :=
  default fresh (st !! oid).

Definition set_parent (oid : nat) (p : option Expr) (st : gmap nat RefData)
  : gmap nat RefData :=
  <[oid := {| ref_parent := p;
              ref_cache := ref_cache (get st oid);
              ref_evaluated := ref_evaluated (get st oid) |}]> st.

Definition set_cache (oid : nat) (c : option Expr) (st : gmap nat RefData)
  : gmap nat RefData :=
  <[oid := {| ref_parent := ref_parent (get st oid);
              ref_cache := c;
              ref_evaluated := ref_evaluated (get st oid) |}]> st.

Definition set_evaluated (oid : nat) (b : bool) (st : gmap nat RefData)
  : gmap nat RefData :=
  <[oid := {| ref_parent := ref_parent (get st oid);
              ref_cache := ref_cache (get st oid);
              ref_evaluated := b |}]> st.

Inductive Exn : Type :=
| TypeError (msg : string)
| RuntimeError (msg : string).

(** [except RuntimeError] *)
Definition is_RuntimeError (e : Exn) : bool :=
  match e with
  | RuntimeError _ => true
  | TypeError _ => false
  end.

Abbreviation Store := (gmap nat RefData).
Abbreviation Eval := (M Store Exn).

Fixpoint _resolve (parent0 : option Expr) (expr : Expr) (st : Store) : Store :=
  match expr with
  | Str _ | Bool _ | Int _ | Float _ => st
  | Ref oid _ _ => set_parent oid parent0 st
  | Table items =>
      (fix each (l : list TableItem) (st : Store) : Store :=
         match l with
         | [] => st
         | table_item :: l' =>
             each l'
               (match table_item with
                | Build_TableItem k v p =>
                    let st1 := _resolve (Some expr) k st in
                    let st2 := _resolve (Some expr) v st1 in
                    match p with
                    | Some p' => _resolve (Some expr) p' st2
                    | None => st2
                    end
                end)
         end) items st
  end.

Section Loops.
(** [self._unwrap], as called from the loops of [_evaluate_ref]. *)
Variable unwrap : Expr -> Eval Expr.

(** [for item in curry.items: ...], for the string [kv] of the key
    looked up.  The loop has no [else]: when it ends without a [break],
    [current] is what it was. *)
Fixpoint scan (kv : string) (items : list TableItem) (current : option Expr)
  : Eval (option Expr) :=
  match items with
  | [] => ret current
  | item :: rest =>
      do r <- try_except is_RuntimeError
                (do ik <- unwrap (key item); ret (Some ik))
                (ret None);
      match r with
      | None => scan kv rest current
      | Some (Str iv) =>
          if String.eqb kv iv
          then ret (Some (value item))
          else scan kv rest current
      | Some _ => raise (TypeError "Expect string key for item.")
      end
  end.

(** The body of [for key in ref.keys]. *)
Definition segment (key0 : Expr) (current : option Expr) : Eval (option Expr) :=
  match current with
  | None => raise (TypeError "NONE!")
  | Some cur =>
      do curry <- unwrap cur;
      do key1 <- unwrap key0;
      match key1 with
      | Str kv =>
          match curry with
          | Table items => scan kv items current
          | _ => raise (TypeError "Expect table.")
          end
      | _ => raise (TypeError "Expect string key.")
      end
  end.

Fixpoint walk (keys : list Expr) (current : option Expr) : Eval (option Expr) :=
  match keys with
  | [] => ret current
  | key0 :: rest =>
      do current' <- segment key0 current;
      walk rest current'
  end.
End Loops.

(** [for item in table.items: ...] of [_evaluate_table]. *)
Fixpoint each_item (evaluate0 : Expr -> Eval unit) (items : list TableItem)
  : Eval unit :=
  match items with
  | [] => ret tt
  | item :: rest =>
      evaluate0 (key item) ;; evaluate0 (value item) ;; each_item evaluate0 rest
  end.

Section Methods.
(** [self._expr] *)
Variable _expr : Expr.

Fixpoint _evaluate (fuel : nat) (expr : Expr) {struct fuel} : Eval unit :=
  match fuel with
  | O => out_of_fuel
  | S n =>
      match expr with
      | Str _ | Bool _ | Int _ | Float _ => ret tt
      | Ref oid keys modifier => _evaluate_ref n oid keys modifier
      | Table items => _evaluate_table n items
      end
  end

with _evaluate_ref (fuel : nat) (oid : nat) (keys : list Expr)
       (modifier : RefModifier.t) {struct fuel} : Eval unit :=
  match fuel with
  | O => out_of_fuel
  | S n =>
      fun st =>
        if ref_evaluated (get st oid) then Return tt st
        else
          let st1 := set_evaluated oid true st in
          let current :=
            match modifier with
            | RefModifier.ABSOLUTE => Some _expr
            | RefModifier.RELATIVE => ref_parent (get st1 oid)
            end in
          (do current' <- walk (_unwrap n) keys current;
           fun st2 => Return tt (set_cache oid current' st2)) st1
  end

with _evaluate_table (fuel : nat) (items : list TableItem) {struct fuel}
  : Eval unit :=
  match fuel with
  | O => out_of_fuel
  | S n => each_item (_evaluate n) items
  end

with _unwrap (fuel : nat) (expr : Expr) {struct fuel} : Eval Expr :=
  match fuel with
  | O => out_of_fuel
  | S n =>
      match expr with
      | Ref oid _ _ =>
          _evaluate n expr ;;
          fun st =>
            match ref_cache (get st oid) with
            | None => Raise (RuntimeError "Failed to evaluate reference.") st
            | Some c => _unwrap n c st
            end
      | _ => ret expr
      end
  end.

Definition evaluate (fuel : nat) : Eval Expr :=
  fun st =>
    let parent0 :=
      match _expr with
      | Table _ => Some _expr
      | _ => None
      end in
    (_evaluate fuel _expr ;; ret _expr) (_resolve parent0 _expr st).
End Methods.

(** *** Predicates used in the statements: as in [Evaluator] *)

Definition ext (st st' : Store) : Prop :=
  forall oid,
    (ref_evaluated (get st oid) = true -> ref_evaluated (get st' oid) = true) /\
    ref_parent (get st' oid) = ref_parent (get st oid).

Definition keeps {A} (m : Eval A) : Prop :=
  forall st,
    match m st with
    | Return _ st' | Raise _ st' => ext st st'
    | OutOfFuel => True
    end.

Definition resolver (f : Store -> Store) : Prop :=
  forall oid,
    (forall st, ref_cache (get (f st) oid) = ref_cache (get st oid) /\
                ref_evaluated (get (f st) oid) = ref_evaluated (get st oid)) /\
    ((exists v, forall st, ref_parent (get (f st) oid) = v) \/
     (forall st, ref_parent (get (f st) oid) = ref_parent (get st oid))).

(** *** What a run may change, and the path of a reference: as in
    [Evaluator] *)

Definition forces (st st' : Store) : Prop :=
  forall oid,
    get st' oid = get st oid \/
    (ref_evaluated (get st oid) = false /\ ref_evaluated (get st' oid) = true /\
     ref_parent (get st' oid) = ref_parent (get st oid)).

(** The references that [_evaluate] is called on while it goes through
    an expression. *)
Fixpoint visited (e : Expr) : list nat :=
  match e with
  | Ref oid _ _ => [oid]
  | Table items =>
      flat_map (fun item =>
                  match item with
                  | Build_TableItem k v _ => (visited k ++ visited v)%list
                  end) items
  | _ => []
  end.

(** The references that [_resolve] is called on. *)
Fixpoint resolved (e : Expr) : list nat :=
  match e with
  | Ref oid _ _ => [oid]
  | Table items =>
      flat_map (fun item =>
                  match item with
                  | Build_TableItem k v p =>
                      (resolved k ++ resolved v ++
                       match p with
                       | Some p' => resolved p'
                       | None => []
                       end)%list
                  end) items
  | _ => []
  end.

Definition is_Ref (e : Expr) : bool :=
  match e with
  | Ref _ _ _ => true
  | _ => false
  end.

Definition is_Str (e : Expr) : bool :=
  match e with
  | Str _ => true
  | _ => false
  end.

Definition is_Table (e : Expr) : bool :=
  match e with
  | Table _ => true
  | _ => false
  end.

Definition writes_scopes (l : list nat) (p : option Expr) (f : Store -> Store)
  : Prop :=
  forall oid st,
    (In oid l ->
     ref_parent (get (f st) oid) = p \/
     exists t, ref_parent (get (f st) oid) = Some t /\ is_Table t = true) /\
    (~ In oid l -> get (f st) oid = get st oid).

(** The scope that [_resolve parent0 e] leaves in the reference [oid]:
    that of the last place, in the order of the pass, at which the
    reference stands; [None] when it stands at none. *)
Fixpoint scope_of (parent0 : option Expr) (e : Expr) (oid : nat)
  : option (option Expr) :=
  match e with
  | Str _ | Bool _ | Int _ | Float _ => None
  | Ref oid' _ _ => if Nat.eqb oid oid' then Some parent0 else None
  | Table items =>
      fold_left
        (fun acc table_item =>
           match table_item with
           | Build_TableItem k v p =>
               let acc1 := later (scope_of (Some e) k oid) acc in
               let acc2 := later (scope_of (Some e) v oid) acc1 in
               match p with
               | Some p' => later (scope_of (Some e) p' oid) acc2
               | None => acc2
               end
           end) items None
  end.

(** A reference's data with its scope overwritten, or left alone. *)
Definition with_scope (q : option (option Expr)) (d : RefData) : RefData :=
  match q with
  | Some p => {| ref_parent := p; ref_cache := ref_cache d; ref_evaluated := ref_evaluated d |}
  | None => d
  end.

(** [f] overwrites the scopes as [s] says and changes nothing else. *)
Definition sets_scopes (s : nat -> option (option Expr)) (f : Store -> Store)
  : Prop :=
  forall st oid, get (f st) oid = with_scope (s oid) (get st oid).

(** The entries are gone through without a match for [kv] and without an
    error: each key raises [RuntimeError] or unwraps to another
    string. *)
Inductive passed (unwrap : Expr -> Eval Expr) (kv : string)
  : list TableItem -> Store -> Store -> Prop :=
| passed_nil st : passed unwrap kv [] st st
| passed_skip item rest e st st1 st2 :
    unwrap (key item) st = Raise e st1 ->
    is_RuntimeError e = true ->
    passed unwrap kv rest st1 st2 ->
    passed unwrap kv (item :: rest) st st2
| passed_differs item rest iv st st1 st2 :
    unwrap (key item) st = Return (Str iv) st1 ->
    String.eqb kv iv = false ->
    passed unwrap kv rest st1 st2 ->
    passed unwrap kv (item :: rest) st st2.

(** [chain force e st len r st']: the chain of caches that starts at [e]
    in the store [st] ends after [len] references, each of them forced
    by [force] with a forcing that returns: at an expression [Some v]
    that is not a reference, or at a reference left without a cache,
    [None].  [st'] is the store after the forcings. *)
Inductive chain (force : Expr -> Eval unit)
  : Expr -> Store -> nat -> option Expr -> Store -> Prop :=
| chain_end v st :
    is_Ref v = false -> chain force v st 0 (Some v) st
| chain_missing oid keys modifier st st1 :
    force (Ref oid keys modifier) st = Return tt st1 ->
    ref_cache (get st1 oid) = None ->
    chain force (Ref oid keys modifier) st 1 None st1
| chain_link oid keys modifier st st1 c len r st2 :
    force (Ref oid keys modifier) st = Return tt st1 ->
    ref_cache (get st1 oid) = Some c ->
    chain force c st1 len r st2 ->
    chain force (Ref oid keys modifier) st (S len) r st2.

(** The value of the first entry whose key is the string literal [kv]. *)
Fixpoint find_entry (kv : string) (items : list TableItem) : option Expr :=
  match items with
  | [] => None
  | item :: rest =>
      match key item with
      | Str s => if String.eqb kv s then Some (value item) else find_entry kv rest
      | _ => find_entry kv rest
      end
  end.

(** The path [ks] followed from [current] through tables all of whose
    keys are string literals.  A key that names no entry leaves the
    target where it is, as the loop of [_evaluate_ref] does; [None] at a
    target that is not a table and at a table with another kind of
    key. *)
Fixpoint follow (ks : list string) (current : Expr) : option Expr :=
  match ks with
  | [] => Some current
  | kv :: rest =>
      match current with
      | Table items =>
          if forallb (fun item => is_Str (key item)) items
          then follow rest (default current (find_entry kv items))
          else None
      | _ => None
      end
  end.

(** *** Example trees and stores *)

(** The store while the reference numbered [oid] is being resolved and
    nothing else has happened: it is flagged and its cache is not set. *)
Definition in_progress (oid : nat) : Store := set_evaluated oid true ∅.

(** [TableItem(k, v)] *)
Definition entry (k v : Expr) : TableItem := Build_TableItem k v None.

(** [Ref(keys)]: an absolute reference, the object numbered [oid]. *)
Definition ref (oid : nat) (keys : list Expr) : Expr :=
  Ref oid keys RefModifier.ABSOLUTE.

(** The tree built under [__main__]. *)
Definition main_expr : Expr :=
  Table [
    entry (ref 0 [Str "a"; ref 1 [Str "d"]]) (Table [
      entry (Str "c") (Str "10");
      entry (Str "z") (Str "c");
      entry (Str "b") (ref 2 [Str "a"; ref 3 [Str "10"; Str "z"]])]);
    entry (Str "a") (ref 4 [Str "e"]);
    entry (Str "e") (Table [entry (Str "c") (Str "10")]);
    entry (Str "d") (Str "c")].

(** [Table{ a: "1" }] *)
Definition table_a1 : Expr := Table [entry (Str "a") (Str "1")].

(** [Table{ x: Ref["a"], a: Ref["b"], b: "1" }] *)
Definition table_chain : Expr :=
  Table [entry (Str "x") (ref 0 [Str "a"]);
         entry (Str "a") (ref 1 [Str "b"]);
         entry (Str "b") (Str "1")].

(** [Table{ 1: "x" }] *)
Definition table_int : Expr := Table [entry (Int 1) (Str "x")].

(** [Table{ 1: "x", a: "y" }] *)
Definition table_mixed_keys : Expr :=
  Table [entry (Int 1) (Str "x"); entry (Str "a") (Str "y")].

(** [Table{ a: Ref["a"], b: Ref["a", "x"] }] *)
Definition table_loop : Expr :=
  Table [entry (Str "a") (ref 0 [Str "a"]);
         entry (Str "b") (ref 1 [Str "a"; Str "x"])].

(** A relative reference as the whole document: it has no enclosing
    table. *)
Definition relative_root : Expr := Ref 0 [Str "a"] RefModifier.RELATIVE.

(** [Table{ a: Table{ c: "10" }, b: Ref["a", "c"] }] *)
Definition table_nested : Expr :=
  Table [entry (Str "a") (Table [entry (Str "c") (Str "10")]);
         entry (Str "b") (ref 0 [Str "a"; Str "c"])].

(** [Table{ c: "0", n: Table{ c: "1", r: Relative["c"] } }] *)
Definition table_relative : Expr :=
  Table [entry (Str "c") (Str "0");
         entry (Str "n")
           (Table [entry (Str "c") (Str "1");
                   entry (Str "r") (Ref 0 [Str "c"] RefModifier.RELATIVE)])].

End Evaluator2.

(** ** The expressions of evaluator2.py among those of evaluator.py *)

(** evaluator2.py declares the classes of evaluator.py except [Unary],
    [Binary] and [Array]; an expression of the one is read as an
    expression of the other, class by class and field by field. *)
Module Both.

Definition embed_modifier (m : Evaluator2.RefModifier.t) : Evaluator.RefModifier.t :=
  match m with
  | Evaluator2.RefModifier.ABSOLUTE => Evaluator.RefModifier.ABSOLUTE
  | Evaluator2.RefModifier.RELATIVE => Evaluator.RefModifier.RELATIVE
  end.

Fixpoint embed (e : Evaluator2.Expr) : Evaluator.Expr :=
  match e with
  | Evaluator2.Str s => Evaluator.Str s
  | Evaluator2.Bool b => Evaluator.Bool b
  | Evaluator2.Int z => Evaluator.Int z
  | Evaluator2.Float f => Evaluator.Float f
  | Evaluator2.Ref oid keys m => Evaluator.Ref oid (map embed keys) (embed_modifier m)
  | Evaluator2.Table items =>
      Evaluator.Table
        (map (fun item =>
                match item with
                | Evaluator2.Build_TableItem k v p =>
                    Evaluator.Build_TableItem (embed k) (embed v)
                      match p with
                      | Some p' => Some (embed p')
                      | None => None
                      end
                end) items)
  end.

Definition embed_item (item : Evaluator2.TableItem) : Evaluator.TableItem :=
  match item with
  | Evaluator2.Build_TableItem k v p =>
      Evaluator.Build_TableItem (embed k) (embed v)
        match p with
        | Some p' => Some (embed p')
        | None => None
        end
  end.
End Both.

(** * Facts about outcomes *)

Lemma refines_refl {St Ex A} (m : M St Ex A) : refines m m.
Proof. by intros st _. Qed.

Lemma refines_trans {St Ex A} (m1 m2 m3 : M St Ex A) :
  refines m1 m2 -> refines m2 m3 -> refines m1 m3.
Proof.
  intros H12 H23 st Hfin. rewrite <- (H12 st Hfin). apply H23.
  by rewrite (H12 st Hfin).
Qed.

Lemma refines_bind {St Ex A B} (m m' : M St Ex A) (k k' : A -> M St Ex B) :
  refines m m' -> (forall a, refines (k a) (k' a)) ->
  refines (do a <- m; k a) (do a <- m'; k' a).
Proof.
  intros Hm Hk st. unfold bind. specialize (Hm st).
  destruct (m st) as [a st'|e st'|]; [| |done].
  - intros Hfin. rewrite Hm by done. by apply Hk.
  - intros _. by rewrite Hm.
Qed.

Lemma refines_try_except {St Ex A} caught (m m' h : M St Ex A) :
  refines m m' -> refines (try_except caught m h) (try_except caught m' h).
Proof.
  intros Hm st. unfold try_except. specialize (Hm st).
  destruct (m st) as [a st'|e st'|]; [| |done]; intros _; by rewrite Hm.
Qed.

(** A relation that is reflexive and transitive is preserved by the
    plumbing of the monad. *)

Section Preserves.
Context {St Ex : Type} (R : St -> St -> Prop).
Hypothesis R_refl : forall st, R st st.
Hypothesis R_trans : forall st1 st2 st3, R st1 st2 -> R st2 st3 -> R st1 st3.

Lemma preserves_ret {A} (a : A) : preserves (Ex := Ex) R (ret a).
Proof. intros st. apply R_refl. Qed.

Lemma preserves_raise {A} (e : Ex) : preserves R (raise (A := A) e).
Proof. intros st. apply R_refl. Qed.

Lemma preserves_out_of_fuel {A} : preserves (Ex := Ex) R (out_of_fuel (A := A)).
Proof. by intros st. Qed.

Lemma preserves_bind {A B} (m : M St Ex A) (k : A -> M St Ex B) :
  preserves R m -> (forall a, preserves R (k a)) -> preserves R (do a <- m; k a).
Proof.
  intros Hm Hk st. unfold bind. specialize (Hm st).
  destruct (m st) as [a st1|e st1|]; [|done|done].
  specialize (Hk a st1). destruct (k a st1); eauto.
Qed.

Lemma preserves_try_except {A} caught (m h : M St Ex A) :
  preserves R m -> preserves R h -> preserves R (try_except caught m h).
Proof.
  intros Hm Hh st. unfold try_except. specialize (Hm st).
  destruct (m st) as [a st1|e st1|]; [done| |done].
  destruct (caught e); [|done].
  specialize (Hh st1). destruct (h st1); eauto.
Qed.

Lemma preserves_store_of {A} (m : M St Ex A) st st' :
  preserves R m -> store_of (m st) = Some st' -> R st st'.
Proof.
  intros Hm. specialize (Hm st). destruct (m st); cbn; congruence.
Qed.
End Preserves.

(** The later of two writes. *)

Lemma later_assoc {A} (a b c : option A) : later a (later b c) = later (later a b) c.
Proof. by destruct a. Qed.

Lemma later_None {A} (a : option A) : later a None = a.
Proof. by destruct a. Qed.

Lemma fold_later {A B} (F : option A -> B -> option A) (h : B -> option A) l :
  (forall acc x, F acc x = later (h x) acc) ->
  forall acc, fold_left F l acc = later (fold_left F l None) acc.
Proof.
  intros HF. induction l as [|x l IH]; intros acc; [reflexivity|].
  cbn [fold_left]. rewrite IH, (IH (F None x)), !HF, later_None.
  by rewrite later_assoc.
Qed.

(** * Facts about evaluator.py *)

Module EvaluatorFacts.
Import Evaluator.

(** *** The store *)

Lemma get_insert_eq (st : Store) oid d : get (<[oid := d]> st) oid = d.
Proof. unfold get. by rewrite lookup_insert_eq. Qed.

Lemma get_insert_ne (st : Store) oid oid' d :
  oid ≠ oid' -> get (<[oid := d]> st) oid' = get st oid'.
Proof. intros Hne. unfold get. by rewrite lookup_insert_ne. Qed.

Lemma evaluated_set_evaluated st oid oid' :
  _evaluated (get (set_evaluated oid true st) oid') =
  if decide (oid = oid') then true else _evaluated (get st oid').
Proof.
  unfold set_evaluated. case_decide as Hd.
  - subst. by rewrite get_insert_eq.
  - by rewrite get_insert_ne.
Qed.

Lemma evaluated_set_cache st oid oid' c :
  _evaluated (get (set_cache oid c st) oid') = _evaluated (get st oid').
Proof.
  unfold set_cache. destruct (decide (oid = oid')) as [->|Hne].
  - by rewrite get_insert_eq.
  - by rewrite get_insert_ne.
Qed.

Lemma evaluated_set_parent st oid oid' p :
  _evaluated (get (set_parent oid p st) oid') = _evaluated (get st oid').
Proof.
  unfold set_parent. destruct (decide (oid = oid')) as [->|Hne].
  - by rewrite get_insert_eq.
  - by rewrite get_insert_ne.
Qed.

Lemma cache_set_parent st oid oid' p :
  _cache (get (set_parent oid p st) oid') = _cache (get st oid').
Proof.
  unfold set_parent. destruct (decide (oid = oid')) as [->|Hne].
  - by rewrite get_insert_eq.
  - by rewrite get_insert_ne.
Qed.

Lemma parent_set_evaluated st oid oid' b :
  _parent (get (set_evaluated oid b st) oid') = _parent (get st oid').
Proof.
  unfold set_evaluated. destruct (decide (oid = oid')) as [->|Hne].
  - by rewrite get_insert_eq.
  - by rewrite get_insert_ne.
Qed.

Lemma parent_set_cache st oid oid' c :
  _parent (get (set_cache oid c st) oid') = _parent (get st oid').
Proof.
  unfold set_cache. destruct (decide (oid = oid')) as [->|Hne].
  - by rewrite get_insert_eq.
  - by rewrite get_insert_ne.
Qed.

Lemma parent_set_parent st oid oid' p :
  _parent (get (set_parent oid p st) oid') =
  if decide (oid = oid') then p else _parent (get st oid').
Proof.
  unfold set_parent. case_decide as Hd.
  - subst. by rewrite get_insert_eq.
  - by rewrite get_insert_ne.
Qed.

Lemma cache_set_cache_eq st oid c : _cache (get (set_cache oid c st) oid) = c.
Proof. unfold set_cache. by rewrite get_insert_eq. Qed.

(** *** Unfolding equations of the methods *)

Section Equations.
Variable _expr : Expr.

Lemma _evaluate_Ref n oid keys modifier :
  _evaluate _expr (S n) (Ref oid keys modifier) =
  _evaluate_ref _expr n oid keys modifier.
Proof. reflexivity. Qed.

Lemma _evaluate_Table n items :
  _evaluate _expr (S n) (Table items) = _evaluate_table _expr n items.
Proof. reflexivity. Qed.

Lemma _evaluate_ref_done n oid keys modifier st :
  _evaluated (get st oid) = true ->
  _evaluate_ref _expr (S n) oid keys modifier st = Return tt st.
Proof. intros H. cbn [_evaluate_ref]. by rewrite H. Qed.

Lemma _evaluate_ref_todo n oid keys modifier st :
  _evaluated (get st oid) = false ->
  _evaluate_ref _expr (S n) oid keys modifier st =
  (do r <-
     walk (_evaluate_key _expr n) keys
       match modifier with
       | RefModifier.ABSOLUTE => Some _expr
       | RefModifier.RELATIVE => _parent (get st oid)
       end None;
   fun st2 => Return tt (set_cache oid (fst r) st2))
    (set_evaluated oid true st).
Proof.
  intros H. cbn [_evaluate_ref]. rewrite H.
  by rewrite parent_set_evaluated.
Qed.

Lemma _evaluate_Str n s st :
  _evaluate _expr (S n) (Str s) st = Return tt st.
Proof. reflexivity. Qed.

Lemma _evaluate_key_Str n s st :
  _evaluate_key _expr (S n) (Str s) st = Return (Str s) st.
Proof. reflexivity. Qed.

Lemma _evaluate_key_Int n z st :
  _evaluate_key _expr (S n) (Int z) st = Return (Int z) st.
Proof. reflexivity. Qed.

Lemma _evaluate_key_Ref n oid keys modifier st :
  _evaluate_key _expr (S n) (Ref oid keys modifier) st =
  match _evaluate _expr n (Ref oid keys modifier) st with
  | Return _ st' =>
      match _cache (get st' oid) with
      | None => Raise (RuntimeError "Failed to evaluate reference.") st'
      | Some c => _evaluate_key _expr n c st'
      end
  | Raise e st' => Raise e st'
  | OutOfFuel => OutOfFuel
  end.
Proof. reflexivity. Qed.
End Equations.

(** *** [print] *)

Lemma print_cases label args st :
  print_ label args st = Return tt st \/
  print_ label args st = Raise RecursionError st.
Proof. unfold print_. destruct (existsb _ _); auto. Qed.

Lemma print_Return label args st a st' :
  print_ label args st = Return a st' -> st' = st.
Proof. unfold print_. destruct (existsb _ _); [discriminate|]. by intros [= _ <-]. Qed.

Lemma print_Raise label args st e st' :
  print_ label args st = Raise e st' -> e = RecursionError /\ st' = st.
Proof.
  unfold print_. destruct (existsb _ _); [|discriminate]. by intros [= <- <-].
Qed.

(** What is printed does not depend on the label. *)
Lemma print_label label label' args st :
  print_ label args st = print_ label' args st.
Proof. reflexivity. Qed.

(** What is printed of a part is printed of the whole. *)
Lemma reached_incl n st :
  forall l l', incl l l' -> incl (reached n st l) (reached n st l').
Proof.
  induction n as [|n IH]; intros l l' Hl; [exact Hl|].
  cbn [reached]. apply incl_app_app; [exact Hl|]. apply IH.
  intros x Hx. apply in_flat_map in Hx as (y & Hy & Hx).
  apply in_flat_map. exists y. split; [by apply Hl|done].
Qed.

Lemma repr_raises_incl st e e' :
  incl (shown e) (shown e') ->
  repr_raises st e' = false -> repr_raises st e = false.
Proof.
  unfold repr_raises. intros Hincl Hwhole.
  apply not_true_iff_false. intros Hpart. apply not_true_iff_false in Hwhole.
  apply Hwhole. apply existsb_exists in Hpart as (x & Hx & Hloop).
  apply existsb_exists. exists x. split; [|exact Hloop].
  by apply (reached_incl _ _ _ _ Hincl).
Qed.

Lemma reached_nil n st : reached n st [] = [].
Proof. induction n as [|n IH]; [reflexivity|]. cbn [reached flat_map app]. exact IH. Qed.

(** A value without references is printed without an error. *)
Lemma repr_raises_closed st e : shown e = [] -> repr_raises st e = false.
Proof. unfold repr_raises. intros ->. by rewrite reached_nil. Qed.

Lemma shown_key_incl item items :
  In item items -> incl (shown (key item)) (shown (Table items)).
Proof.
  intros Hin x Hx. cbn [shown]. apply in_flat_map. exists item.
  split; [exact Hin|]. destruct item as [k v p]. cbn [key] in Hx.
  apply in_or_app. by left.
Qed.

Lemma shown_value_incl item items :
  In item items -> incl (shown (value item)) (shown (Table items)).
Proof.
  intros Hin x Hx. cbn [shown]. apply in_flat_map. exists item.
  split; [exact Hin|]. destruct item as [k v p]. cbn [value] in Hx.
  apply in_or_app. right. apply in_or_app. by left.
Qed.

(** The line printed for an entry of a table that is itself printed
    without an error, when the key looked up is a string. *)
Lemma print_entry label kv items item st :
  In item items ->
  repr_raises st (Table items) = false ->
  print_ label [Str kv; key item; Table items] st = Return tt st.
Proof.
  intros Hin Hshow. unfold print_. cbn [existsb].
  rewrite (repr_raises_closed st (Str kv)) by reflexivity.
  rewrite (repr_raises_incl st (key item) (Table items)
             (shown_key_incl _ _ Hin) Hshow).
  by rewrite Hshow.
Qed.

(** *** The bounds of [print] are no restriction

    A walk that arrives somewhere arrives there without leaving a node
    twice, and so in no more steps than there are nodes with a
    successor. *)

Section WalkFacts.
Variable succ : nat -> list nat.

Lemma walks_head a x q b : walks succ a (x :: q) b -> x = a.
Proof. by inversion 1. Qed.

Lemma walks_app a q1 m q2 b :
  walks succ a q1 m -> walks succ m q2 b -> walks succ a (q1 ++ q2) b.
Proof.
  induction 1 as [a|a c q m Hc _ IH]; intros H2; [exact H2|].
  cbn [app]. eapply walks_cons; eauto.
Qed.

Lemma walks_app_inv q1 : forall a q2 b,
  walks succ a (q1 ++ q2) b -> exists m, walks succ a q1 m /\ walks succ m q2 b.
Proof.
  induction q1 as [|x q1 IH]; intros a q2 b H.
  - exists a. split; [constructor|exact H].
  - cbn [app] in H. inversion H as [|a' c q' b' Hc Hrest]; subst.
    destruct (IH _ _ _ Hrest) as (m & H1 & H2).
    exists m. split; [|exact H2]. eapply walks_cons; eauto.
Qed.

Lemma walks_source a q b x :
  walks succ a q b -> In x q -> exists c, In c (succ x).
Proof.
  induction 1 as [a|a c q b Hc _ IH]; intros Hin; [destruct Hin|].
  destruct Hin as [<-|Hin]; eauto.
Qed.

Lemma dup_split (l : list nat) :
  ~ NoDup l -> exists x l1 l2 l3, l = (l1 ++ x :: l2 ++ x :: l3)%list.
Proof.
  induction l as [|a l IH]; intros Hdup.
  - destruct Hdup. apply NoDup_nil_2.
  - destruct (in_dec Nat.eq_dec a l) as [Hin|Hnot].
    + apply in_split in Hin as (l2 & l3 & ->). by exists a, [], l2, l3.
    + destruct IH as (x & l1 & l2 & l3 & ->).
      { intros Hnd. apply Hdup. apply NoDup_cons_2; [by rewrite list_elem_of_In|exact Hnd]. }
      by exists x, (a :: l1), l2, l3.
Qed.

Lemma walks_shortcut a q1 x q2 q3 b :
  walks succ a (q1 ++ x :: q2 ++ x :: q3) b -> walks succ a (q1 ++ x :: q3) b.
Proof.
  intros H. apply walks_app_inv in H as (m & H1 & H2).
  pose proof (walks_head _ _ _ _ H2) as <-.
  change (x :: q2 ++ x :: q3)%list with ((x :: q2) ++ x :: q3)%list in H2.
  apply walks_app_inv in H2 as (m' & _ & H3).
  pose proof (walks_head _ _ _ _ H3) as <-.
  by eapply walks_app.
Qed.

Lemma walks_NoDup n : forall a q b,
  length q <= n -> walks succ a q b ->
  exists q', walks succ a q' b /\ NoDup q' /\ incl q' q.
Proof.
  induction n as [|n IH]; intros a q b Hlen H.
  - destruct q; [|cbn in Hlen; lia]. exists [].
    repeat split; [exact H|apply NoDup_nil_2|apply incl_refl].
  - destruct (decide (NoDup q)) as [Hnd|Hdup].
    + exists q. repeat split; [exact H|exact Hnd|apply incl_refl].
    + apply dup_split in Hdup as (x & q1 & q2 & q3 & ->).
      apply walks_shortcut in H.
      destruct (IH a (q1 ++ x :: q3)%list b) as (q' & H' & Hnd & Hincl); [|exact H|].
      { rewrite !length_app in *. cbn [length] in *. rewrite length_app in Hlen.
        cbn [length] in Hlen. lia. }
      exists q'. repeat split; [exact H'|exact Hnd|].
      intros y Hy. apply Hincl in Hy. rewrite !in_app_iff in *. cbn [In] in *.
      rewrite in_app_iff. cbn [In]. tauto.
Qed.

Lemma walks_short (dom : list nat) a q b :
  (forall x c, In c (succ x) -> In x dom) ->
  walks succ a q b -> exists q', walks succ a q' b /\ length q' <= length dom.
Proof.
  intros Hdom H.
  destruct (walks_NoDup (length q) a q b (le_n _) H) as (q' & H' & Hnd & Hincl).
  exists q'. split; [exact H'|]. apply submseteq_length, NoDup_submseteq; [exact Hnd|].
  intros x Hx. rewrite list_elem_of_In in Hx. rewrite list_elem_of_In.
  destruct (walks_source _ _ _ x H' Hx) as [c Hc]. eauto.
Qed.
End WalkFacts.

Lemma length_refs_of st : length (refs_of st) = size st.
Proof. unfold refs_of. by rewrite length_fmap, length_map_to_list. Qed.

Lemma cache_in_store st oid c :
  _cache (get st oid) = Some c -> In oid (refs_of st).
Proof.
  unfold get, refs_of. destruct (st !! oid) as [d|] eqn:E; [|discriminate].
  intros _. apply list_elem_of_In, list_elem_of_fmap.
  exists (oid, d). split; [done|]. by apply elem_of_map_to_list.
Qed.

Lemma cache_shown_in_store st oid c :
  In c (cache_shown st oid) -> In oid (refs_of st).
Proof.
  unfold cache_shown. destruct (_cache (get st oid)) eqn:E; [|intros []].
  intros _. by eapply cache_in_store.
Qed.

Lemma reached_walks n st : forall l b,
  In b (reached n st l) ->
  exists a q, In a l /\ walks (cache_shown st) a q b.
Proof.
  induction n as [|n IH]; intros l b; cbn [reached].
  - intros H. exists b, []. split; [exact H|constructor].
  - rewrite in_app_iff. intros [H|H].
    + exists b, []. split; [exact H|constructor].
    + apply IH in H as (c & q & Hc & Hw).
      apply in_flat_map in Hc as (a & Ha & Hc).
      exists a, (a :: q). split; [exact Ha|]. eapply walks_cons; eauto.
Qed.

Lemma walks_reached n st : forall l a q b,
  In a l -> walks (cache_shown st) a q b -> length q <= n ->
  In b (reached n st l).
Proof.
  induction n as [|n IH]; intros l a q b Ha Hw Hlen.
  - destruct q; [|cbn in Hlen; lia]. inversion Hw; subst. exact Ha.
  - cbn [reached]. apply in_or_app.
    destruct Hw as [a|a c q b Hc Hw]; [by left|right].
    apply (IH _ c q b); [|exact Hw|cbn in Hlen; lia].
    apply in_flat_map. eauto.
Qed.

Lemma leaves_refs_walks n st : forall oid,
  leaves_refs n st oid = true <->
  exists q b, walks (next_Refs st) oid q b /\ length q <= n /\ next_Ref st b = None.
Proof.
  induction n as [|n IH]; intros oid; cbn [leaves_refs].
  - destruct (next_Ref st oid) as [o|] eqn:E.
    + split; [discriminate|]. intros (q & b & Hw & Hlen & Hb).
      destruct q; [|cbn in Hlen; lia]. inversion Hw; subst. congruence.
    + split; [|done]. intros _. exists [], oid. repeat split; [constructor|done|done].
  - destruct (next_Ref st oid) as [o|] eqn:E.
    + rewrite IH. split.
      * intros (q & b & Hw & Hlen & Hb). exists (oid :: q), b.
        repeat split; [|cbn; lia|exact Hb].
        eapply walks_cons; [|exact Hw]. unfold next_Refs. rewrite E. by left.
      * intros (q & b & Hw & Hlen & Hb).
        inversion Hw as [|a c q' b' Hc Hw']; subst; [congruence|].
        unfold next_Refs in Hc. rewrite E in Hc. destruct Hc as [<-|[]].
        exists q', b. repeat split; [exact Hw'|cbn in Hlen; lia|exact Hb].
    + split; [|done]. intros _. exists [], oid. repeat split; [constructor|cbn; lia|done].
Qed.

Lemma next_Refs_in_store st oid c : In c (next_Refs st oid) -> In oid (refs_of st).
Proof.
  unfold next_Refs, next_Ref. destruct (_cache (get st oid)) eqn:E; [|intros []].
  intros _. by eapply cache_in_store.
Qed.

(** A chain of caches that leaves the references at all leaves them
    within as many steps as the store has references. *)
Lemma leaves_refs_bound st oid n :
  leaves_refs n st oid = true -> leaves_refs (size st) st oid = true.
Proof.
  rewrite !leaves_refs_walks. intros (q & b & Hw & _ & Hb).
  destruct (walks_short _ (refs_of st) _ _ _ (next_Refs_in_store st) Hw)
    as (q' & Hw' & Hlen).
  exists q', b. by rewrite <- length_refs_of.
Qed.

(** A chain of caches is found to loop exactly when it never leaves the
    references, however far it is followed. *)
Lemma repr_loops_spec st oid :
  repr_loops st oid = true <-> forall n, leaves_refs n st oid = false.
Proof.
  unfold repr_loops. rewrite negb_true_iff. split.
  - intros H n. apply not_true_iff_false. intros Hn.
    apply leaves_refs_bound in Hn. congruence.
  - intros H. apply H.
Qed.

Lemma walks_snoc succ a q m b :
  walks succ a q m -> In b (succ m) -> walks succ a (q ++ [m]) b.
Proof.
  intros H Hb. eapply walks_app; [exact H|]. eapply walks_cons; [exact Hb|constructor].
Qed.

Lemma printed_walks st l b :
  printed st l b <-> exists a q, In a l /\ walks (cache_shown st) a q b.
Proof.
  split.
  - induction 1 as [oid Hin|m oid _ (a & q & Ha & Hw) Hc].
    + exists oid, []. split; [exact Hin|constructor].
    + exists a, (q ++ [m])%list. split; [exact Ha|]. by eapply walks_snoc.
  - intros (a & q & Ha & Hw). apply (printed_first st l) in Ha.
    induction Hw as [a|a c q b Hc _ IH]; [exact Ha|].
    apply IH. eapply printed_cache; eauto.
Qed.

(** The references gone through are exactly those that are printed. *)
Lemma reached_spec st l b :
  In b (reached (size st) st l) <-> printed st l b.
Proof.
  rewrite printed_walks. split; [apply reached_walks|].
  intros (a & q & Ha & Hw).
  destruct (walks_short _ (refs_of st) _ _ _ (cache_shown_in_store st) Hw)
    as (q' & Hw' & Hlen).
  eapply walks_reached; eauto. by rewrite <- length_refs_of.
Qed.

(** Printing [e] raises [RecursionError] exactly when a reference that
    is printed with it has a chain of caches that never leaves the
    references. *)
Lemma repr_raises_spec st e :
  repr_raises st e = true <->
  exists oid, printed st (shown e) oid /\ forall n, leaves_refs n st oid = false.
Proof.
  unfold repr_raises. rewrite existsb_exists. split.
  - intros (oid & Hin & Hloop). exists oid.
    by rewrite <- reached_spec, <- repr_loops_spec.
  - intros (oid & Hp & Hloop). exists oid.
    by rewrite reached_spec, repr_loops_spec.
Qed.

(** Printing leaves the store as it is. *)
Lemma preserves_print (R : Store -> Store -> Prop) label args :
  (forall st, R st st) -> preserves R (print_ label args).
Proof.
  intros HR st. destruct (print_cases label args st) as [-> | ->]; apply HR.
Qed.

(** *** The scan of a table's entries *)

Section ScanFacts.
Variable evaluate_key : Expr -> Eval Expr.

Lemma scan_cons key0 current item rest item_key st :
  scan evaluate_key key0 current (item :: rest) item_key st =
  match evaluate_key (key item) st with
  | Return ik st' =>
      if key_matches key0 ik
      then match print_ "MATCH" [key0; key item; current] st' with
           | Return _ st'' => Return (Some (value item), Some ik) st''
           | Raise e st'' => Raise e st''
           | OutOfFuel => OutOfFuel
           end
      else match print_ "OK" [key0; key item; current] st' with
           | Return _ st'' => scan evaluate_key key0 current rest (Some ik) st''
           | Raise e st'' => Raise e st''
           | OutOfFuel => OutOfFuel
           end
  | Raise e st' =>
      if is_RuntimeError_or_TypeError e
      then match print_ "FAILURE" [key0; key item; current] st' with
           | Return _ st'' => scan evaluate_key key0 current rest item_key st''
           | Raise e' st'' => Raise e' st''
           | OutOfFuel => OutOfFuel
           end
      else Raise e st'
  | OutOfFuel => OutOfFuel
  end.
Proof.
  cbn [scan]. unfold bind, try_except, ret.
  destruct (evaluate_key (key item) st) as [ik st'|e st'|]; [| |reflexivity].
  - destruct (key_matches key0 ik); reflexivity.
  - destruct (is_RuntimeError_or_TypeError e); [|reflexivity].
    by destruct (print_ "FAILURE" _ st') as [[] st''|e' st''|].
Qed.

(** A prefix scanned without a match hands its store and [item_key]
    over to the rest of the table. *)
Lemma scan_app key0 current pre rest item_key st item_key1 st1 :
  scan evaluate_key key0 current pre item_key st = Return (None, item_key1) st1 ->
  scan evaluate_key key0 current (pre ++ rest) item_key st =
  scan evaluate_key key0 current rest item_key1 st1.
Proof.
  revert item_key st.
  induction pre as [|item pre IH]; intros item_key st H.
  - cbn in H. injection H as -> ->. reflexivity.
  - rewrite <- app_comm_cons, scan_cons. rewrite scan_cons in H.
    destruct (evaluate_key (key item) st) as [ik st'|e st'|]; try discriminate.
    + destruct (key_matches key0 ik).
      * by destruct (print_ "MATCH" _ st') as [[] st''|e' st''|].
      * destruct (print_ "OK" _ st') as [[] st''|e' st''|]; try discriminate.
        by apply IH.
    + destruct (is_RuntimeError_or_TypeError e); [|discriminate].
      destruct (print_ "FAILURE" _ st') as [[] st''|e' st''|]; try discriminate.
      by apply IH.
Qed.

Lemma scan_keys_fail key0 current items item_key st st1 :
  keys_fail evaluate_key key0 current items st st1 ->
  scan evaluate_key key0 current items item_key st = Return (None, item_key) st1.
Proof.
  induction 1 as [st|item rest e st st1 st2 He Hc Hp _ IH]; [reflexivity|].
  rewrite scan_cons, He, Hc, Hp. exact IH.
Qed.

Lemma scan_hit key0 current item rest item_key ik st st1 :
  evaluate_key (key item) st = Return ik st1 ->
  key_matches key0 ik = true ->
  print_ "MATCH" [key0; key item; current] st1 = Return tt st1 ->
  scan evaluate_key key0 current (item :: rest) item_key st =
  Return (Some (value item), Some ik) st1.
Proof. intros He Hm Hp. by rewrite scan_cons, He, Hm, Hp. Qed.

Lemma scan_no_match key0 current items item_key st item_key1 st1 :
  no_match evaluate_key key0 current items st item_key st1 item_key1 ->
  scan evaluate_key key0 current items item_key st = Return (None, item_key1) st1.
Proof.
  induction 1 as [st item_key
                 |item rest e st st1 item_key st2 item_key2 He Hc Hp _ IH
                 |item rest ik st st1 item_key st2 item_key2 He Hm Hp _ IH];
    [reflexivity| |].
  - rewrite scan_cons, He, Hc, Hp. exact IH.
  - rewrite scan_cons, He, Hm, Hp. exact IH.
Qed.

Lemma keys_fail_no_match key0 current items item_key st st1 :
  keys_fail evaluate_key key0 current items st st1 ->
  no_match evaluate_key key0 current items st item_key st1 item_key.
Proof.
  induction 1 as [st|item rest e st st1 st2 He Hc Hp _ IH]; [constructor|].
  eapply no_match_fail; eauto.
Qed.

(** The first entry whose key matches is the one found, whatever follows
    it in the table. *)
Lemma scan_first_match key0 current pre item post item_key st st1 item_key1 ik st2 :
  no_match evaluate_key key0 current pre st item_key st1 item_key1 ->
  evaluate_key (key item) st1 = Return ik st2 ->
  key_matches key0 ik = true ->
  print_ "MATCH" [key0; key item; current] st2 = Return tt st2 ->
  scan evaluate_key key0 current (pre ++ item :: post) item_key st =
  Return (Some (value item), Some ik) st2.
Proof.
  intros Hpre He Hm Hp.
  rewrite (scan_app _ _ _ _ _ _ _ _ (scan_no_match _ _ _ _ _ _ _ Hpre)).
  by apply scan_hit.
Qed.

Lemma walk_cons key0 rest current item_key st :
  walk evaluate_key (key0 :: rest) current item_key st =
  match segment evaluate_key key0 current item_key st with
  | Return r st' => walk evaluate_key rest (fst r) (snd r) st'
  | Raise e st' => Raise e st'
  | OutOfFuel => OutOfFuel
  end.
Proof. reflexivity. Qed.

Lemma segment_Table key0 items item_key st :
  segment evaluate_key key0 (Some (Table items)) item_key st =
  match evaluate_key key0 st with
  | Return key1 st1 =>
      match scan evaluate_key key1 (Table items) items item_key st1 with
      | Return (Some v, ik) st2 => Return (Some v, ik) st2
      | Return (None, Some ik) st2 => Raise (KeyError "Key not found." key1 ik) st2
      | Return (None, None) st2 => Raise (UnboundLocalError "item_key") st2
      | Raise e st2 => Raise e st2
      | OutOfFuel => OutOfFuel
      end
  | Raise e st1 => Raise e st1
  | OutOfFuel => OutOfFuel
  end.
Proof.
  unfold segment, bind.
  destruct (evaluate_key key0 st) as [key1 st1|e st1|]; try reflexivity.
  destruct (scan evaluate_key key1 (Table items) items item_key st1)
    as [[[v|] [ik|]] st2|e st2|]; reflexivity.
Qed.

Lemma walk_app keys1 keys2 current item_key st :
  walk evaluate_key (keys1 ++ keys2) current item_key st =
  match walk evaluate_key keys1 current item_key st with
  | Return r st' => walk evaluate_key keys2 (fst r) (snd r) st'
  | Raise e st' => Raise e st'
  | OutOfFuel => OutOfFuel
  end.
Proof.
  revert current item_key st.
  induction keys1 as [|key0 rest IH]; intros current item_key st; [reflexivity|].
  rewrite <- app_comm_cons, !walk_cons.
  destruct (segment evaluate_key key0 current item_key st) as [r st'|e st'|];
    [apply IH|reflexivity|reflexivity].
Qed.
End ScanFacts.

(** *** Structural induction on expressions *)

Section ExprInd.
Variable P : Expr -> Prop.
Hypothesis HStr : forall s, P (Str s).
Hypothesis HBool : forall b, P (Bool b).
Hypothesis HInt : forall z, P (Int z).
Hypothesis HFloat : forall f, P (Float f).
Hypothesis HRef : forall oid keys modifier,
  Forall P keys -> P (Ref oid keys modifier).
Hypothesis HUnary : forall op right0, P right0 -> P (Unary op right0).
Hypothesis HBinary : forall left0 op right0,
  P left0 -> P right0 -> P (Binary left0 op right0).
Hypothesis HArray : forall items, Forall P items -> P (Array items).
Hypothesis HTable : forall items,
  Forall (fun item => P (key item) /\ P (value item) /\
                      forall p, parent item = Some p -> P p) items ->
  P (Table items).

Lemma Expr_ind' : forall e, P e.
Proof.
  fix IH 1. intros [s|b|z|f|oid keys modifier|op r|l op r|items|items].
  - apply HStr.
  - apply HBool.
  - apply HInt.
  - apply HFloat.
  - apply HRef. induction keys as [|k keys IHkeys]; constructor; auto.
  - apply HUnary, IH.
  - apply HBinary; apply IH.
  - apply HArray. induction items as [|x items IHitems]; constructor; auto.
  - apply HTable.
    induction items as [|[k v p] items IHitems]; constructor; [|exact IHitems].
    cbn. repeat split; try apply IH.
    destruct p as [p'|]; intros q Hq; [|discriminate].
    injection Hq as <-. apply IH.
Qed.
End ExprInd.

(** *** What evaluation never undoes *)

Lemma ext_refl st : ext st st.
Proof. intros oid. split; auto. Qed.

Lemma ext_trans st1 st2 st3 : ext st1 st2 -> ext st2 st3 -> ext st1 st3.
Proof.
  intros H12 H23 oid. destruct (H12 oid) as [Ha Hb], (H23 oid) as [Hc Hd].
  split; [auto|congruence].
Qed.

Lemma ext_set_evaluated st oid : ext st (set_evaluated oid true st).
Proof.
  intros oid'. rewrite evaluated_set_evaluated, parent_set_evaluated.
  split; [|reflexivity]. case_decide; auto.
Qed.

Lemma ext_set_cache st oid c : ext st (set_cache oid c st).
Proof.
  intros oid'. rewrite evaluated_set_cache, parent_set_cache. auto.
Qed.

Lemma keeps_ret {A} (a : A) : keeps (ret a).
Proof. intros st. apply ext_refl. Qed.

Lemma keeps_raise {A} e : keeps (raise (A := A) e).
Proof. intros st. apply ext_refl. Qed.

Lemma keeps_out_of_fuel {A} : keeps (out_of_fuel (A := A)).
Proof. intros st. exact I. Qed.

Lemma keeps_bind {A B} (m : Eval A) (k : A -> Eval B) :
  keeps m -> (forall a, keeps (k a)) -> keeps (do a <- m; k a).
Proof.
  intros Hm Hk st. unfold bind. specialize (Hm st).
  destruct (m st) as [a st'|e st'|]; auto.
  specialize (Hk a st'). destruct (k a st'); eauto using ext_trans.
Qed.

Lemma keeps_try_except {A} caught (m h : Eval A) :
  keeps m -> keeps h -> keeps (try_except caught m h).
Proof.
  intros Hm Hh st. unfold try_except. specialize (Hm st).
  destruct (m st) as [a st'|e st'|]; auto.
  destruct (caught e); auto.
  specialize (Hh st'). destruct (h st'); eauto using ext_trans.
Qed.

Lemma keeps_print label args : keeps (print_ label args).
Proof.
  intros st. destruct (print_cases label args st) as [-> | ->]; apply ext_refl.
Qed.

Section KeepsLoops.
Variable evaluate_key : Expr -> Eval Expr.
Hypothesis keeps_key : forall k, keeps (evaluate_key k).

Lemma keeps_scan key0 current items item_key :
  keeps (scan evaluate_key key0 current items item_key).
Proof.
  revert item_key. induction items as [|item rest IH]; intros item_key.
  - apply keeps_ret.
  - cbn [scan]. apply keeps_bind.
    + apply keeps_try_except.
      * apply keeps_bind; [apply keeps_key|intros; apply keeps_ret].
      * apply keeps_bind; [apply keeps_print|intros; apply keeps_ret].
    + intros [ik|]; [|apply IH].
      destruct (key_matches key0 ik);
        (apply keeps_bind; [apply keeps_print|intros _]);
        [apply keeps_ret|apply IH].
Qed.

Lemma keeps_segment key0 current item_key :
  keeps (segment evaluate_key key0 current item_key).
Proof.
  unfold segment. apply keeps_bind; [apply keeps_key|]. intros key1.
  destruct current as [[]|]; try apply keeps_ret; try apply keeps_raise.
  apply keeps_bind; [apply keeps_scan|].
  intros [[v|] [ik|]]; try apply keeps_ret; apply keeps_raise.
Qed.

Lemma keeps_walk keys current item_key :
  keeps (walk evaluate_key keys current item_key).
Proof.
  revert current item_key.
  induction keys as [|key0 rest IH]; intros current item_key.
  - apply keeps_ret.
  - cbn [walk]. apply keeps_bind; [apply keeps_segment|]. intros r. apply IH.
Qed.
End KeepsLoops.

Lemma keeps_each_item evaluate0 items :
  (forall e, keeps (evaluate0 e)) -> keeps (each_item evaluate0 items).
Proof.
  intros He. induction items as [|item rest IH]; [apply keeps_ret|].
  cbn [each_item]. apply keeps_bind; [apply He|]. intros _.
  apply keeps_bind; [apply He|]. intros _. exact IH.
Qed.

Section Invariants.
Variable _expr : Expr.

Lemma keeps_methods n :
  (forall e, keeps (_evaluate _expr n e)) /\
  (forall oid keys modifier, keeps (_evaluate_ref _expr n oid keys modifier)) /\
  (forall k, keeps (_evaluate_key _expr n k)) /\
  (forall items, keeps (_evaluate_table _expr n items)).
Proof.
  induction n as [|n (IHe & IHr & IHk & IHt)].
  { repeat split; intros; apply keeps_out_of_fuel. }
  repeat split.
  - intros [ | | | |oid keys modifier| | | |items]; cbn [_evaluate];
      auto using keeps_ret, keeps_raise.
  - intros oid keys modifier st.
    destruct (_evaluated (get st oid)) eqn:Hflag.
    + rewrite _evaluate_ref_done by done. apply ext_refl.
    + rewrite _evaluate_ref_todo by done. unfold bind.
      pose proof (ext_set_evaluated st oid) as H1.
      pose proof (keeps_walk _ IHk keys
        match modifier with
        | RefModifier.ABSOLUTE => Some _expr
        | RefModifier.RELATIVE => _parent (get st oid)
        end None (set_evaluated oid true st)) as H2.
      destruct (walk _ _ _ _ _) as [c st2|e st2|]; auto.
      * eapply ext_trans; [exact H1|].
        eapply ext_trans; [exact H2|apply ext_set_cache].
      * eapply ext_trans; eauto.
  - intros [ | | | |oid keys modifier| | | |items]; cbn [_evaluate_key];
      auto using keeps_ret, keeps_raise.
    apply keeps_bind; [apply IHe|]. intros _ st.
    destruct (_cache (get st oid)); [apply IHk|apply ext_refl].
  - intros items. cbn [_evaluate_table]. by apply keeps_each_item.
Qed.

Lemma _evaluate_ext n e st a st' :
  _evaluate _expr n e st = Return a st' -> ext st st'.
Proof.
  intros H. pose proof (proj1 (keeps_methods n) e st) as Hk.
  by rewrite H in Hk.
Qed.

(** A reference that has been forced is flagged. *)
Lemma _evaluate_ref_flags n oid keys modifier st a st' :
  _evaluate_ref _expr n oid keys modifier st = Return a st' ->
  _evaluated (get st' oid) = true.
Proof.
  destruct n as [|n]; [discriminate|].
  destruct (_evaluated (get st oid)) eqn:Hflag.
  - rewrite _evaluate_ref_done by done. by intros [= _ <-].
  - rewrite _evaluate_ref_todo by done. unfold bind.
    pose proof (keeps_walk _ (proj1 (proj2 (proj2 (keeps_methods n)))) keys
      match modifier with
      | RefModifier.ABSOLUTE => Some _expr
      | RefModifier.RELATIVE => _parent (get st oid)
      end None (set_evaluated oid true st)) as H2.
    destruct (walk _ _ _ _ _) as [c st2|e st2|]; try discriminate.
    intros [= _ <-]. rewrite evaluated_set_cache.
    apply H2. rewrite evaluated_set_evaluated. by case_decide.
Qed.

(** Forcing again, in any store that has at least the flags the first
    run left, returns at once and changes nothing. *)
Lemma rerun n :
  (forall e st st',
      _evaluate _expr n e st = Return tt st' ->
      forall s, (forall oid, _evaluated (get st' oid) = true ->
                             _evaluated (get s oid) = true) ->
                _evaluate _expr n e s = Return tt s) /\
  (forall items st st',
      _evaluate_table _expr n items st = Return tt st' ->
      forall s, (forall oid, _evaluated (get st' oid) = true ->
                             _evaluated (get s oid) = true) ->
                _evaluate_table _expr n items s = Return tt s).
Proof.
  induction n as [|n [IHe IHt]]; [split; discriminate|].
  split.
  - intros [ | | | |oid keys modifier| | | |items] st st';
      cbn [_evaluate]; try discriminate; try reflexivity.
    + intros H s Hs. apply _evaluate_ref_flags in H as Hflag.
      destruct n as [|n]; [discriminate|].
      apply _evaluate_ref_done. auto.
    + apply IHt.
  - intros items. cbn [_evaluate_table].
    induction items as [|item rest IH]; intros st st' H s Hs; [reflexivity|].
    cbn [each_item] in H |- *. unfold bind in H |- *.
    destruct (_evaluate _expr n (key item) st) as [[] st1|?|] eqn:H1;
      try discriminate.
    destruct (_evaluate _expr n (value item) st1) as [[] st2|?|] eqn:H2;
      try discriminate.
    assert (Hrest : ext st2 st').
    { pose proof (keeps_each_item (_evaluate _expr n) rest
                    (proj1 (keeps_methods n)) st2) as Hk.
      by rewrite H in Hk. }
    apply _evaluate_ext in H2 as Hv.
    rewrite (IHe _ _ _ H1 s).
    2:{ intros oid Ho. apply Hs, Hrest, Hv, Ho. }
    rewrite (IHe _ _ _ H2 s).
    2:{ intros oid Ho. apply Hs, Hrest, Ho. }
    eapply IH; eauto.
Qed.
End Invariants.

(** *** The resolver pass *)

Lemma resolver_id : resolver (fun st => st).
Proof. intros oid. split; auto. Qed.

Lemma resolver_set_parent oid p : resolver (set_parent oid p).
Proof.
  intros oid'. split.
  - intros st. by rewrite cache_set_parent, evaluated_set_parent.
  - destruct (decide (oid = oid')) as [->|Hne].
    + left. exists p. intros st. rewrite parent_set_parent. by case_decide.
    + right. intros st. rewrite parent_set_parent. by case_decide.
Qed.

Lemma resolver_comp f g :
  resolver f -> resolver g -> resolver (fun st => g (f st)).
Proof.
  intros Hf Hg oid. destruct (Hf oid) as [Hf1 Hf2], (Hg oid) as [Hg1 Hg2].
  split.
  - intros st. destruct (Hf1 st), (Hg1 (f st)). split; congruence.
  - destruct Hg2 as [[v Hv]|Hg2].
    + left. exists v. intros st. apply Hv.
    + destruct Hf2 as [[v Hv]|Hf2].
      * left. exists v. intros st. by rewrite Hg2.
      * right. intros st. by rewrite Hg2.
Qed.

Lemma _resolve_resolver e : forall parent0, resolver (_resolve parent0 e).
Proof.
  induction e as [s|b|z|f|oid keys modifier _|op r IHr|l op r IHl IHr
                 |items IH|items IH] using Expr_ind'; intros parent0.
  - exact resolver_id.
  - exact resolver_id.
  - exact resolver_id.
  - exact resolver_id.
  - exact (resolver_set_parent oid parent0).
  - exact (IHr parent0).
  - exact (resolver_comp _ _ (IHl parent0) (IHr parent0)).
  - cbn [_resolve]. induction IH as [|x rest Hx _ IHrest].
    + exact resolver_id.
    + exact (resolver_comp _ _ (Hx parent0) IHrest).
  - cbn [_resolve]. generalize (Some (Table items)). intros scope.
    induction IH as [|[k v p] rest (Hk & Hv & Hp) _ IHrest].
    + exact resolver_id.
    + refine (resolver_comp _ _ _ IHrest). cbn in Hk, Hv, Hp.
      destruct p as [p'|].
      * exact (resolver_comp _ _ (resolver_comp _ _ (Hk scope) (Hv scope))
                 (Hp p' eq_refl scope)).
      * exact (resolver_comp _ _ (Hk scope) (Hv scope)).
Qed.

Lemma RefData_eq (d d' : RefData) :
  _parent d = _parent d' -> _cache d = _cache d' ->
  _evaluated d = _evaluated d' -> d = d'.
Proof. destruct d, d'. cbn. by intros -> -> ->. Qed.

(** Resolving again a store whose scopes already are the resolved ones
    changes no field of any reference. *)
Lemma resolver_fixes f st0 st1 :
  resolver f ->
  (forall oid, _parent (get st1 oid) = _parent (get (f st0) oid)) ->
  forall oid, get (f st1) oid = get st1 oid.
Proof.
  intros Hf Hp oid. destruct (Hf oid) as [Hce Hpar].
  destruct (Hce st1) as [Hc He].
  apply RefData_eq; auto.
  destruct Hpar as [[v Hv]|Hsame]; [|apply Hsame].
  by rewrite Hp, !Hv.
Qed.

Lemma evaluate_twice _expr fuel st st1 :
  evaluate _expr fuel st = Return _expr st1 ->
  exists st2, evaluate _expr fuel st1 = Return _expr st2 /\
              forall oid, get st2 oid = get st1 oid.
Proof.
  unfold evaluate, bind, ret.
  set (parent0 := match _expr with Table _ => Some _expr | _ => None end).
  destruct (_evaluate _expr fuel _expr (_resolve parent0 _expr st))
    as [[] st'|?|] eqn:H1; try discriminate.
  intros [= <-].
  assert (Hfix : forall oid,
             get (_resolve parent0 _expr st') oid = get st' oid).
  { apply (resolver_fixes _ st); [apply _resolve_resolver|].
    intros oid. apply (_evaluate_ext _ _ _ _ _ _ H1). }
  exists (_resolve parent0 _expr st'). split; [|exact Hfix].
  rewrite (proj1 (rerun _expr fuel) _ _ _ H1); [reflexivity|].
  intros oid Ho. by rewrite Hfix.
Qed.

(** *** More fuel changes nothing of a finished run *)

Section RefinesLoops.
Variables evaluate_key evaluate_key' : Expr -> Eval Expr.
Hypothesis refines_key : forall k, refines (evaluate_key k) (evaluate_key' k).

Lemma refines_scan key0 current items item_key :
  refines (scan evaluate_key key0 current items item_key)
          (scan evaluate_key' key0 current items item_key).
Proof.
  revert item_key. induction items as [|item rest IH]; intros item_key.
  - apply refines_refl.
  - cbn [scan]. apply refines_bind.
    + apply refines_try_except, refines_bind; [apply refines_key|].
      intros. apply refines_refl.
    + intros [ik|]; [|apply IH].
      destruct (key_matches key0 ik); [apply refines_refl|].
      apply refines_bind; [apply refines_refl|]. intros _. apply IH.
Qed.

Lemma refines_segment key0 current item_key :
  refines (segment evaluate_key key0 current item_key)
          (segment evaluate_key' key0 current item_key).
Proof.
  unfold segment. apply refines_bind; [apply refines_key|]. intros key1.
  destruct current as [[]|]; try apply refines_refl.
  apply refines_bind; [apply refines_scan|]. intros r. apply refines_refl.
Qed.

Lemma refines_walk keys current item_key :
  refines (walk evaluate_key keys current item_key)
          (walk evaluate_key' keys current item_key).
Proof.
  revert current item_key.
  induction keys as [|key0 rest IH]; intros current item_key.
  - apply refines_refl.
  - cbn [walk]. apply refines_bind; [apply refines_segment|]. intros r. apply IH.
Qed.
End RefinesLoops.

Lemma refines_each_item evaluate0 evaluate0' items :
  (forall e, refines (evaluate0 e) (evaluate0' e)) ->
  refines (each_item evaluate0 items) (each_item evaluate0' items).
Proof.
  intros He. induction items as [|item rest IH]; [apply refines_refl|].
  cbn [each_item]. apply refines_bind; [apply He|]. intros _.
  apply refines_bind; [apply He|]. intros _. exact IH.
Qed.

Section FuelFacts.
Variable _expr : Expr.

Lemma one_more_fuel n :
  (forall e, refines (_evaluate _expr n e) (_evaluate _expr (S n) e)) /\
  (forall oid keys modifier,
      refines (_evaluate_ref _expr n oid keys modifier)
              (_evaluate_ref _expr (S n) oid keys modifier)) /\
  (forall k, refines (_evaluate_key _expr n k) (_evaluate_key _expr (S n) k)) /\
  (forall items,
      refines (_evaluate_table _expr n items) (_evaluate_table _expr (S n) items)).
Proof.
  induction n as [|n (IHe & IHr & IHk & IHt)].
  { repeat split; intros; intros st []. }
  repeat split.
  - intros [ | | | |oid keys modifier| | | |items]; try apply refines_refl.
    + rewrite !_evaluate_Ref. apply IHr.
    + rewrite !_evaluate_Table. apply IHt.
  - intros oid keys modifier st.
    destruct (_evaluated (get st oid)) eqn:Hflag.
    + by rewrite !_evaluate_ref_done.
    + rewrite !_evaluate_ref_todo by done.
      apply refines_bind; [by apply refines_walk|]. intros r. apply refines_refl.
  - intros [ | | | |oid keys modifier| | | |items]; try apply refines_refl.
    intros st. rewrite !_evaluate_key_Ref.
    pose proof (IHe (Ref oid keys modifier) st) as He.
    destruct (_evaluate _expr n (Ref oid keys modifier) st) as [[] st'|e st'|];
      [| |done].
    + rewrite He by done. destruct (_cache (get st' oid)); [apply IHk|done].
    + by rewrite He.
  - intros items. cbn [_evaluate_table]. by apply refines_each_item.
Qed.

(** A run that finishes does the same with any larger fuel. *)
Lemma more_fuel n m e :
  n <= m -> refines (_evaluate _expr n e) (_evaluate _expr m e).
Proof.
  induction 1 as [|m _ IH]; [apply refines_refl|].
  eapply refines_trans; [exact IH|]. apply one_more_fuel.
Qed.
End FuelFacts.

Lemma evaluate_more_fuel _expr n m st :
  n <= m -> finished (evaluate _expr n st) ->
  evaluate _expr m st = evaluate _expr n st.
Proof.
  intros Hle. unfold evaluate.
  apply (refines_bind _ _ _ _ (more_fuel _expr n m _expr Hle)
           (fun _ => refines_refl _)).
Qed.

(** *** The key loop on a chain of caches *)

(** The loop follows a chain that ends to its end, whatever its length,
    once it has the fuel for the forcings and one turn more for each
    reference. *)
Lemma _evaluate_key_chain _expr n key0 len r st st' :
  chain (_evaluate _expr n) key0 st len r st' ->
  forall fuel, n + len < fuel ->
  _evaluate_key _expr fuel key0 st =
  match r with
  | Some v =>
      if is_Str_or_Int v then Return v st'
      else Raise (TypeError "Expected string or integer for key.") st'
  | None => Raise (RuntimeError "Failed to evaluate reference.") st'
  end.
Proof.
  induction 1 as [v st Hv|oid keys modifier st st1 Hforce Hcache
                 |oid keys modifier st st1 c len r st2 Hforce Hcache _ IH];
    intros fuel Hfuel; (destruct fuel as [|m]; [lia|]).
  - by destruct v.
  - rewrite _evaluate_key_Ref.
    rewrite (more_fuel _expr n m _ ltac:(lia) st) by (by rewrite Hforce).
    by rewrite Hforce, Hcache.
  - rewrite _evaluate_key_Ref.
    rewrite (more_fuel _expr n m _ ltac:(lia) st) by (by rewrite Hforce).
    rewrite Hforce, Hcache. apply IH. lia.
Qed.

(** *** Forcing a reference, segment by segment *)

Lemma _evaluate_ref_last_segment _expr n oid keys key0 modifier st
      pre item post item_key st1 key1 st2 item_key1 st3 ik st4 :
  _evaluated (get st oid) = false ->
  walk (_evaluate_key _expr n) keys
    match modifier with
    | RefModifier.ABSOLUTE => Some _expr
    | RefModifier.RELATIVE => _parent (get st oid)
    end None (set_evaluated oid true st) =
  Return (Some (Table (pre ++ item :: post)), item_key) st1 ->
  _evaluate_key _expr n key0 st1 = Return key1 st2 ->
  no_match (_evaluate_key _expr n) key1 (Table (pre ++ item :: post)) pre
    st2 item_key st3 item_key1 ->
  _evaluate_key _expr n (key item) st3 = Return ik st4 ->
  key_matches key1 ik = true ->
  print_ "MATCH" [key1; key item; Table (pre ++ item :: post)] st4 =
  Return tt st4 ->
  _evaluate_ref _expr (S n) oid (keys ++ [key0]) modifier st =
  Return tt (set_cache oid (Some (value item)) st4).
Proof.
  intros Hflag Hwalk Hkey Hpre Hitem Hm Hp.
  rewrite _evaluate_ref_todo by done. unfold bind.
  rewrite walk_app, Hwalk. cbn [fst snd].
  rewrite walk_cons, segment_Table, Hkey.
  rewrite (scan_first_match _ _ _ _ _ _ _ _ _ _ _ _ Hpre Hitem Hm Hp).
  reflexivity.
Qed.

(** A reference whose cache is the reference itself: following the cache
    never ends. *)
Lemma _evaluate_key_self_cached _expr n oid keys modifier :
  forall st,
    _evaluated (get st oid) = true ->
    _cache (get st oid) = Some (Ref oid keys modifier) ->
    _evaluate_key _expr n (Ref oid keys modifier) st = OutOfFuel.
Proof.
  induction n as [|m IH]; intros st Hf Hc; [reflexivity|].
  rewrite _evaluate_key_Ref.
  destruct m as [|j]; [reflexivity|].
  rewrite _evaluate_Ref. destruct j as [|i]; [reflexivity|].
  rewrite _evaluate_ref_done by done. rewrite Hc. by apply IH.
Qed.


Lemma walk_None _expr n keys item_key st :
  forallb is_Str_or_Int keys = true ->
  walk (_evaluate_key _expr (S n)) keys None item_key st = Return (None, item_key) st.
Proof.
  induction keys as [|key0 rest IH]; intros Hk; [reflexivity|].
  cbn [forallb] in Hk. apply andb_prop in Hk as [Hk0 Hrest].
  rewrite walk_cons. unfold segment, bind.
  destruct key0; try discriminate; cbn [_evaluate_key ret fst snd]; by apply IH.
Qed.

Lemma _evaluate_ref_not_found _expr n oid keys key0 rest modifier st
      items item_key st1 key1 st2 st3 item_key1 :
  _evaluated (get st oid) = false ->
  walk (_evaluate_key _expr n) keys
    match modifier with
    | RefModifier.ABSOLUTE => Some _expr
    | RefModifier.RELATIVE => _parent (get st oid)
    end None (set_evaluated oid true st) =
  Return (Some (Table items), item_key) st1 ->
  _evaluate_key _expr n key0 st1 = Return key1 st2 ->
  no_match (_evaluate_key _expr n) key1 (Table items) items
    st2 item_key st3 item_key1 ->
  _evaluate_ref _expr (S n) oid (keys ++ key0 :: rest) modifier st =
  match item_key1 with
  | Some last => Raise (KeyError "Key not found." key1 last) st3
  | None => Raise (UnboundLocalError "item_key") st3
  end.
Proof.
  intros Hflag Hwalk Hkey Hscan.
  rewrite _evaluate_ref_todo by done. unfold bind.
  rewrite walk_app, Hwalk. cbn [fst snd].
  rewrite walk_cons, segment_Table, Hkey.
  rewrite (scan_no_match _ _ _ _ _ _ _ _ Hscan).
  by destruct item_key1.
Qed.

(** Unwrapping a reference that is already flagged. *)
Lemma _evaluate_key_no_value _expr n oid keys modifier st :
  _evaluated (get st oid) = true ->
  _cache (get st oid) = None ->
  _evaluate_key _expr (S (S (S n))) (Ref oid keys modifier) st =
  Raise (RuntimeError "Failed to evaluate reference.") st.
Proof.
  intros Hflag Hcache.
  rewrite _evaluate_key_Ref, _evaluate_Ref, _evaluate_ref_done by done.
  by rewrite Hcache.
Qed.

Lemma _evaluate_key_follow _expr n oid keys modifier st c :
  _evaluated (get st oid) = true ->
  _cache (get st oid) = Some c ->
  _evaluate_key _expr (S (S (S n))) (Ref oid keys modifier) st =
  _evaluate_key _expr (S (S n)) c st.
Proof.
  intros Hflag Hcache.
  rewrite _evaluate_key_Ref, _evaluate_Ref, _evaluate_ref_done by done.
  by rewrite Hcache.
Qed.

(** A relative reference without recorded scope, with keys that are
    strings or integers: forcing it raises nothing and leaves [None] as
    its cache; unwrapping it then raises [RuntimeError]. *)
Lemma _evaluate_ref_no_scope _expr n oid keys st :
  _evaluated (get st oid) = false ->
  _parent (get st oid) = None ->
  forallb is_Str_or_Int keys = true ->
  _evaluate_ref _expr (S (S n)) oid keys RefModifier.RELATIVE st =
  Return tt (set_cache oid None (set_evaluated oid true st)) /\
  _evaluate_key _expr (S (S (S (S n)))) (Ref oid keys RefModifier.RELATIVE) st =
  Raise (RuntimeError "Failed to evaluate reference.")
    (set_cache oid None (set_evaluated oid true st)).
Proof.
  intros Hflag Hpar Hkeys.
  assert (Hforce :
            _evaluate_ref _expr (S (S n)) oid keys RefModifier.RELATIVE st =
            Return tt (set_cache oid None (set_evaluated oid true st))).
  { rewrite _evaluate_ref_todo by done. unfold bind.
    by rewrite Hpar, walk_None. }
  split; [exact Hforce|].
  rewrite _evaluate_key_Ref, _evaluate_Ref, Hforce.
  by rewrite cache_set_cache_eq.
Qed.

(** *** A run that never ends

    On [table_loop] the cache of reference 0 becomes reference 1 and the
    cache of reference 1 becomes reference 1 itself; the scan made for
    reference 2 then unwraps the first entry key and follows these caches
    without end. *)
Lemma table_loop_diverges : diverges (fun fuel => evaluate table_loop fuel ∅).
Proof.
  intros fuel.
  do 8 (destruct fuel as [|fuel]; [vm_compute; reflexivity|]).
  unfold evaluate, bind, table_loop, ref.
  set (root := Table _).
  set (st0 := _resolve _ _ _).
  unfold root at 2. rewrite _evaluate_Table. cbn [_evaluate_table].
  cbn [each_item]. unfold bind. cbn [key value entry].
  (* entry 0: its key, reference 0 *)
  rewrite _evaluate_Ref.
  erewrite (_evaluate_ref_last_segment root _ 0 [] (Str "a")
              RefModifier.ABSOLUTE st0
              [entry (Ref 0 [Str "a"] RefModifier.ABSOLUTE) (Str "v")]);
    [|reflexivity|reflexivity|reflexivity| |reflexivity|reflexivity| ].
  2:{ eapply no_match_fail;
        [by apply _evaluate_key_no_value|reflexivity|reflexivity
        |apply no_match_nil]. }
  2:{ reflexivity. }
  cbn [value entry].
  set (st1 := set_cache 0 _ _).
  rewrite _evaluate_Str.
  (* entry 1: its value, reference 1 *)
  rewrite _evaluate_Str.
  rewrite _evaluate_Ref.
  erewrite (_evaluate_ref_last_segment root _ 1 [] (Str "a")
              RefModifier.ABSOLUTE st1
              [entry (Ref 0 [Str "a"] RefModifier.ABSOLUTE) (Str "v")]);
    [|reflexivity|reflexivity|reflexivity| |reflexivity|reflexivity| ].
  2:{ eapply no_match_fail;
        [cbn [key entry];
         rewrite (_evaluate_key_follow root _ 0 _ _ _
                    (Ref 1 [Str "a"] RefModifier.ABSOLUTE)) by reflexivity;
         by apply _evaluate_key_no_value
        |reflexivity|reflexivity|apply no_match_nil]. }
  2:{ reflexivity. }
  cbn [value entry].
  set (st2 := set_cache 1 _ _).
  (* entry 2: its value, reference 2 *)
  rewrite _evaluate_Str.
  rewrite _evaluate_Ref.
  rewrite _evaluate_ref_todo by reflexivity. unfold bind.
  rewrite walk_cons. unfold root at 2. rewrite segment_Table.
  rewrite _evaluate_key_Str, scan_cons. cbn [key entry].
  rewrite (_evaluate_key_follow root _ 0 _ _ _
             (Ref 1 [Str "a"] RefModifier.ABSOLUTE)) by reflexivity.
  rewrite _evaluate_key_self_cached; reflexivity.
Qed.

(** *** A run only forces references *)

Lemma forces_refl st : forces st st.
Proof. intros oid. by left. Qed.

Lemma forces_trans st1 st2 st3 : forces st1 st2 -> forces st2 st3 -> forces st1 st3.
Proof.
  intros H12 H23 oid.
  destruct (H12 oid) as [E12|(F1 & T2 & P12)], (H23 oid) as [E23|(F2 & T3 & P23)].
  - left. congruence.
  - right. rewrite <- E12. auto.
  - right. rewrite E23. auto.
  - congruence.
Qed.

Lemma get_set_evaluated_ne st oid oid' b :
  oid' <> oid -> get (set_evaluated oid b st) oid' = get st oid'.
Proof. intros. unfold set_evaluated. by apply get_insert_ne. Qed.

Lemma get_set_cache_ne st oid oid' c :
  oid' <> oid -> get (set_cache oid c st) oid' = get st oid'.
Proof. intros. unfold set_cache. by apply get_insert_ne. Qed.

Lemma get_set_parent_ne st oid oid' p :
  oid' <> oid -> get (set_parent oid p st) oid' = get st oid'.
Proof. intros. unfold set_parent. by apply get_insert_ne. Qed.

Section ForcesLoops.
Variable evaluate_key : Expr -> Eval Expr.
Hypothesis evaluate_key_forces : forall k, preserves forces (evaluate_key k).

Lemma forces_scan key0 current items item_key :
  preserves forces (scan evaluate_key key0 current items item_key).
Proof.
  revert item_key.
  induction items as [|item rest IH]; intros item_key; cbn [scan].
  { apply preserves_ret, forces_refl. }
  apply (preserves_bind _ forces_trans).
  - apply (preserves_try_except _ forces_trans).
    + apply (preserves_bind _ forces_trans); [apply evaluate_key_forces|].
      intros ik. apply preserves_ret, forces_refl.
    + apply (preserves_bind _ forces_trans);
        [apply preserves_print, forces_refl|].
      intros _. apply preserves_ret, forces_refl.
  - intros [ik|]; [|apply IH].
    destruct (key_matches key0 ik);
      (apply (preserves_bind _ forces_trans);
       [apply preserves_print, forces_refl|intros _]);
      [apply preserves_ret, forces_refl|apply IH].
Qed.

Lemma forces_segment key0 current item_key :
  preserves forces (segment evaluate_key key0 current item_key).
Proof.
  unfold segment. apply (preserves_bind _ forces_trans); [apply evaluate_key_forces|].
  intros key1.
  destruct current as [[ | | | | | | | |items]|];
    try apply preserves_ret, forces_refl; try apply preserves_raise, forces_refl.
  apply (preserves_bind _ forces_trans); [apply forces_scan|].
  intros [[v|] [ik|]];
    try apply preserves_ret, forces_refl; try apply preserves_raise, forces_refl.
Qed.

Lemma forces_walk keys current item_key :
  preserves forces (walk evaluate_key keys current item_key).
Proof.
  revert current item_key.
  induction keys as [|key0 rest IH]; intros current item_key; cbn [walk].
  { apply preserves_ret, forces_refl. }
  apply (preserves_bind _ forces_trans); [apply forces_segment|].
  intros r. apply IH.
Qed.
End ForcesLoops.

Lemma forces_each_item evaluate0 items :
  (forall e, preserves forces (evaluate0 e)) ->
  preserves forces (each_item evaluate0 items).
Proof.
  intros H. induction items as [|item rest IH]; cbn [each_item].
  { apply preserves_ret, forces_refl. }
  apply (preserves_bind _ forces_trans); [apply H|]. intros _.
  apply (preserves_bind _ forces_trans); [apply H|]. intros _. apply IH.
Qed.

Section ForcesMethods.
Variable _expr : Expr.

Lemma forces_methods n :
  (forall e, preserves forces (_evaluate _expr n e)) /\
  (forall oid keys modifier, preserves forces (_evaluate_ref _expr n oid keys modifier)) /\
  (forall k, preserves forces (_evaluate_key _expr n k)) /\
  (forall items, preserves forces (_evaluate_table _expr n items)).
Proof.
  induction n as [|n (IHe & IHr & IHk & IHt)].
  { repeat split; intros; apply preserves_out_of_fuel. }
  repeat split.
  - intros [ | | | |oid keys modifier| | | |items]; cbn [_evaluate];
      auto using preserves_ret, preserves_raise, forces_refl.
  - intros oid keys modifier st.
    destruct (_evaluated (get st oid)) eqn:Hflag.
    + rewrite _evaluate_ref_done by done. apply forces_refl.
    + rewrite _evaluate_ref_todo by done. unfold bind.
      assert (H1 : forces st (set_evaluated oid true st)).
      { intros oid'. destruct (decide (oid' = oid)) as [->|Hne].
        - right. rewrite evaluated_set_evaluated, parent_set_evaluated.
          by case_decide.
        - left. by apply get_set_evaluated_ne. }
      pose proof (forces_walk _ IHk keys
        match modifier with
        | RefModifier.ABSOLUTE => Some _expr
        | RefModifier.RELATIVE => _parent (get st oid)
        end None (set_evaluated oid true st)) as H2.
      destruct (walk _ _ _ _ _) as [c st2|e st2|]; auto.
      * pose proof (forces_trans _ _ _ H1 H2) as H12.
        intros oid'. destruct (decide (oid' = oid)) as [->|Hne].
        -- right. rewrite evaluated_set_cache, parent_set_cache.
           assert (T1 : _evaluated (get (set_evaluated oid true st) oid) = true).
           { rewrite evaluated_set_evaluated. by case_decide. }
           destruct (H2 oid) as [E2|(F2 & _)]; [|congruence].
           rewrite E2, parent_set_evaluated. auto.
        -- rewrite get_set_cache_ne by done. apply H12.
      * eapply forces_trans; eauto.
  - intros [ | | | |oid keys modifier| | | |items]; cbn [_evaluate_key];
      auto using preserves_ret, preserves_raise, forces_refl.
    apply (preserves_bind _ forces_trans); [apply IHe|]. intros _ st.
    destruct (_cache (get st oid)); [apply IHk|apply forces_refl].
  - intros items. cbn [_evaluate_table]. by apply forces_each_item.
Qed.
End ForcesMethods.

(** *** Every reference gone through is flagged *)

Lemma _evaluate_visited _expr n :
  (forall e st st',
      _evaluate _expr n e st = Return tt st' ->
      forall oid, In oid (visited e) -> _evaluated (get st' oid) = true) /\
  (forall items st st',
      _evaluate_table _expr n items st = Return tt st' ->
      forall oid, In oid (visited (Table items)) -> _evaluated (get st' oid) = true).
Proof.
  induction n as [|n [IHe IHt]]; [split; discriminate|].
  split.
  - intros [ | | | |oid keys modifier| | | |items] st st'; cbn [_evaluate];
      try discriminate; try (by intros _ ? ?).
    + intros Hr oid' [<-|[]]. eapply _evaluate_ref_flags; eauto.
    + apply IHt.
  - intros items. cbn [_evaluate_table visited].
    induction items as [|[k v p] rest IHitems]; intros st st' H oid Hin;
      [destruct Hin|].
    cbn [each_item key value] in H. unfold bind in H.
    destruct (_evaluate _expr n k st) as [[] st1|?|] eqn:H1; try discriminate.
    destruct (_evaluate _expr n v st1) as [[] st2|?|] eqn:H2; try discriminate.
    cbn [flat_map] in Hin. rewrite !in_app_iff in Hin.
    assert (Hrest : ext st2 st').
    { pose proof (keeps_each_item (_evaluate _expr n) rest
                    (proj1 (keeps_methods _expr n)) st2) as Hk.
      by rewrite H in Hk. }
    destruct Hin as [[Hk|Hv]|Hr].
    + apply Hrest. apply (_evaluate_ext _ _ _ _ _ _ H2). eapply IHe; eauto.
    + apply Hrest. eapply IHe; eauto.
    + eapply IHitems; eauto.
Qed.

(** *** What the key loop returns, and where a cache points *)

Lemma _evaluate_key_returns_key _expr n :
  forall k st r st',
    _evaluate_key _expr n k st = Return r st' -> is_Str_or_Int r = true.
Proof.
  induction n as [|n IH]; [discriminate|].
  intros [s|b|z|f|oid keys modifier| | | |items] st r st'; cbn [_evaluate_key];
    try discriminate.
  - by intros [= <- _].
  - by intros [= <- _].
  - unfold bind. destruct (_evaluate _expr n _ st) as [[] st1|?|]; try discriminate.
    destruct (_cache (get st1 oid)) as [c|]; [|discriminate]. apply IH.
Qed.

Lemma descends_trans a b c : descends a b -> descends b c -> descends a c.
Proof.
  intros Hab Hbc. revert a Hab.
  induction Hbc as [e|v items item Hin Hv IH]; intros a Hab; [done|].
  eapply descends_value; eauto.
Qed.

Section Found.
Variable evaluate_key : Expr -> Eval Expr.

Lemma scan_found key0 current items item_key st v item_key' st' :
  scan evaluate_key key0 current items item_key st =
  Return (Some v, item_key') st' ->
  exists item ik, In item items /\ v = value item /\ item_key' = Some ik /\
                  key_matches key0 ik = true.
Proof.
  revert item_key st.
  induction items as [|item rest IH]; intros item_key st; [discriminate|].
  rewrite scan_cons.
  destruct (evaluate_key (key item) st) as [ik st1|e st1|]; [| |discriminate].
  - destruct (key_matches key0 ik) eqn:Hm.
    + destruct (print_ "MATCH" _ st1) as [[] st2|e2 st2|]; try discriminate.
      intros [= <- <- <-]. exists item, ik. repeat split; auto. by left.
    + destruct (print_ "OK" _ st1) as [[] st2|e2 st2|]; try discriminate.
      intros H. apply IH in H as (it & k & Hin & ?). exists it, k.
      split; [by right|done].
  - destruct (is_RuntimeError_or_TypeError e); [|discriminate].
    destruct (print_ "FAILURE" _ st1) as [[] st2|e2 st2|]; try discriminate.
    intros H. apply IH in H as (it & k & Hin & ?). exists it, k.
    split; [by right|done].
Qed.

Lemma segment_descends key0 cur item_key st r st' :
  segment evaluate_key key0 (Some cur) item_key st = Return r st' ->
  exists v, fst r = Some v /\ descends v cur.
Proof.
  unfold segment, bind, ret, raise.
  destruct (evaluate_key key0 st) as [key1 st1|?|]; try discriminate.
  destruct cur as [ | | | | | | | |items]; try discriminate;
    try (intros [= <- _]; eexists; split; [reflexivity|apply descends_refl]).
  destruct (scan evaluate_key key1 (Table items) items item_key st1)
    as [[[v|] ik] st2|?|] eqn:Hs;
    [|destruct ik|..]; try discriminate.
  intros [= <- _]. apply scan_found in Hs as (item & k & Hin & -> & _).
  exists (value item). split; [done|].
  eapply descends_value; [exact Hin|apply descends_refl].
Qed.

Lemma walk_descends keys cur item_key st r st' :
  walk evaluate_key keys (Some cur) item_key st = Return r st' ->
  exists v, fst r = Some v /\ descends v cur.
Proof.
  revert cur item_key st.
  induction keys as [|key0 rest IH]; intros cur item_key st.
  { intros [= <- _]. exists cur. split; [done|apply descends_refl]. }
  rewrite walk_cons.
  destruct (segment evaluate_key key0 (Some cur) item_key st) as [[c ik] st1|?|] eqn:Hs;
    try discriminate.
  apply segment_descends in Hs as (v1 & Hc & Hd). cbn [fst snd] in *. subst c.
  intros H. apply IH in H as (v & Hv & Hd'). exists v. split; [done|].
  eapply descends_trans; eauto.
Qed.
End Found.

Lemma _evaluate_ref_descends _expr n oid keys modifier st st' start :
  _evaluated (get st oid) = false ->
  match modifier with
  | RefModifier.ABSOLUTE => Some _expr
  | RefModifier.RELATIVE => _parent (get st oid)
  end = Some start ->
  _evaluate_ref _expr n oid keys modifier st = Return tt st' ->
  exists c, _cache (get st' oid) = Some c /\ descends c start.
Proof.
  intros Hflag Hstart. destruct n as [|n]; [discriminate|].
  rewrite _evaluate_ref_todo by done. rewrite Hstart. unfold bind.
  destruct (walk _ _ _ _ _) as [r st2|?|] eqn:Hw; try discriminate.
  intros [= <-]. apply walk_descends in Hw as (v & Hv & Hd).
  exists v. by rewrite cache_set_cache_eq.
Qed.

(** *** Paths through tables without reference keys *)

Section Plain.
Variable _expr : Expr.

Lemma _evaluate_key_plain n k st :
  is_Ref k = false ->
  _evaluate_key _expr (S n) k st =
  if is_Str_or_Int k then Return k st
  else Raise (TypeError "Expected string or integer for key.") st.
Proof. by destruct k. Qed.

Lemma scan_plain n kv current items v st :
  (forall label item,
      In item items -> print_ label [Str kv; key item; current] st = Return tt st) ->
  forallb (fun item => negb (is_Ref (key item))) items = true ->
  find_entry kv items = Some v ->
  forall item_key,
  exists item_key',
    scan (_evaluate_key _expr (S n)) (Str kv) current items item_key st =
    Return (Some v, item_key') st.
Proof.
  induction items as [|item rest IH]; [discriminate|].
  cbn [forallb find_entry]. intros Hp Hall Hfind item_key.
  apply andb_prop in Hall as [Hk Hrest]. apply negb_true_iff in Hk.
  assert (Hrest' : forall label item',
             In item' rest ->
             print_ label [Str kv; key item'; current] st = Return tt st)
    by (intros; apply Hp; by right).
  pose proof (fun label => Hp label item (or_introl eq_refl)) as Hitem.
  rewrite scan_cons, _evaluate_key_plain by done.
  destruct (key item) as [s|b|z|f| | | | |items']; try discriminate;
    cbn [is_Str_or_Int is_RuntimeError_or_TypeError key_matches];
    try (rewrite Hitem; by apply IH).
  destruct (String.eqb kv s); rewrite Hitem.
  - injection Hfind as <-. by eexists.
  - by apply IH.
Qed.

Lemma walk_follow n ks st :
  forall cur v item_key,
    follow st ks cur = Some v ->
    exists item_key',
      walk (_evaluate_key _expr (S n)) (map Str ks) (Some cur) item_key st =
      Return (Some v, item_key') st.
Proof.
  induction ks as [|kv rest IH]; intros cur v item_key; cbn [follow map].
  { intros [= <-]. by eexists. }
  intros H. rewrite walk_cons.
  destruct cur as [ | | | | | | | |items]; try discriminate;
    try (unfold segment, bind; rewrite _evaluate_key_plain by done; cbn;
         by apply IH).
  destruct (forallb _ items) eqn:Hall; [|discriminate].
  destruct (repr_raises st (Table items)) eqn:Hshow; [discriminate|].
  cbn [andb negb] in H.
  destruct (find_entry kv items) as [v1|] eqn:Hfind; [|discriminate].
  rewrite segment_Table, _evaluate_key_plain by done. cbn [is_Str_or_Int].
  destruct (scan_plain n kv (Table items) items v1 st
              (fun label item Hin => print_entry label kv items item st Hin Hshow)
              Hall Hfind item_key) as [ik' ->].
  cbn [fst snd]. by apply IH.
Qed.

Lemma _evaluate_ref_follow n oid ks modifier st start v :
  _evaluated (get st oid) = false ->
  match modifier with
  | RefModifier.ABSOLUTE => Some _expr
  | RefModifier.RELATIVE => _parent (get st oid)
  end = Some start ->
  follow (set_evaluated oid true st) ks start = Some v ->
  _evaluate_ref _expr (S (S n)) oid (map Str ks) modifier st =
  Return tt (set_cache oid (Some v) (set_evaluated oid true st)).
Proof.
  intros Hflag Hstart Hfollow.
  rewrite _evaluate_ref_todo by done. rewrite Hstart. unfold bind.
  destruct (walk_follow n ks (set_evaluated oid true st) start v None Hfollow)
    as [ik' ->].
  reflexivity.
Qed.
End Plain.

(** *** The scopes the resolver pass writes *)

Lemma writes_scopes_id p : writes_scopes [] p (fun st => st).
Proof. intros oid st. split; [intros []|done]. Qed.

Lemma writes_scopes_comp l1 l2 p f g :
  writes_scopes l1 p f -> writes_scopes l2 p g ->
  writes_scopes (l1 ++ l2) p (fun st => g (f st)).
Proof.
  intros Hf Hg oid st. rewrite in_app_iff.
  destruct (in_dec Nat.eq_dec oid l2) as [H2|H2].
  - split; [|tauto]. intros _. by apply Hg.
  - rewrite (proj2 (Hg oid (f st)) H2). split.
    + intros [H1|?]; [|done]. by apply Hf.
    + intros H. apply Hf. tauto.
Qed.

Lemma writes_scopes_table l t p f :
  is_Table t = true -> writes_scopes l (Some t) f -> writes_scopes l p f.
Proof.
  intros Ht Hf oid st. split; [|apply Hf].
  intros Hin. right. destruct (proj1 (Hf oid st) Hin) as [H|H]; eauto.
Qed.

Lemma _resolve_writes_scopes e :
  forall parent0, writes_scopes (resolved e) parent0 (_resolve parent0 e).
Proof.
  induction e as [s|b|z|f|oid keys modifier _|op r IHr|l op r IHl IHr
                 |items IH|items IH] using Expr_ind'; intros parent0;
    try exact (writes_scopes_id parent0).
  - intros oid' st. cbn [_resolve resolved]. split.
    + intros [<-|[]]. left. rewrite parent_set_parent. by case_decide.
    + intros Hne. apply get_set_parent_ne. intros ->. apply Hne. by left.
  - exact (IHr parent0).
  - exact (writes_scopes_comp _ _ _ _ _ (IHl parent0) (IHr parent0)).
  - cbn [_resolve resolved]. induction IH as [|x rest Hx _ IHrest].
    + exact (writes_scopes_id parent0).
    + exact (writes_scopes_comp _ _ _ _ _ (Hx parent0) IHrest).
  - apply (writes_scopes_table _ (Table items)); [done|].
    cbn [_resolve resolved]. generalize (Some (Table items)). intros scope.
    induction IH as [|[k v p] rest (Hk & Hv & Hp) _ IHrest].
    + exact (writes_scopes_id scope).
    + refine (writes_scopes_comp _ _ _ _ _ _ IHrest). cbn in Hk, Hv, Hp.
      destruct p as [p'|].
      * exact (writes_scopes_comp _ _ _ _ _ (Hk scope)
                 (writes_scopes_comp _ _ _ _ _ (Hv scope) (Hp p' eq_refl scope))).
      * rewrite app_nil_r.
        exact (writes_scopes_comp _ _ _ _ _ (Hk scope) (Hv scope)).
Qed.

(** *** Expressions without a rule *)

Lemma _evaluate_unsupported _expr n :
  (forall e st st',
      unsupported e = true -> _evaluate _expr n e st <> Return tt st') /\
  (forall items st st',
      unsupported (Table items) = true ->
      _evaluate_table _expr n items st <> Return tt st').
Proof.
  induction n as [|n [IHe IHt]]; [split; discriminate|].
  split.
  - intros [ | | | |oid keys modifier| | | |items] st st'; cbn [_evaluate];
      try discriminate.
    apply IHt.
  - intros items. cbn [_evaluate_table unsupported].
    induction items as [|[k v p] rest IHitems]; intros st st'; [discriminate|].
    cbn [existsb each_item key value]. unfold bind. intros Hbad.
    destruct (_evaluate _expr n k st) as [[] st1|?|] eqn:H1; try discriminate.
    destruct (_evaluate _expr n v st1) as [[] st2|?|] eqn:H2; try discriminate.
    apply orb_prop in Hbad as [Hkv|Hrest]; [|by apply IHitems].
    apply orb_prop in Hkv as [Hk|Hv].
    + by destruct (IHe k st st1 Hk).
    + by destruct (IHe v st1 st2 Hv).
Qed.

(** *** An integer key never matches *)

Section IntKey.
Variable evaluate_key : Expr -> Eval Expr.

Lemma scan_Int z current items item_key st v item_key' st' :
  scan evaluate_key (Int z) current items item_key st <>
  Return (Some v, item_key') st'.
Proof.
  intros H. apply scan_found in H as (item & ik & _ & _ & _ & Hm).
  by destruct ik.
Qed.

Lemma segment_Int key0 z items item_key st st1 :
  evaluate_key key0 st = Return (Int z) st1 ->
  fails (segment evaluate_key key0 (Some (Table items)) item_key st) \/
  segment evaluate_key key0 (Some (Table items)) item_key st = OutOfFuel.
Proof.
  intros Hkey. rewrite segment_Table, Hkey.
  destruct (scan evaluate_key (Int z) (Table items) items item_key st1)
    as [[[v|] [ik|]] st2|e st2|] eqn:Hs; cbn; auto;
    by destruct (scan_Int _ _ _ _ _ _ _ _ Hs).
Qed.
End IntKey.

(** *** A reference as the whole document *)

Lemma walk_skip _expr n keys cur item_key st :
  (forall items, cur <> Some (Table items)) ->
  (forall items, cur <> Some (Array items)) ->
  forallb is_Str_or_Int keys = true ->
  exists item_key',
  walk (_evaluate_key _expr (S n)) keys cur item_key st = Return (cur, item_key') st.
Proof.
  intros HT HA. revert item_key.
  induction keys as [|key0 rest IH]; intros item_key Hkeys; [by eexists|].
  cbn [forallb] in Hkeys. apply andb_prop in Hkeys as [Hk Hrest].
  rewrite walk_cons. unfold segment, bind.
  assert (Hkey : _evaluate_key _expr (S n) key0 st = Return key0 st)
    by (by destruct key0).
  rewrite Hkey.
  destruct cur as [[ | | | | | | |items|items]|]; cbn [ret fst snd];
    try (by apply IH).
  - by destruct (HA items).
  - by destruct (HT items).
Qed.

Lemma evaluate_root_Ref n oid keys st :
  _evaluated (get st oid) = false ->
  forallb is_Str_or_Int keys = true ->
  evaluate (Ref oid keys RefModifier.ABSOLUTE) (S (S (S n))) st =
  Return (Ref oid keys RefModifier.ABSOLUTE)
    (set_cache oid (Some (Ref oid keys RefModifier.ABSOLUTE))
       (set_evaluated oid true (set_parent oid None st))).
Proof.
  intros Hflag Hkeys. unfold evaluate, bind. cbn [_resolve _evaluate].
  rewrite _evaluate_ref_todo by (by rewrite evaluated_set_parent).
  unfold bind.
  destruct (walk_skip (Ref oid keys RefModifier.ABSOLUTE) n keys
              (Some (Ref oid keys RefModifier.ABSOLUTE)) None
              (set_evaluated oid true (set_parent oid None st)))
    as [ik' ->]; try done.
Qed.

(** *** The scope of each reference after the resolver pass *)

Lemma with_scope_later a b d :
  with_scope (later a b) d = with_scope a (with_scope b d).
Proof. by destruct a, b. Qed.

Lemma sets_scopes_id : sets_scopes (fun _ => None) (fun st => st).
Proof. by intros st oid. Qed.

Lemma sets_scopes_set_parent oid p :
  sets_scopes (fun oid' => if Nat.eqb oid' oid then Some p else None)
    (set_parent oid p).
Proof.
  intros st oid'. destruct (Nat.eqb_spec oid' oid) as [->|Hne].
  - unfold set_parent. by rewrite get_insert_eq.
  - by apply get_set_parent_ne.
Qed.

Lemma sets_scopes_comp s1 s2 f1 f2 :
  sets_scopes s1 f1 -> sets_scopes s2 f2 ->
  sets_scopes (fun oid => later (s2 oid) (s1 oid)) (fun st => f2 (f1 st)).
Proof.
  intros H1 H2 st oid. by rewrite H2, H1, with_scope_later.
Qed.

Lemma sets_scopes_ext s s' f :
  (forall oid, s oid = s' oid) -> sets_scopes s f -> sets_scopes s' f.
Proof. intros Hs Hf st oid. by rewrite <- Hs. Qed.

Lemma _resolve_sets_scopes e :
  forall parent0,
    sets_scopes (fun oid => scope_of parent0 e oid) (_resolve parent0 e).
Proof.
  induction e as [s|b|z|f|oid keys modifier _|op r IHr|l op r IHl IHr
                 |items IH|items IH] using Expr_ind'; intros parent0;
    try exact sets_scopes_id.
  - exact (sets_scopes_set_parent oid parent0).
  - exact (IHr parent0).
  - exact (sets_scopes_comp _ _ _ _ (IHl parent0) (IHr parent0)).
  - cbn [_resolve scope_of]. induction IH as [|x rest Hx _ IHrest].
    + exact sets_scopes_id.
    + eapply sets_scopes_ext;
        [|exact (sets_scopes_comp _ _ _ _ (Hx parent0) IHrest)].
      intros oid. cbn [fold_left].
      rewrite later_None. symmetry.
      by apply (fold_later _ (fun x => scope_of parent0 x oid)).
  - cbn [_resolve scope_of]. generalize (Some (Table items)). intros scope.
    induction IH as [|[k v p] rest (Hk & Hv & Hp) _ IHrest].
    + exact sets_scopes_id.
    + cbn in Hk, Hv, Hp.
      assert (Hitem : sets_scopes
                (fun oid =>
                   match p with
                   | Some p' =>
                       later (scope_of scope p' oid)
                         (later (scope_of scope v oid) (scope_of scope k oid))
                   | None => later (scope_of scope v oid) (scope_of scope k oid)
                   end)
                (fun st =>
                   match p with
                   | Some p' => _resolve scope p' (_resolve scope v (_resolve scope k st))
                   | None => _resolve scope v (_resolve scope k st)
                   end)).
      { destruct p as [p'|].
        - exact (sets_scopes_comp _ _ _ _
                   (sets_scopes_comp _ _ _ _ (Hk scope) (Hv scope))
                   (Hp p' eq_refl scope)).
        - exact (sets_scopes_comp _ _ _ _ (Hk scope) (Hv scope)). }
      eapply sets_scopes_ext; [|exact (sets_scopes_comp _ _ _ _ Hitem IHrest)].
      intros oid. cbn [fold_left]. rewrite later_None. symmetry.
      apply (fold_later _
               (fun item =>
                  match item with
                  | Build_TableItem k v (Some p') =>
                      later (scope_of scope p' oid)
                        (later (scope_of scope v oid) (scope_of scope k oid))
                  | Build_TableItem k v None =>
                      later (scope_of scope v oid) (scope_of scope k oid)
                  end)).
      intros acc [k' v' [p'|]]; by rewrite !later_assoc.
Qed.

(** *** A reference whose forcing failed *)

Lemma _evaluate_ref_raise_sticky _expr n oid keys modifier st e st' :
  _evaluated (get st oid) = false ->
  _evaluate_ref _expr n oid keys modifier st = Raise e st' ->
  get st' oid = get (set_evaluated oid true st) oid.
Proof.
  intros Hflag. destruct n as [|n]; [discriminate|].
  rewrite _evaluate_ref_todo by done. unfold bind.
  pose proof (forces_walk _ (proj1 (proj2 (proj2 (forces_methods _expr n)))) keys
    match modifier with
    | RefModifier.ABSOLUTE => Some _expr
    | RefModifier.RELATIVE => _parent (get st oid)
    end None (set_evaluated oid true st)) as H2.
  destruct (walk _ _ _ _ _) as [c st2|e2 st2|]; try discriminate.
  intros [= _ <-].
  destruct (H2 oid) as [E|(F & _)]; [exact E|].
  rewrite evaluated_set_evaluated in F. by case_decide.
Qed.

End EvaluatorFacts.

(** * Facts about evaluator2.py *)

Module Evaluator2Facts.
Import Evaluator2.

(** *** The store *)

Lemma get_insert_eq2 (st : Store) oid d : get (<[oid := d]> st) oid = d.
Proof. unfold get. by rewrite lookup_insert_eq. Qed.

Lemma get_insert_ne2 (st : Store) oid oid' d :
  oid ≠ oid' -> get (<[oid := d]> st) oid' = get st oid'.
Proof. intros Hne. unfold get. by rewrite lookup_insert_ne. Qed.

Lemma evaluated_set_evaluated2 st oid oid' :
  ref_evaluated (get (set_evaluated oid true st) oid') =
  if decide (oid = oid') then true else ref_evaluated (get st oid').
Proof.
  unfold set_evaluated. case_decide as Hd.
  - subst. by rewrite get_insert_eq2.
  - by rewrite get_insert_ne2.
Qed.

Lemma evaluated_set_cache2 st oid oid' c :
  ref_evaluated (get (set_cache oid c st) oid') = ref_evaluated (get st oid').
Proof. unfold set_cache. destruct (decide (oid = oid')) as [->|?];
    [by rewrite get_insert_eq2|by rewrite get_insert_ne2]. Qed.

Lemma evaluated_set_parent2 st oid oid' p :
  ref_evaluated (get (set_parent oid p st) oid') = ref_evaluated (get st oid').
Proof. unfold set_parent. destruct (decide (oid = oid')) as [->|?];
    [by rewrite get_insert_eq2|by rewrite get_insert_ne2]. Qed.

Lemma cache_set_parent2 st oid oid' p :
  ref_cache (get (set_parent oid p st) oid') = ref_cache (get st oid').
Proof. unfold set_parent. destruct (decide (oid = oid')) as [->|?];
    [by rewrite get_insert_eq2|by rewrite get_insert_ne2]. Qed.

Lemma parent_set_evaluated2 st oid oid' b :
  ref_parent (get (set_evaluated oid b st) oid') = ref_parent (get st oid').
Proof. unfold set_evaluated. destruct (decide (oid = oid')) as [->|?];
    [by rewrite get_insert_eq2|by rewrite get_insert_ne2]. Qed.

Lemma parent_set_cache2 st oid oid' c :
  ref_parent (get (set_cache oid c st) oid') = ref_parent (get st oid').
Proof. unfold set_cache. destruct (decide (oid = oid')) as [->|?];
    [by rewrite get_insert_eq2|by rewrite get_insert_ne2]. Qed.

Lemma parent_set_parent2 st oid oid' p :
  ref_parent (get (set_parent oid p st) oid') =
  if decide (oid = oid') then p else ref_parent (get st oid').
Proof.
  unfold set_parent. case_decide as Hd.
  - subst. by rewrite get_insert_eq2.
  - by rewrite get_insert_ne2.
Qed.

(** *** Unfolding equations of the methods *)

Section Equations.
Variable _expr : Expr.

Lemma _evaluate_Ref2 n oid keys modifier :
  _evaluate _expr (S n) (Ref oid keys modifier) =
  _evaluate_ref _expr n oid keys modifier.
Proof. reflexivity. Qed.

Lemma _evaluate_ref_done2 n oid keys modifier st :
  ref_evaluated (get st oid) = true ->
  _evaluate_ref _expr (S n) oid keys modifier st = Return tt st.
Proof. intros H. cbn [_evaluate_ref]. by rewrite H. Qed.

Lemma _evaluate_ref_todo2 n oid keys modifier st :
  ref_evaluated (get st oid) = false ->
  _evaluate_ref _expr (S n) oid keys modifier st =
  (do current' <-
     walk (_unwrap _expr n) keys
       match modifier with
       | RefModifier.ABSOLUTE => Some _expr
       | RefModifier.RELATIVE => ref_parent (get st oid)
       end;
   fun st2 => Return tt (set_cache oid current' st2))
    (set_evaluated oid true st).
Proof.
  intros H. cbn [_evaluate_ref]. rewrite H.
  by rewrite parent_set_evaluated2.
Qed.

Lemma _unwrap_Ref2 n oid keys modifier st :
  _unwrap _expr (S n) (Ref oid keys modifier) st =
  match _evaluate _expr n (Ref oid keys modifier) st with
  | Return _ st' =>
      match ref_cache (get st' oid) with
      | None => Raise (RuntimeError "Failed to evaluate reference.") st'
      | Some c => _unwrap _expr n c st'
      end
  | Raise e st' => Raise e st'
  | OutOfFuel => OutOfFuel
  end.
Proof. reflexivity. Qed.
End Equations.

(** *** Structural induction on expressions *)

Section ExprInd.
Variable P : Expr -> Prop.
Hypothesis HStr : forall s, P (Str s).
Hypothesis HBool : forall b, P (Bool b).
Hypothesis HInt : forall z, P (Int z).
Hypothesis HFloat : forall f, P (Float f).
Hypothesis HRef : forall oid keys modifier,
  Forall P keys -> P (Ref oid keys modifier).
Hypothesis HTable : forall items,
  Forall (fun item => P (key item) /\ P (value item) /\
                      forall p, parent item = Some p -> P p) items ->
  P (Table items).

Lemma Expr_ind2' : forall e, P e.
Proof.
  fix IH 1. intros [s|b|z|f|oid keys modifier|items].
  - apply HStr.
  - apply HBool.
  - apply HInt.
  - apply HFloat.
  - apply HRef. induction keys as [|k keys IHkeys]; constructor; auto.
  - apply HTable.
    induction items as [|[k v p] items IHitems]; constructor; [|exact IHitems].
    cbn. repeat split; try apply IH.
    destruct p as [p'|]; intros q Hq; [|discriminate].
    injection Hq as <-. apply IH.
Qed.
End ExprInd.

(** *** What evaluation never undoes *)

Lemma ext_refl2 st : ext st st.
Proof. intros oid. split; auto. Qed.

Lemma ext_trans2 st1 st2 st3 : ext st1 st2 -> ext st2 st3 -> ext st1 st3.
Proof.
  intros H12 H23 oid. destruct (H12 oid) as [Ha Hb], (H23 oid) as [Hc Hd].
  split; [auto|congruence].
Qed.

Lemma ext_set_evaluated2 st oid : ext st (set_evaluated oid true st).
Proof.
  intros oid'. rewrite evaluated_set_evaluated2, parent_set_evaluated2.
  split; [|reflexivity]. case_decide; auto.
Qed.

Lemma ext_set_cache2 st oid c : ext st (set_cache oid c st).
Proof.
  intros oid'. rewrite evaluated_set_cache2, parent_set_cache2. auto.
Qed.

Lemma keeps_ret2 {A} (a : A) : keeps (ret a).
Proof. intros st. apply ext_refl2. Qed.

Lemma keeps_raise2 {A} e : keeps (raise (A := A) e).
Proof. intros st. apply ext_refl2. Qed.

Lemma keeps_out_of_fuel2 {A} : keeps (out_of_fuel (A := A)).
Proof. intros st. exact I. Qed.

Lemma keeps_bind2 {A B} (m : Eval A) (k : A -> Eval B) :
  keeps m -> (forall a, keeps (k a)) -> keeps (do a <- m; k a).
Proof.
  intros Hm Hk st. unfold bind. specialize (Hm st).
  destruct (m st) as [a st'|e st'|]; auto.
  specialize (Hk a st'). destruct (k a st'); eauto using ext_trans2.
Qed.

Lemma keeps_try_except2 {A} caught (m h : Eval A) :
  keeps m -> keeps h -> keeps (try_except caught m h).
Proof.
  intros Hm Hh st. unfold try_except. specialize (Hm st).
  destruct (m st) as [a st'|e st'|]; auto.
  destruct (caught e); auto.
  specialize (Hh st'). destruct (h st'); eauto using ext_trans2.
Qed.

Section KeepsLoops.
Variable unwrap : Expr -> Eval Expr.
Hypothesis keeps_unwrap : forall e, keeps (unwrap e).

Lemma keeps_scan2 kv items current : keeps (scan unwrap kv items current).
Proof.
  induction items as [|item rest IH]; [apply keeps_ret2|].
  cbn [scan]. apply keeps_bind2.
  - apply keeps_try_except2; [|apply keeps_ret2].
    apply keeps_bind2; [apply keeps_unwrap|intros; apply keeps_ret2].
  - intros [[iv| | | | |]|]; try apply keeps_raise2; try apply IH.
    destruct (String.eqb kv iv); [apply keeps_ret2|apply IH].
Qed.

Lemma keeps_segment2 key0 current : keeps (segment unwrap key0 current).
Proof.
  unfold segment. destruct current as [cur|]; [|apply keeps_raise2].
  apply keeps_bind2; [apply keeps_unwrap|]. intros curry.
  apply keeps_bind2; [apply keeps_unwrap|]. intros key1.
  destruct key1; try apply keeps_raise2.
  destruct curry; try apply keeps_raise2. apply keeps_scan2.
Qed.

Lemma keeps_walk2 keys current : keeps (walk unwrap keys current).
Proof.
  revert current. induction keys as [|key0 rest IH]; intros current.
  - apply keeps_ret2.
  - cbn [walk]. apply keeps_bind2; [apply keeps_segment2|]. intros r. apply IH.
Qed.
End KeepsLoops.

Lemma keeps_each_item2 evaluate0 items :
  (forall e, keeps (evaluate0 e)) -> keeps (each_item evaluate0 items).
Proof.
  intros He. induction items as [|item rest IH]; [apply keeps_ret2|].
  cbn [each_item]. apply keeps_bind2; [apply He|]. intros _.
  apply keeps_bind2; [apply He|]. intros _. exact IH.
Qed.

Section Invariants.
Variable _expr : Expr.

Lemma keeps_methods2 n :
  (forall e, keeps (_evaluate _expr n e)) /\
  (forall oid keys modifier, keeps (_evaluate_ref _expr n oid keys modifier)) /\
  (forall e, keeps (_unwrap _expr n e)) /\
  (forall items, keeps (_evaluate_table _expr n items)).
Proof.
  induction n as [|n (IHe & IHr & IHu & IHt)].
  { repeat split; intros; apply keeps_out_of_fuel2. }
  repeat split.
  - intros [ | | | |oid keys modifier|items]; cbn [_evaluate];
      auto using keeps_ret2.
  - intros oid keys modifier st.
    destruct (ref_evaluated (get st oid)) eqn:Hflag.
    + rewrite _evaluate_ref_done2 by done. apply ext_refl2.
    + rewrite _evaluate_ref_todo2 by done. unfold bind.
      pose proof (ext_set_evaluated2 st oid) as H1.
      pose proof (keeps_walk2 _ IHu keys
        match modifier with
        | RefModifier.ABSOLUTE => Some _expr
        | RefModifier.RELATIVE => ref_parent (get st oid)
        end (set_evaluated oid true st)) as H2.
      destruct (walk _ _ _ _) as [c st2|e st2|]; auto.
      * eapply ext_trans2; [exact H1|].
        eapply ext_trans2; [exact H2|apply ext_set_cache2].
      * eapply ext_trans2; eauto.
  - intros [ | | | |oid keys modifier|items]; cbn [_unwrap];
      auto using keeps_ret2.
    apply keeps_bind2; [apply IHe|]. intros _ st.
    destruct (ref_cache (get st oid)); [apply IHu|apply ext_refl2].
  - intros items. cbn [_evaluate_table]. by apply keeps_each_item2.
Qed.

Lemma _evaluate_ext2 n e st a st' :
  _evaluate _expr n e st = Return a st' -> ext st st'.
Proof.
  intros H. pose proof (proj1 (keeps_methods2 n) e st) as Hk.
  by rewrite H in Hk.
Qed.

Lemma _evaluate_ref_flags2 n oid keys modifier st a st' :
  _evaluate_ref _expr n oid keys modifier st = Return a st' ->
  ref_evaluated (get st' oid) = true.
Proof.
  destruct n as [|n]; [discriminate|].
  destruct (ref_evaluated (get st oid)) eqn:Hflag.
  - rewrite _evaluate_ref_done2 by done. by intros [= _ <-].
  - rewrite _evaluate_ref_todo2 by done. unfold bind.
    pose proof (keeps_walk2 _ (proj1 (proj2 (proj2 (keeps_methods2 n)))) keys
      match modifier with
      | RefModifier.ABSOLUTE => Some _expr
      | RefModifier.RELATIVE => ref_parent (get st oid)
      end (set_evaluated oid true st)) as H2.
    destruct (walk _ _ _ _) as [c st2|e st2|]; try discriminate.
    intros [= _ <-]. rewrite evaluated_set_cache2.
    apply H2. rewrite evaluated_set_evaluated2. by case_decide.
Qed.

Lemma rerun2 n :
  (forall e st st',
      _evaluate _expr n e st = Return tt st' ->
      forall s, (forall oid, ref_evaluated (get st' oid) = true ->
                             ref_evaluated (get s oid) = true) ->
                _evaluate _expr n e s = Return tt s) /\
  (forall items st st',
      _evaluate_table _expr n items st = Return tt st' ->
      forall s, (forall oid, ref_evaluated (get st' oid) = true ->
                             ref_evaluated (get s oid) = true) ->
                _evaluate_table _expr n items s = Return tt s).
Proof.
  induction n as [|n [IHe IHt]]; [split; discriminate|].
  split.
  - intros [ | | | |oid keys modifier|items] st st';
      cbn [_evaluate]; try reflexivity.
    + intros H s Hs. apply _evaluate_ref_flags2 in H as Hflag.
      destruct n as [|n]; [discriminate|].
      apply _evaluate_ref_done2. auto.
    + apply IHt.
  - intros items. cbn [_evaluate_table].
    induction items as [|item rest IH]; intros st st' H s Hs; [reflexivity|].
    cbn [each_item] in H |- *. unfold bind in H |- *.
    destruct (_evaluate _expr n (key item) st) as [[] st1|?|] eqn:H1;
      try discriminate.
    destruct (_evaluate _expr n (value item) st1) as [[] st2|?|] eqn:H2;
      try discriminate.
    assert (Hrest : ext st2 st').
    { pose proof (keeps_each_item2 (_evaluate _expr n) rest
                    (proj1 (keeps_methods2 n)) st2) as Hk.
      by rewrite H in Hk. }
    apply _evaluate_ext2 in H2 as Hv.
    rewrite (IHe _ _ _ H1 s).
    2:{ intros oid Ho. apply Hs, Hrest, Hv, Ho. }
    rewrite (IHe _ _ _ H2 s).
    2:{ intros oid Ho. apply Hs, Hrest, Ho. }
    eapply IH; eauto.
Qed.
End Invariants.

(** *** The resolver pass *)

Lemma resolver_id2 : resolver (fun st => st).
Proof. intros oid. split; auto. Qed.

Lemma resolver_set_parent2 oid p : resolver (set_parent oid p).
Proof.
  intros oid'. split.
  - intros st. by rewrite cache_set_parent2, evaluated_set_parent2.
  - destruct (decide (oid = oid')) as [->|Hne].
    + left. exists p. intros st. rewrite parent_set_parent2. by case_decide.
    + right. intros st. rewrite parent_set_parent2. by case_decide.
Qed.

Lemma resolver_comp2 f g :
  resolver f -> resolver g -> resolver (fun st => g (f st)).
Proof.
  intros Hf Hg oid. destruct (Hf oid) as [Hf1 Hf2], (Hg oid) as [Hg1 Hg2].
  split.
  - intros st. destruct (Hf1 st), (Hg1 (f st)). split; congruence.
  - destruct Hg2 as [[v Hv]|Hg2].
    + left. exists v. intros st. apply Hv.
    + destruct Hf2 as [[v Hv]|Hf2].
      * left. exists v. intros st. by rewrite Hg2.
      * right. intros st. by rewrite Hg2.
Qed.

Lemma _resolve_resolver2 e : forall parent0, resolver (_resolve parent0 e).
Proof.
  induction e as [s|b|z|f|oid keys modifier _|items IH] using Expr_ind2';
    intros parent0.
  - exact resolver_id2.
  - exact resolver_id2.
  - exact resolver_id2.
  - exact resolver_id2.
  - exact (resolver_set_parent2 oid parent0).
  - cbn [_resolve]. generalize (Some (Table items)). intros scope.
    induction IH as [|[k v p] rest (Hk & Hv & Hp) _ IHrest].
    + exact resolver_id2.
    + refine (resolver_comp2 _ _ _ IHrest). cbn in Hk, Hv, Hp.
      destruct p as [p'|].
      * exact (resolver_comp2 _ _ (resolver_comp2 _ _ (Hk scope) (Hv scope))
                 (Hp p' eq_refl scope)).
      * exact (resolver_comp2 _ _ (Hk scope) (Hv scope)).
Qed.

Lemma RefData_eq2 (d d' : RefData) :
  ref_parent d = ref_parent d' -> ref_cache d = ref_cache d' ->
  ref_evaluated d = ref_evaluated d' -> d = d'.
Proof. destruct d, d'. cbn. by intros -> -> ->. Qed.

Lemma resolver_fixes2 f st0 st1 :
  resolver f ->
  (forall oid, ref_parent (get st1 oid) = ref_parent (get (f st0) oid)) ->
  forall oid, get (f st1) oid = get st1 oid.
Proof.
  intros Hf Hp oid. destruct (Hf oid) as [Hce Hpar].
  destruct (Hce st1) as [Hc He].
  apply RefData_eq2; auto.
  destruct Hpar as [[v Hv]|Hsame]; [|apply Hsame].
  by rewrite Hp, !Hv.
Qed.

Lemma evaluate_twice2 _expr fuel st st1 :
  evaluate _expr fuel st = Return _expr st1 ->
  exists st2, evaluate _expr fuel st1 = Return _expr st2 /\
              forall oid, get st2 oid = get st1 oid.
Proof.
  unfold evaluate, bind, ret.
  set (parent0 := match _expr with Table _ => Some _expr | _ => None end).
  destruct (_evaluate _expr fuel _expr (_resolve parent0 _expr st))
    as [[] st'|?|] eqn:H1; try discriminate.
  intros [= <-].
  assert (Hfix : forall oid,
             get (_resolve parent0 _expr st') oid = get st' oid).
  { apply (resolver_fixes2 _ st); [apply _resolve_resolver2|].
    intros oid. apply (_evaluate_ext2 _ _ _ _ _ _ H1). }
  exists (_resolve parent0 _expr st'). split; [|exact Hfix].
  rewrite (proj1 (rerun2 _expr fuel) _ _ _ H1); [reflexivity|].
  intros oid Ho. by rewrite Hfix.
Qed.

(** *** The loops, step by step *)

Section LoopFacts2.
Variable unwrap : Expr -> Eval Expr.

Lemma scan_cons2 kv item rest current st :
  scan unwrap kv (item :: rest) current st =
  match unwrap (key item) st with
  | Return (Str iv) st' =>
      if String.eqb kv iv then Return (Some (value item)) st'
      else scan unwrap kv rest current st'
  | Return _ st' => Raise (TypeError "Expect string key for item.") st'
  | Raise e st' =>
      if is_RuntimeError e then scan unwrap kv rest current st' else Raise e st'
  | OutOfFuel => OutOfFuel
  end.
Proof.
  cbn [scan]. unfold bind, try_except, ret.
  destruct (unwrap (key item) st) as [ik st'|e st'|]; [| |reflexivity].
  - destruct ik; try reflexivity. by destruct (String.eqb _ _).
  - by destruct (is_RuntimeError e).
Qed.

Lemma segment_Some2 key0 cur st :
  segment unwrap key0 (Some cur) st =
  match unwrap cur st with
  | Return curry st1 =>
      match unwrap key0 st1 with
      | Return (Str kv) st2 =>
          match curry with
          | Table items => scan unwrap kv items (Some cur) st2
          | _ => Raise (TypeError "Expect table.") st2
          end
      | Return _ st2 => Raise (TypeError "Expect string key.") st2
      | Raise e st2 => Raise e st2
      | OutOfFuel => OutOfFuel
      end
  | Raise e st1 => Raise e st1
  | OutOfFuel => OutOfFuel
  end.
Proof.
  unfold segment, bind.
  destruct (unwrap cur st) as [curry st1|e st1|]; try reflexivity.
  destruct (unwrap key0 st1) as [key1 st2|e st2|]; try reflexivity.
  destruct key1; try reflexivity. by destruct curry.
Qed.

Lemma walk_cons2 key0 rest current st :
  walk unwrap (key0 :: rest) current st =
  match segment unwrap key0 current st with
  | Return current' st' => walk unwrap rest current' st'
  | Raise e st' => Raise e st'
  | OutOfFuel => OutOfFuel
  end.
Proof. reflexivity. Qed.
End LoopFacts2.

Lemma _unwrap_self_cached2 _expr n oid keys modifier :
  forall st,
    ref_evaluated (get st oid) = true ->
    ref_cache (get st oid) = Some (Ref oid keys modifier) ->
    _unwrap _expr n (Ref oid keys modifier) st = OutOfFuel.
Proof.
  induction n as [|m IH]; intros st Hf Hc; [reflexivity|].
  rewrite _unwrap_Ref2.
  destruct m as [|j]; [reflexivity|].
  rewrite _evaluate_Ref2. destruct j as [|i]; [reflexivity|].
  rewrite _evaluate_ref_done2 by done. rewrite Hc. by apply IH.
Qed.

Lemma _evaluate_Table2 _expr n items :
  _evaluate _expr (S n) (Table items) = _evaluate_table _expr n items.
Proof. reflexivity. Qed.

Lemma _evaluate_Str2 _expr n s st :
  _evaluate _expr (S n) (Str s) st = Return tt st.
Proof. reflexivity. Qed.

Lemma _unwrap_Str2 _expr n s st :
  _unwrap _expr (S n) (Str s) st = Return (Str s) st.
Proof. reflexivity. Qed.

Lemma _unwrap_Table2 _expr n items st :
  _unwrap _expr (S n) (Table items) st = Return (Table items) st.
Proof. reflexivity. Qed.

(** *** More fuel changes nothing of a finished run *)

Section RefinesLoops2.
Variables unwrap unwrap' : Expr -> Eval Expr.
Hypothesis refines_unwrap : forall e, refines (unwrap e) (unwrap' e).

Lemma refines_scan2 kv items current :
  refines (scan unwrap kv items current) (scan unwrap' kv items current).
Proof.
  induction items as [|item rest IH]; [apply refines_refl|].
  cbn [scan]. apply refines_bind.
  - apply refines_try_except, refines_bind; [apply refines_unwrap|].
    intros. apply refines_refl.
  - intros [[iv| | | | |]|]; try apply refines_refl; try apply IH.
    destruct (String.eqb kv iv); [apply refines_refl|apply IH].
Qed.

Lemma refines_segment2 key0 current :
  refines (segment unwrap key0 current) (segment unwrap' key0 current).
Proof.
  unfold segment. destruct current as [cur|]; [|apply refines_refl].
  apply refines_bind; [apply refines_unwrap|]. intros curry.
  apply refines_bind; [apply refines_unwrap|]. intros key1.
  destruct key1; try apply refines_refl.
  destruct curry; try apply refines_refl. apply refines_scan2.
Qed.

Lemma refines_walk2 keys current :
  refines (walk unwrap keys current) (walk unwrap' keys current).
Proof.
  revert current. induction keys as [|key0 rest IH]; intros current.
  - apply refines_refl.
  - cbn [walk]. apply refines_bind; [apply refines_segment2|]. intros r. apply IH.
Qed.
End RefinesLoops2.

Lemma refines_each_item2 evaluate0 evaluate0' items :
  (forall e, refines (evaluate0 e) (evaluate0' e)) ->
  refines (each_item evaluate0 items) (each_item evaluate0' items).
Proof.
  intros He. induction items as [|item rest IH]; [apply refines_refl|].
  cbn [each_item]. apply refines_bind; [apply He|]. intros _.
  apply refines_bind; [apply He|]. intros _. exact IH.
Qed.

Section FuelFacts2.
Variable _expr : Expr.

Lemma one_more_fuel2 n :
  (forall e, refines (_evaluate _expr n e) (_evaluate _expr (S n) e)) /\
  (forall oid keys modifier,
      refines (_evaluate_ref _expr n oid keys modifier)
              (_evaluate_ref _expr (S n) oid keys modifier)) /\
  (forall e, refines (_unwrap _expr n e) (_unwrap _expr (S n) e)) /\
  (forall items,
      refines (_evaluate_table _expr n items) (_evaluate_table _expr (S n) items)).
Proof.
  induction n as [|n (IHe & IHr & IHk & IHt)].
  { repeat split; intros; intros st []. }
  repeat split.
  - intros [ | | | |oid keys modifier|items]; try apply refines_refl.
    + rewrite !_evaluate_Ref2. apply IHr.
    + rewrite !_evaluate_Table2. apply IHt.
  - intros oid keys modifier st.
    destruct (ref_evaluated (get st oid)) eqn:Hflag.
    + by rewrite !_evaluate_ref_done2.
    + rewrite !_evaluate_ref_todo2 by done.
      apply refines_bind; [by apply refines_walk2|]. intros r. apply refines_refl.
  - intros [ | | | |oid keys modifier|items]; try apply refines_refl.
    intros st. rewrite !_unwrap_Ref2.
    pose proof (IHe (Ref oid keys modifier) st) as He.
    destruct (_evaluate _expr n (Ref oid keys modifier) st) as [[] st'|e st'|];
      [| |done].
    + rewrite He by done. destruct (ref_cache (get st' oid)); [apply IHk|done].
    + by rewrite He.
  - intros items. cbn [_evaluate_table]. by apply refines_each_item2.
Qed.

(** A run that finishes does the same with any larger fuel. *)
Lemma more_fuel2 n m e :
  n <= m -> refines (_evaluate _expr n e) (_evaluate _expr m e).
Proof.
  induction 1 as [|m _ IH]; [apply refines_refl|].
  eapply refines_trans; [exact IH|]. apply one_more_fuel2.
Qed.
End FuelFacts2.

(** The loop of [_unwrap] on a chain that ends. *)
Lemma _unwrap_chain2 _expr n e len r st st' :
  chain (_evaluate _expr n) e st len r st' ->
  forall fuel, n + len < fuel ->
  _unwrap _expr fuel e st =
  match r with
  | Some v => Return v st'
  | None => Raise (RuntimeError "Failed to evaluate reference.") st'
  end.
Proof.
  induction 1 as [v st Hv|oid keys modifier st st1 Hforce Hcache
                 |oid keys modifier st st1 c len r st2 Hforce Hcache _ IH];
    intros fuel Hfuel; (destruct fuel as [|m]; [lia|]).
  - by destruct v.
  - rewrite _unwrap_Ref2.
    rewrite (more_fuel2 _expr n m _ ltac:(lia) st) by (by rewrite Hforce).
    by rewrite Hforce, Hcache.
  - rewrite _unwrap_Ref2.
    rewrite (more_fuel2 _expr n m _ ltac:(lia) st) by (by rewrite Hforce).
    rewrite Hforce, Hcache. apply IH. lia.
Qed.

Lemma evaluate_more_fuel2 _expr n m st :
  n <= m -> finished (evaluate _expr n st) ->
  evaluate _expr m st = evaluate _expr n st.
Proof.
  intros Hle. unfold evaluate.
  apply (refines_bind _ _ _ _ (more_fuel2 _expr n m _expr Hle)
           (fun _ => refines_refl _)).
Qed.

(** *** A run that never ends

    On [table_loop] the cache of reference 0 becomes that reference
    itself; the second segment of reference 1 then unwraps it without
    end. *)
Lemma table_loop_diverges2 : diverges (fun fuel => evaluate table_loop fuel ∅).
Proof.
  intros fuel.
  do 5 (destruct fuel as [|fuel]; [vm_compute; reflexivity|]).
  unfold evaluate, bind, table_loop, ref.
  set (root := Table _).
  set (st0 := _resolve _ _ _).
  unfold root at 2. rewrite _evaluate_Table2. cbn [_evaluate_table each_item].
  unfold bind. cbn [key value entry].
  (* entry a: its value, reference 0, is cached as itself *)
  rewrite _evaluate_Str2, _evaluate_Ref2, _evaluate_ref_todo2 by reflexivity.
  unfold bind. rewrite walk_cons2, segment_Some2.
  unfold root at 2 4. rewrite _unwrap_Table2, _unwrap_Str2, scan_cons2.
  cbn [key value entry]. rewrite _unwrap_Str2.
  cbn [String.eqb Ascii.eqb Bool.eqb walk ret].
  set (st1 := set_cache 0 _ _).
  (* entry b: the second segment of reference 1 unwraps reference 0 *)
  rewrite _evaluate_Str2, _evaluate_Ref2, _evaluate_ref_todo2 by reflexivity.
  unfold bind. set (st2 := set_evaluated 1 true st1).
  rewrite walk_cons2, segment_Some2.
  unfold root at 2 4. rewrite _unwrap_Table2, _unwrap_Str2, scan_cons2.
  cbn [key value entry]. rewrite _unwrap_Str2.
  cbn [String.eqb Ascii.eqb Bool.eqb].
  rewrite walk_cons2, segment_Some2.
  rewrite _unwrap_self_cached2; reflexivity.
Qed.

(** *** A run only forces references *)

Lemma forces_refl2 st : forces st st.
Proof. intros oid. by left. Qed.

Lemma forces_trans2 st1 st2 st3 : forces st1 st2 -> forces st2 st3 -> forces st1 st3.
Proof.
  intros H12 H23 oid.
  destruct (H12 oid) as [E12|(F1 & T2 & P12)], (H23 oid) as [E23|(F2 & T3 & P23)].
  - left. congruence.
  - right. rewrite <- E12. auto.
  - right. rewrite E23. auto.
  - congruence.
Qed.

Lemma get_set_evaluated_ne2 st oid oid' b :
  oid' <> oid -> get (set_evaluated oid b st) oid' = get st oid'.
Proof. intros. unfold set_evaluated. by apply get_insert_ne2. Qed.

Lemma get_set_cache_ne2 st oid oid' c :
  oid' <> oid -> get (set_cache oid c st) oid' = get st oid'.
Proof. intros. unfold set_cache. by apply get_insert_ne2. Qed.

Lemma get_set_parent_ne2 st oid oid' p :
  oid' <> oid -> get (set_parent oid p st) oid' = get st oid'.
Proof. intros. unfold set_parent. by apply get_insert_ne2. Qed.

Lemma cache_set_cache_eq2 st oid c : ref_cache (get (set_cache oid c st) oid) = c.
Proof. unfold set_cache. by rewrite get_insert_eq2. Qed.

Section ForcesLoops2.
Variable unwrap : Expr -> Eval Expr.
Hypothesis unwrap_forces : forall e, preserves forces (unwrap e).

Lemma forces_scan2 kv items current :
  preserves forces (scan unwrap kv items current).
Proof.
  induction items as [|item rest IH]; cbn [scan].
  { apply preserves_ret, forces_refl2. }
  apply (preserves_bind _ forces_trans2).
  - apply (preserves_try_except _ forces_trans2).
    + apply (preserves_bind _ forces_trans2); [apply unwrap_forces|].
      intros ik. apply preserves_ret, forces_refl2.
    + apply preserves_ret, forces_refl2.
  - intros [[iv| | | | | ]|]; try apply preserves_raise, forces_refl2; try apply IH.
    destruct (String.eqb kv iv); [apply preserves_ret, forces_refl2|apply IH].
Qed.

Lemma forces_segment2 key0 current :
  preserves forces (segment unwrap key0 current).
Proof.
  unfold segment. destruct current as [cur|]; [|apply preserves_raise, forces_refl2].
  apply (preserves_bind _ forces_trans2); [apply unwrap_forces|]. intros curry.
  apply (preserves_bind _ forces_trans2); [apply unwrap_forces|].
  intros [kv| | | | | ]; try apply preserves_raise, forces_refl2.
  destruct curry; try apply preserves_raise, forces_refl2. apply forces_scan2.
Qed.

Lemma forces_walk2 keys current :
  preserves forces (walk unwrap keys current).
Proof.
  revert current.
  induction keys as [|key0 rest IH]; intros current; cbn [walk].
  { apply preserves_ret, forces_refl2. }
  apply (preserves_bind _ forces_trans2); [apply forces_segment2|].
  intros r. apply IH.
Qed.
End ForcesLoops2.

Lemma forces_each_item2 evaluate0 items :
  (forall e, preserves forces (evaluate0 e)) ->
  preserves forces (each_item evaluate0 items).
Proof.
  intros H. induction items as [|item rest IH]; cbn [each_item].
  { apply preserves_ret, forces_refl2. }
  apply (preserves_bind _ forces_trans2); [apply H|]. intros _.
  apply (preserves_bind _ forces_trans2); [apply H|]. intros _. apply IH.
Qed.

Section ForcesMethods2.
Variable _expr : Expr.

Lemma forces_methods2 n :
  (forall e, preserves forces (_evaluate _expr n e)) /\
  (forall oid keys modifier, preserves forces (_evaluate_ref _expr n oid keys modifier)) /\
  (forall items, preserves forces (_evaluate_table _expr n items)) /\
  (forall e, preserves forces (_unwrap _expr n e)).
Proof.
  induction n as [|n (IHe & IHr & IHt & IHu)].
  { repeat split; intros; apply preserves_out_of_fuel. }
  repeat split.
  - intros [ | | | |oid keys modifier|items]; cbn [_evaluate];
      auto using preserves_ret, preserves_raise, forces_refl2.
  - intros oid keys modifier st.
    destruct (ref_evaluated (get st oid)) eqn:Hflag.
    + rewrite _evaluate_ref_done2 by done. apply forces_refl2.
    + rewrite _evaluate_ref_todo2 by done. unfold bind.
      assert (H1 : forces st (set_evaluated oid true st)).
      { intros oid'. destruct (decide (oid' = oid)) as [->|Hne].
        - right. rewrite evaluated_set_evaluated2, parent_set_evaluated2.
          by case_decide.
        - left. by apply get_set_evaluated_ne2. }
      pose proof (forces_walk2 _ IHu keys
        match modifier with
        | RefModifier.ABSOLUTE => Some _expr
        | RefModifier.RELATIVE => ref_parent (get st oid)
        end (set_evaluated oid true st)) as H2.
      destruct (walk _ _ _ _) as [c st2|e st2|]; auto.
      * pose proof (forces_trans2 _ _ _ H1 H2) as H12.
        intros oid'. destruct (decide (oid' = oid)) as [->|Hne].
        -- right. rewrite evaluated_set_cache2, parent_set_cache2.
           assert (T1 : ref_evaluated (get (set_evaluated oid true st) oid) = true).
           { rewrite evaluated_set_evaluated2. by case_decide. }
           destruct (H2 oid) as [E2|(F2 & _)]; [|congruence].
           rewrite E2, parent_set_evaluated2. auto.
        -- rewrite get_set_cache_ne2 by done. apply H12.
      * eapply forces_trans2; eauto.
  - intros items. cbn [_evaluate_table]. by apply forces_each_item2.
  - intros [ | | | |oid keys modifier|items]; cbn [_unwrap];
      auto using preserves_ret, preserves_raise, forces_refl2.
    apply (preserves_bind _ forces_trans2); [apply IHe|]. intros _ st.
    destruct (ref_cache (get st oid)); [apply IHu|apply forces_refl2].
Qed.
End ForcesMethods2.

(** *** Every reference gone through is flagged *)

Lemma _evaluate_visited2 _expr n :
  (forall e st st',
      _evaluate _expr n e st = Return tt st' ->
      forall oid, In oid (visited e) -> ref_evaluated (get st' oid) = true) /\
  (forall items st st',
      _evaluate_table _expr n items st = Return tt st' ->
      forall oid, In oid (visited (Table items)) -> ref_evaluated (get st' oid) = true).
Proof.
  induction n as [|n [IHe IHt]]; [split; discriminate|].
  split.
  - intros [ | | | |oid keys modifier|items] st st'; cbn [_evaluate];
      try discriminate; try (by intros _ ? ?).
    + intros Hr oid' [<-|[]]. eapply _evaluate_ref_flags2; eauto.
    + apply IHt.
  - intros items. cbn [_evaluate_table visited].
    induction items as [|[k v p] rest IHitems]; intros st st' H oid Hin;
      [destruct Hin|].
    cbn [each_item key value] in H. unfold bind in H.
    destruct (_evaluate _expr n k st) as [[] st1|?|] eqn:H1; try discriminate.
    destruct (_evaluate _expr n v st1) as [[] st2|?|] eqn:H2; try discriminate.
    cbn [flat_map] in Hin. rewrite !in_app_iff in Hin.
    assert (Hrest : ext st2 st').
    { pose proof (keeps_each_item2 (_evaluate _expr n) rest
                    (proj1 (keeps_methods2 _expr n)) st2) as Hk.
      by rewrite H in Hk. }
    destruct Hin as [[Hk|Hv]|Hr].
    + apply Hrest. apply (_evaluate_ext2 _ _ _ _ _ _ H2). eapply IHe; eauto.
    + apply Hrest. eapply IHe; eauto.
    + eapply IHitems; eauto.
Qed.

(** *** What the unwrapping loop returns *)

Lemma _unwrap_returns_no_Ref _expr n :
  forall e st r st',
    _unwrap _expr n e st = Return r st' -> is_Ref r = false.
Proof.
  induction n as [|n IH]; [discriminate|].
  intros [s|b|z|f|oid keys modifier|items] st r st'; cbn [_unwrap];
    try (by intros [= <- _]).
  unfold bind. destruct (_evaluate _expr n _ st) as [[] st1|?|]; try discriminate.
  destruct (ref_cache (get st1 oid)) as [c|]; [|discriminate]. apply IH.
Qed.

(** *** Paths through tables with string keys *)

Section Plain2.
Variable _expr : Expr.

Lemma _unwrap_plain2 n e st :
  is_Ref e = false -> _unwrap _expr (S n) e st = Return e st.
Proof. by destruct e. Qed.

Lemma scan_plain2 n kv items current st :
  forallb (fun item => is_Str (key item)) items = true ->
  scan (_unwrap _expr (S n)) kv items (Some current) st =
  Return (Some (default current (find_entry kv items))) st.
Proof.
  induction items as [|item rest IH]; [done|].
  cbn [forallb find_entry]. intros Hall.
  apply andb_prop in Hall as [Hk Hrest].
  rewrite scan_cons2.
  destruct (key item) as [s| | | | | ]; try discriminate.
  rewrite _unwrap_Str2.
  destruct (String.eqb kv s); [done|by apply IH].
Qed.

Lemma walk_follow2 n ks :
  forall cur v st,
    follow ks cur = Some v ->
    walk (_unwrap _expr (S n)) (map Str ks) (Some cur) st = Return (Some v) st.
Proof.
  induction ks as [|kv rest IH]; intros cur v st; cbn [follow map].
  { by intros [= <-]. }
  intros H. rewrite walk_cons2.
  destruct cur as [ | | | | |items]; try discriminate.
  destruct (forallb _ items) eqn:Hall; [|discriminate].
  rewrite segment_Some2, _unwrap_Table2, _unwrap_Str2.
  rewrite scan_plain2 by done. by apply IH.
Qed.

Lemma _evaluate_ref_follow2 n oid ks modifier st start v :
  ref_evaluated (get st oid) = false ->
  match modifier with
  | RefModifier.ABSOLUTE => Some _expr
  | RefModifier.RELATIVE => ref_parent (get st oid)
  end = Some start ->
  follow ks start = Some v ->
  _evaluate_ref _expr (S (S n)) oid (map Str ks) modifier st =
  Return tt (set_cache oid (Some v) (set_evaluated oid true st)).
Proof.
  intros Hflag Hstart Hfollow.
  rewrite _evaluate_ref_todo2 by done. rewrite Hstart. unfold bind.
  by rewrite (walk_follow2 n ks start v _ Hfollow).
Qed.
End Plain2.

(** *** The scopes the resolver pass writes *)

Lemma writes_scopes_id2 p : writes_scopes [] p (fun st => st).
Proof. intros oid st. split; [intros []|done]. Qed.

Lemma writes_scopes_comp2 l1 l2 p f g :
  writes_scopes l1 p f -> writes_scopes l2 p g ->
  writes_scopes (l1 ++ l2) p (fun st => g (f st)).
Proof.
  intros Hf Hg oid st. rewrite in_app_iff.
  destruct (in_dec Nat.eq_dec oid l2) as [H2|H2].
  - split; [|tauto]. intros _. by apply Hg.
  - rewrite (proj2 (Hg oid (f st)) H2). split.
    + intros [H1|?]; [|done]. by apply Hf.
    + intros H. apply Hf. tauto.
Qed.

Lemma writes_scopes_table2 l t p f :
  is_Table t = true -> writes_scopes l (Some t) f -> writes_scopes l p f.
Proof.
  intros Ht Hf oid st. split; [|apply Hf].
  intros Hin. right. destruct (proj1 (Hf oid st) Hin) as [H|H]; eauto.
Qed.

Lemma _resolve_writes_scopes2 e :
  forall parent0, writes_scopes (resolved e) parent0 (_resolve parent0 e).
Proof.
  induction e as [s|b|z|f|oid keys modifier _|items IH] using Expr_ind2';
    intros parent0; try exact (writes_scopes_id2 parent0).
  - intros oid' st. cbn [_resolve resolved]. split.
    + intros [<-|[]]. left. rewrite parent_set_parent2. by case_decide.
    + intros Hne. apply get_set_parent_ne2. intros ->. apply Hne. by left.
  - apply (writes_scopes_table2 _ (Table items)); [done|].
    cbn [_resolve resolved]. generalize (Some (Table items)). intros scope.
    induction IH as [|[k v p] rest (Hk & Hv & Hp) _ IHrest].
    + exact (writes_scopes_id2 scope).
    + refine (writes_scopes_comp2 _ _ _ _ _ _ IHrest). cbn in Hk, Hv, Hp.
      destruct p as [p'|].
      * exact (writes_scopes_comp2 _ _ _ _ _ (Hk scope)
                 (writes_scopes_comp2 _ _ _ _ _ (Hv scope) (Hp p' eq_refl scope))).
      * rewrite app_nil_r.
        exact (writes_scopes_comp2 _ _ _ _ _ (Hk scope) (Hv scope)).
Qed.

(** *** A reference as the whole document *)

Lemma evaluate_root_Ref2 n oid key0 keys st :
  ref_evaluated (get st oid) = false ->
  ref_cache (get st oid) = None ->
  evaluate (Ref oid (key0 :: keys) RefModifier.ABSOLUTE) (S (S (S (S (S n))))) st =
  Raise (RuntimeError "Failed to evaluate reference.")
    (set_evaluated oid true (set_parent oid None st)).
Proof.
  intros Hflag Hcache. unfold evaluate, bind. cbn [_resolve].
  rewrite _evaluate_Ref2.
  rewrite _evaluate_ref_todo2 by (by rewrite evaluated_set_parent2).
  unfold bind. rewrite walk_cons2, segment_Some2, _unwrap_Ref2, _evaluate_Ref2.
  rewrite _evaluate_ref_done2
    by (rewrite evaluated_set_evaluated2; by case_decide).
  assert (Hc : ref_cache (get (set_evaluated oid true (set_parent oid None st)) oid)
               = None).
  { unfold set_evaluated. rewrite get_insert_eq2. cbn.
    by rewrite cache_set_parent2. }
  by rewrite Hc.
Qed.

Lemma evaluate_root_Ref_no_keys2 n oid modifier st :
  ref_evaluated (get st oid) = false ->
  evaluate (Ref oid [] modifier) (S (S n)) st =
  Return (Ref oid [] modifier)
    (set_cache oid
       match modifier with
       | RefModifier.ABSOLUTE => Some (Ref oid [] modifier)
       | RefModifier.RELATIVE => None
       end
       (set_evaluated oid true (set_parent oid None st))).
Proof.
  intros Hflag. unfold evaluate, bind. cbn [_resolve].
  rewrite _evaluate_Ref2.
  rewrite _evaluate_ref_todo2 by (by rewrite evaluated_set_parent2).
  unfold bind. cbn [walk ret].
  destruct modifier; [done|].
  by rewrite parent_set_parent2, decide_True.
Qed.

(** *** The scope of each reference after the resolver pass *)

Lemma with_scope_later2 a b d :
  with_scope (later a b) d = with_scope a (with_scope b d).
Proof. by destruct a, b. Qed.

Lemma sets_scopes_id2 : sets_scopes (fun _ => None) (fun st => st).
Proof. by intros st oid. Qed.

Lemma sets_scopes_set_parent2 oid p :
  sets_scopes (fun oid' => if Nat.eqb oid' oid then Some p else None)
    (set_parent oid p).
Proof.
  intros st oid'. destruct (Nat.eqb_spec oid' oid) as [->|Hne].
  - unfold set_parent. by rewrite get_insert_eq2.
  - by apply get_set_parent_ne2.
Qed.

Lemma sets_scopes_comp2 s1 s2 f1 f2 :
  sets_scopes s1 f1 -> sets_scopes s2 f2 ->
  sets_scopes (fun oid => later (s2 oid) (s1 oid)) (fun st => f2 (f1 st)).
Proof.
  intros H1 H2 st oid. by rewrite H2, H1, with_scope_later2.
Qed.

Lemma sets_scopes_ext2 s s' f :
  (forall oid, s oid = s' oid) -> sets_scopes s f -> sets_scopes s' f.
Proof. intros Hs Hf st oid. by rewrite <- Hs. Qed.

Lemma _resolve_sets_scopes2 e :
  forall parent0,
    sets_scopes (fun oid => scope_of parent0 e oid) (_resolve parent0 e).
Proof.
  induction e as [s|b|z|f|oid keys modifier _|items IH] using Expr_ind2';
    intros parent0; try exact sets_scopes_id2.
  - exact (sets_scopes_set_parent2 oid parent0).
  - cbn [_resolve scope_of]. generalize (Some (Table items)). intros scope.
    induction IH as [|[k v p] rest (Hk & Hv & Hp) _ IHrest].
    + exact sets_scopes_id2.
    + cbn in Hk, Hv, Hp.
      assert (Hitem : sets_scopes
                (fun oid =>
                   match p with
                   | Some p' =>
                       later (scope_of scope p' oid)
                         (later (scope_of scope v oid) (scope_of scope k oid))
                   | None => later (scope_of scope v oid) (scope_of scope k oid)
                   end)
                (fun st =>
                   match p with
                   | Some p' => _resolve scope p' (_resolve scope v (_resolve scope k st))
                   | None => _resolve scope v (_resolve scope k st)
                   end)).
      { destruct p as [p'|].
        - exact (sets_scopes_comp2 _ _ _ _
                   (sets_scopes_comp2 _ _ _ _ (Hk scope) (Hv scope))
                   (Hp p' eq_refl scope)).
        - exact (sets_scopes_comp2 _ _ _ _ (Hk scope) (Hv scope)). }
      eapply sets_scopes_ext2; [|exact (sets_scopes_comp2 _ _ _ _ Hitem IHrest)].
      intros oid. cbn [fold_left]. rewrite later_None. symmetry.
      apply (fold_later _
               (fun item =>
                  match item with
                  | Build_TableItem k v (Some p') =>
                      later (scope_of scope p' oid)
                        (later (scope_of scope v oid) (scope_of scope k oid))
                  | Build_TableItem k v None =>
                      later (scope_of scope v oid) (scope_of scope k oid)
                  end)).
      intros acc [k' v' [p'|]]; by rewrite !later_assoc.
Qed.

(** *** A reference whose forcing failed *)

Lemma _evaluate_ref_raise_sticky2 _expr n oid keys modifier st e st' :
  ref_evaluated (get st oid) = false ->
  _evaluate_ref _expr n oid keys modifier st = Raise e st' ->
  get st' oid = get (set_evaluated oid true st) oid.
Proof.
  intros Hflag. destruct n as [|n]; [discriminate|].
  rewrite _evaluate_ref_todo2 by done. unfold bind.
  pose proof (forces_walk2 _ (proj2 (proj2 (proj2 (forces_methods2 _expr n)))) keys
    match modifier with
    | RefModifier.ABSOLUTE => Some _expr
    | RefModifier.RELATIVE => ref_parent (get st oid)
    end (set_evaluated oid true st)) as H2.
  destruct (walk _ _ _ _) as [c st2|e2 st2|]; try discriminate.
  intros [= _ <-].
  destruct (H2 oid) as [E|(F & _)]; [exact E|].
  rewrite evaluated_set_evaluated2 in F. by case_decide.
Qed.

(** *** The scan of the entries, after a run of entries that are passed *)

Section Scan2.
Variable unwrap : Expr -> Eval Expr.

Lemma scan_passed2 kv pre rest current st st1 :
  passed unwrap kv pre st st1 ->
  scan unwrap kv (pre ++ rest) current st = scan unwrap kv rest current st1.
Proof.
  induction 1 as [st|item pre e st st1 st2 He Hc _ IH
                 |item pre iv st st1 st2 Hk Hne _ IH]; [reflexivity| |].
  - cbn [app]. by rewrite scan_cons2, He, Hc.
  - cbn [app]. by rewrite scan_cons2, Hk, Hne.
Qed.

Lemma walk_app2 keys1 keys2 current st :
  walk unwrap (keys1 ++ keys2) current st =
  match walk unwrap keys1 current st with
  | Return current' st' => walk unwrap keys2 current' st'
  | Raise e st' => Raise e st'
  | OutOfFuel => OutOfFuel
  end.
Proof.
  revert current st.
  induction keys1 as [|key0 rest IH]; intros current st; [reflexivity|].
  rewrite <- app_comm_cons, !walk_cons2.
  destruct (segment unwrap key0 current st) as [r st'|e st'|];
    [apply IH|reflexivity|reflexivity].
Qed.
End Scan2.

(** The last key segment of a reference finds an entry: the cache is the
    value of that entry. *)
Lemma _evaluate_ref_last_segment2 _expr n oid keys key0 modifier st
      cur pre item post st1 st2 kv st3 st4 st5 :
  ref_evaluated (get st oid) = false ->
  walk (_unwrap _expr n) keys
    match modifier with
    | RefModifier.ABSOLUTE => Some _expr
    | RefModifier.RELATIVE => ref_parent (get st oid)
    end (set_evaluated oid true st) = Return (Some cur) st1 ->
  _unwrap _expr n cur st1 = Return (Table (pre ++ item :: post)) st2 ->
  _unwrap _expr n key0 st2 = Return (Str kv) st3 ->
  passed (_unwrap _expr n) kv pre st3 st4 ->
  _unwrap _expr n (key item) st4 = Return (Str kv) st5 ->
  _evaluate_ref _expr (S n) oid (keys ++ [key0]) modifier st =
  Return tt (set_cache oid (Some (value item)) st5).
Proof.
  intros Hflag Hwalk Hcur Hkey Hpre Hitem.
  rewrite _evaluate_ref_todo2 by done. unfold bind.
  rewrite walk_app2, Hwalk.
  rewrite walk_cons2, segment_Some2, Hcur, Hkey.
  rewrite (scan_passed2 _ _ _ _ _ _ _ Hpre), scan_cons2, Hitem.
  by rewrite String.eqb_refl.
Qed.

End Evaluator2Facts.

(** * Facts about the two prototypes together *)

Module BothFacts.
Import Both.

Lemma embed_Table items :
  embed (Evaluator2.Table items) = Evaluator.Table (map embed_item items).
Proof. reflexivity. Qed.

Lemma find_entry_embed kv items :
  Evaluator.find_entry kv (map embed_item items) =
  option_map embed (Evaluator2.find_entry kv items).
Proof.
  induction items as [|[k v p] rest IH]; [reflexivity|].
  cbn [map embed_item Evaluator.find_entry Evaluator2.find_entry
       Evaluator.key Evaluator2.key Evaluator.value Evaluator2.value].
  destruct k as [s| | | | | ]; cbn [embed]; try exact IH.
  destruct (String.eqb kv s); [reflexivity|exact IH].
Qed.

Lemma no_Ref_keys_embed items :
  forallb (fun item => Evaluator2.is_Str (Evaluator2.key item)) items = true ->
  forallb (fun item => negb (Evaluator.is_Ref (Evaluator.key item)))
    (map embed_item items) = true.
Proof.
  induction items as [|[k v p] rest IH]; [reflexivity|].
  cbn [forallb map embed_item Evaluator.key Evaluator2.key].
  intros H. apply andb_prop in H as [Hk Hrest].
  rewrite IH by done. by destruct k.
Qed.

Lemma follow_embed st ks :
  forall cur v1 v2,
    Evaluator.follow st ks (embed cur) = Some v1 ->
    Evaluator2.follow ks cur = Some v2 ->
    v1 = embed v2.
Proof.
  induction ks as [|kv rest IH]; intros cur v1 v2.
  { cbn. congruence. }
  cbn [Evaluator2.follow].
  destruct cur as [ | | | | |items]; try discriminate.
  rewrite embed_Table. cbn [Evaluator.follow].
  destruct (forallb _ items) eqn:Hall; [|discriminate].
  rewrite no_Ref_keys_embed, find_entry_embed by done.
  destruct (Evaluator.repr_raises st _); [discriminate|]. cbn [andb negb].
  destruct (Evaluator2.find_entry kv items) as [v|]; [|discriminate].
  cbn [option_map default]. apply IH.
Qed.
End BothFacts.

(** * The claims of the specification, settled on the two prototypes *)

Module Claims.
Import Evaluator EvaluatorFacts.

(** ** C1: a reference re-entered while being resolved *)

(** C1, as the specification states it, fails: forcing a reference whose
    flag is already set raises nothing.  On [table_cyclic_key], reference
    0 is met again while its own lookup scans the table; the re-entered
    call returns normally, the store is as it was and the cache is still
    absent.  The whole run of [evaluate] on that tree ends without an
    error.  The same holds for a flagged reference in evaluator2.py. *)
Lemma C1_reentry_raises_nothing :
  _evaluated (get (in_progress 0) 0) = true /\
  ~ fails (_evaluate_ref table_cyclic_key 5 0 [Str "x"] RefModifier.ABSOLUTE
             (in_progress 0)) /\
  _evaluate_ref table_cyclic_key 5 0 [Str "x"] RefModifier.ABSOLUTE (in_progress 0)
    = Return tt (in_progress 0) /\
  _cache (get (in_progress 0) 0) = None /\
  (exists st', evaluate table_cyclic_key 10 ∅ = Return table_cyclic_key st' /\
               _cache (get st' 0) = Some (Str "k")) /\
  Evaluator2._evaluate_ref Evaluator2.table_a1 5 0 [Evaluator2.Str "a"]
    Evaluator2.RefModifier.ABSOLUTE (Evaluator2.in_progress 0)
    = Return tt (Evaluator2.in_progress 0).
Proof.
  split; [reflexivity|]. split; [intros []|]. split; [reflexivity|].
  split; [reflexivity|]. split; [|reflexivity].
  eexists. split; vm_compute; reflexivity.
Qed.

(** C1, amended: in both prototypes, forcing a reference whose flag is
    already set returns at once, raises nothing and leaves the store, and
    so the cache, as it was.  The failure is reported by the caller that
    needs the value: unwrapping such a reference while its cache is still
    absent raises [RuntimeError]. *)
Theorem C1_reentry_returns_at_once :
  forall (root : Expr) (root2 : Evaluator2.Expr) n oid
         keys modifier keys2 modifier2
         (st : gmap nat RefData) (st2 : gmap nat Evaluator2.RefData),
    _evaluated (get st oid) = true ->
    Evaluator2.ref_evaluated (Evaluator2.get st2 oid) = true ->
    (_evaluate_ref root (S n) oid keys modifier st = Return tt st /\
     (_cache (get st oid) = None ->
      _evaluate_key root (S (S (S n))) (Ref oid keys modifier) st =
      Raise (RuntimeError "Failed to evaluate reference.") st)) /\
    (Evaluator2._evaluate_ref root2 (S n) oid keys2 modifier2 st2 = Return tt st2 /\
     (Evaluator2.ref_cache (Evaluator2.get st2 oid) = None ->
      Evaluator2._unwrap root2 (S (S (S n))) (Evaluator2.Ref oid keys2 modifier2) st2 =
      Raise (Evaluator2.RuntimeError "Failed to evaluate reference.") st2)).
Proof.
  intros root root2 n oid keys modifier keys2 modifier2 st st2 Hflag Hflag2.
  split; split.
  - by apply _evaluate_ref_done.
  - intros Hcache. by apply _evaluate_key_no_value.
  - by apply Evaluator2Facts._evaluate_ref_done2.
  - intros Hcache.
    rewrite Evaluator2Facts._unwrap_Ref2, Evaluator2Facts._evaluate_Ref2,
      Evaluator2Facts._evaluate_ref_done2 by done.
    by rewrite Hcache.
Qed.

Lemma C1_witness :
  (_evaluate_ref table_cyclic_key 5 0 [Str "x"] RefModifier.ABSOLUTE (in_progress 0)
     = Return tt (in_progress 0) /\
   (_cache (get (in_progress 0) 0) = None ->
    _evaluate_key table_cyclic_key 7 (Ref 0 [Str "x"] RefModifier.ABSOLUTE)
      (in_progress 0) =
    Raise (RuntimeError "Failed to evaluate reference.") (in_progress 0))) /\
  (Evaluator2._evaluate_ref Evaluator2.table_a1 5 0 [Evaluator2.Str "a"]
     Evaluator2.RefModifier.ABSOLUTE (Evaluator2.in_progress 0)
     = Return tt (Evaluator2.in_progress 0) /\
   (Evaluator2.ref_cache (Evaluator2.get (Evaluator2.in_progress 0) 0) = None ->
    Evaluator2._unwrap Evaluator2.table_a1 7
      (Evaluator2.Ref 0 [Evaluator2.Str "a"] Evaluator2.RefModifier.ABSOLUTE)
      (Evaluator2.in_progress 0) =
    Raise (Evaluator2.RuntimeError "Failed to evaluate reference.")
      (Evaluator2.in_progress 0))).
Proof.
  apply (C1_reentry_returns_at_once table_cyclic_key Evaluator2.table_a1 4 0
           [Str "x"] RefModifier.ABSOLUTE
           [Evaluator2.Str "a"] Evaluator2.RefModifier.ABSOLUTE
           (in_progress 0) (Evaluator2.in_progress 0));
    reflexivity.
Defined.

(** ** C2: what the cache holds *)

(** C2, as the specification states it, fails: on [table_chain] the run
    succeeds in both prototypes and the cache of reference 0 is the
    reference found at entry [a], not a scalar or a table. *)
Lemma C2_cache_holds_a_reference :
  (exists st', evaluate table_chain 10 ∅ = Return table_chain st' /\
               _cache (get st' 0) = Some (ref 1 [Str "b"])) /\
  (exists st', Evaluator2.evaluate Evaluator2.table_chain 10 ∅ =
               Return Evaluator2.table_chain st' /\
               Evaluator2.ref_cache (Evaluator2.get st' 0) =
               Some (Evaluator2.ref 1 [Evaluator2.Str "b"])).
Proof.
  split; eexists; split; vm_compute; reflexivity.
Qed.

(** C2, amended (both prototypes): when the last key segment of a
    reference is looked up in a table and matches an entry, the cache is
    set to that entry's value exactly as it stands in the table, with no
    unwrapping; so it is a scalar or a table only when that value is one,
    and it is a reference when that value is a reference.

    In evaluator.py the hypotheses say: the reference is not flagged;
    the segments before the last lead to the table
    [pre ++ item :: post]; the last key unwraps to [key1]; no entry of
    [pre] matches; the key of [item] unwraps to a match; and the line
    that the scan prints for each of these entries is printed without an
    error.  In evaluator2.py: the reference is not flagged; the segments
    before the last lead to [cur], which unwraps to the table; the last
    key unwraps to the string [kv]; the entries of [pre] are passed; the
    key of [item] unwraps to [kv]. *)
Theorem C2_cache_is_the_matched_value :
  (forall (_expr : Expr) n oid keys key0 modifier (st : gmap nat RefData)
          pre item post item_key st1 key1 st2 item_key1 st3 ik st4,
      _evaluated (get st oid) = false ->
      walk (_evaluate_key _expr n) keys
        match modifier with
        | RefModifier.ABSOLUTE => Some _expr
        | RefModifier.RELATIVE => _parent (get st oid)
        end None (set_evaluated oid true st) =
      Return (Some (Table (pre ++ item :: post)), item_key) st1 ->
      _evaluate_key _expr n key0 st1 = Return key1 st2 ->
      no_match (_evaluate_key _expr n) key1 (Table (pre ++ item :: post)) pre
        st2 item_key st3 item_key1 ->
      _evaluate_key _expr n (key item) st3 = Return ik st4 ->
      key_matches key1 ik = true ->
      print_ "MATCH" [key1; key item; Table (pre ++ item :: post)] st4 =
      Return tt st4 ->
      _evaluate_ref _expr (S n) oid (keys ++ [key0]) modifier st =
      Return tt (set_cache oid (Some (value item)) st4) /\
      _cache (get (set_cache oid (Some (value item)) st4) oid) =
      Some (value item)) /\
  (forall (_expr : Evaluator2.Expr) n oid keys key0 modifier
          (st : gmap nat Evaluator2.RefData)
          cur pre item post st1 st2 kv st3 st4 st5,
      Evaluator2.ref_evaluated (Evaluator2.get st oid) = false ->
      Evaluator2.walk (Evaluator2._unwrap _expr n) keys
        match modifier with
        | Evaluator2.RefModifier.ABSOLUTE => Some _expr
        | Evaluator2.RefModifier.RELATIVE =>
            Evaluator2.ref_parent (Evaluator2.get st oid)
        end (Evaluator2.set_evaluated oid true st) = Return (Some cur) st1 ->
      Evaluator2._unwrap _expr n cur st1 =
      Return (Evaluator2.Table (pre ++ item :: post)) st2 ->
      Evaluator2._unwrap _expr n key0 st2 = Return (Evaluator2.Str kv) st3 ->
      Evaluator2.passed (Evaluator2._unwrap _expr n) kv pre st3 st4 ->
      Evaluator2._unwrap _expr n (Evaluator2.key item) st4 =
      Return (Evaluator2.Str kv) st5 ->
      Evaluator2._evaluate_ref _expr (S n) oid (keys ++ [key0]) modifier st =
      Return tt (Evaluator2.set_cache oid (Some (Evaluator2.value item)) st5) /\
      Evaluator2.ref_cache
        (Evaluator2.get
           (Evaluator2.set_cache oid (Some (Evaluator2.value item)) st5) oid) =
      Some (Evaluator2.value item)).
Proof.
  split.
  - intros. split; [|apply cache_set_cache_eq].
    eapply _evaluate_ref_last_segment; eauto.
  - intros. split; [|apply Evaluator2Facts.cache_set_cache_eq2].
    eapply Evaluator2Facts._evaluate_ref_last_segment2; eauto.
Qed.

(** The witness: reference 0 of [table_chain], in both prototypes; its
    cache is reference 1. *)
Lemma C2_witness :
  (_evaluate_ref table_chain 3 0 ([] ++ [Str "a"]) RefModifier.ABSOLUTE ∅ =
   Return tt (set_cache 0 (Some (ref 1 [Str "b"])) (set_evaluated 0 true ∅)) /\
   _cache (get (set_cache 0 (Some (ref 1 [Str "b"])) (set_evaluated 0 true ∅)) 0) =
   Some (ref 1 [Str "b"])) /\
  (Evaluator2._evaluate_ref Evaluator2.table_chain 3 0 ([] ++ [Evaluator2.Str "a"])
     Evaluator2.RefModifier.ABSOLUTE ∅ =
   Return tt (Evaluator2.set_cache 0 (Some (Evaluator2.ref 1 [Evaluator2.Str "b"]))
                (Evaluator2.set_evaluated 0 true ∅)) /\
   Evaluator2.ref_cache
     (Evaluator2.get
        (Evaluator2.set_cache 0 (Some (Evaluator2.ref 1 [Evaluator2.Str "b"]))
           (Evaluator2.set_evaluated 0 true ∅)) 0) =
   Some (Evaluator2.ref 1 [Evaluator2.Str "b"])).
Proof.
  split.
  - apply (proj1 C2_cache_is_the_matched_value table_chain 2 0 [] (Str "a")
             RefModifier.ABSOLUTE ∅
             [entry (Str "x") (ref 0 [Str "a"])]
             (entry (Str "a") (ref 1 [Str "b"]))
             [entry (Str "b") (Str "1")]
             None (set_evaluated 0 true ∅) (Str "a") (set_evaluated 0 true ∅)
             (Some (Str "x")) (set_evaluated 0 true ∅)
             (Str "a") (set_evaluated 0 true ∅));
      try reflexivity.
    eapply no_match_differs;
      [reflexivity|reflexivity|reflexivity|apply no_match_nil].
  - apply (proj2 C2_cache_is_the_matched_value Evaluator2.table_chain 2 0 []
             (Evaluator2.Str "a") Evaluator2.RefModifier.ABSOLUTE ∅
             Evaluator2.table_chain
             [Evaluator2.entry (Evaluator2.Str "x")
                (Evaluator2.ref 0 [Evaluator2.Str "a"])]
             (Evaluator2.entry (Evaluator2.Str "a")
                (Evaluator2.ref 1 [Evaluator2.Str "b"]))
             [Evaluator2.entry (Evaluator2.Str "b") (Evaluator2.Str "1")]
             (Evaluator2.set_evaluated 0 true ∅)
             (Evaluator2.set_evaluated 0 true ∅) "a"
             (Evaluator2.set_evaluated 0 true ∅)
             (Evaluator2.set_evaluated 0 true ∅)
             (Evaluator2.set_evaluated 0 true ∅));
      try reflexivity.
    eapply Evaluator2.passed_differs;
      [reflexivity|reflexivity|apply Evaluator2.passed_nil].
Defined.

(** ** C3: no entry matches *)

(** C3, as the specification states it, fails.  Looking up ["b"] in
    [Table{ a: "1" }] raises [KeyError] in evaluator.py, but the error
    names the key looked up and the last entry key unwrapped, [Str "a"],
    which is not the table searched; and in evaluator2.py the same lookup
    raises nothing: the loop ends and the cache is set to the table. *)
Lemma C3_error_does_not_name_the_table :
  _evaluate_ref table_a1 5 7 [Str "b"] RefModifier.ABSOLUTE ∅ =
  Raise (KeyError "Key not found." (Str "b") (Str "a")) (set_evaluated 7 true ∅) /\
  Str "a" <> table_a1 /\
  (exists st', Evaluator2._evaluate_ref Evaluator2.table_a1 5 7 [Evaluator2.Str "b"]
                 Evaluator2.RefModifier.ABSOLUTE ∅ = Return tt st' /\
               Evaluator2.ref_cache (Evaluator2.get st' 7) = Some Evaluator2.table_a1).
Proof.
  split; [reflexivity|]. split; [discriminate|].
  eexists. split; vm_compute; reflexivity.
Qed.

(** C3, amended (evaluator.py): when a key segment is looked up in a
    table, every entry is scanned without a match (the line printed for
    each entry being printed without an error), and some entry key has
    been unwrapped by then (so the local [item_key] is bound, to
    [last]), forcing the reference raises [KeyError] with the arguments
    ["Key not found."], the key looked up and [last].  The keys after
    that segment are not looked at. *)
Theorem C3_no_match_raises_KeyError :
  forall _expr n oid keys key0 rest modifier st
         items item_key st1 key1 st2 st3 last,
    _evaluated (get st oid) = false ->
    walk (_evaluate_key _expr n) keys
      match modifier with
      | RefModifier.ABSOLUTE => Some _expr
      | RefModifier.RELATIVE => _parent (get st oid)
      end None (set_evaluated oid true st) =
    Return (Some (Table items), item_key) st1 ->
    _evaluate_key _expr n key0 st1 = Return key1 st2 ->
    no_match (_evaluate_key _expr n) key1 (Table items) items
      st2 item_key st3 (Some last) ->
    _evaluate_ref _expr (S n) oid (keys ++ key0 :: rest) modifier st =
    Raise (KeyError "Key not found." key1 last) st3.
Proof.
  intros _expr n oid keys key0 rest modifier st items item_key st1 key1 st2 st3
         last Hflag Hwalk Hkey Hscan.
  exact (_evaluate_ref_not_found _expr n oid keys key0 rest modifier st items
           item_key st1 key1 st2 st3 (Some last) Hflag Hwalk Hkey Hscan).
Qed.

Lemma C3_witness :
  _evaluate_ref table_a1 3 7 ([] ++ Str "b" :: []) RefModifier.ABSOLUTE ∅ =
  Raise (KeyError "Key not found." (Str "b") (Str "a")) (set_evaluated 7 true ∅).
Proof.
  apply (C3_no_match_raises_KeyError table_a1 2 7 [] (Str "b") []
           RefModifier.ABSOLUTE ∅ [entry (Str "a") (Str "1")] None
           (set_evaluated 7 true ∅) (Str "b") (set_evaluated 7 true ∅));
    try reflexivity.
  eapply no_match_differs;
    [reflexivity|reflexivity|reflexivity|apply no_match_nil].
Defined.

(** ** C4: which entry matches *)

(** C4, as the specification states it, fails on integer keys: looking up
    [Int 1] in [Table{ 1: "x" }] does not match the entry whose key is
    [Int 1].  evaluator.py finds no match and raises [KeyError];
    evaluator2.py rejects the key with [TypeError]. *)
Lemma C4_equal_Int_keys_do_not_match :
  _evaluate_ref table_int 5 7 [Int 1] RefModifier.ABSOLUTE ∅ =
  Raise (KeyError "Key not found." (Int 1) (Int 1)) (set_evaluated 7 true ∅) /\
  Evaluator2._evaluate_ref Evaluator2.table_int 5 7 [Evaluator2.Int 1]
    Evaluator2.RefModifier.ABSOLUTE ∅ =
  Raise (Evaluator2.TypeError "Expect string key.") (Evaluator2.set_evaluated 7 true ∅).
Proof. split; reflexivity. Qed.

(** C4, amended (both prototypes): in the scan of a table for a string,
    the entry found is the first one in document order whose key
    unwraps to a [Str] with the same characters, whatever entries follow
    it.  In evaluator.py an entry before it is passed over when its key
    fails to unwrap with a caught exception or unwraps to a different
    key, the line printed for each entry being printed without an error;
    in evaluator2.py, when its key raises [RuntimeError] or unwraps to
    another string.  Only a [Str] matches a [Str]: in evaluator.py the
    scan for an [Int] finds no entry, whatever the keys of the entries,
    and a [Str] matches no [Int]. *)
Theorem C4_first_Str_match_wins :
  (forall (_expr : Expr) n s current pre item post item_key
          (st st1 : gmap nat RefData) item_key1 st2,
      no_match (_evaluate_key _expr n) (Str s) current pre st item_key st1 item_key1 ->
      _evaluate_key _expr n (key item) st1 = Return (Str s) st2 ->
      print_ "MATCH" [Str s; key item; current] st2 = Return tt st2 ->
      scan (_evaluate_key _expr n) (Str s) current (pre ++ item :: post) item_key st =
      Return (Some (value item), Some (Str s)) st2) /\
  (forall s1 s2, key_matches (Str s1) (Str s2) = true <-> s1 = s2) /\
  (forall (_expr : Expr) n z current items item_key (st : gmap nat RefData)
          v item_key' st',
      scan (_evaluate_key _expr n) (Int z) current items item_key st <>
      Return (Some v, item_key') st') /\
  (forall s1 z, key_matches (Str s1) (Int z) = false) /\
  (forall (_expr : Evaluator2.Expr) n kv pre item post current
          (st st1 st2 : gmap nat Evaluator2.RefData),
      Evaluator2.passed (Evaluator2._unwrap _expr n) kv pre st st1 ->
      Evaluator2._unwrap _expr n (Evaluator2.key item) st1 =
      Return (Evaluator2.Str kv) st2 ->
      Evaluator2.scan (Evaluator2._unwrap _expr n) kv (pre ++ item :: post)
        current st =
      Return (Some (Evaluator2.value item)) st2).
Proof.
  split; [|split; [|split; [|split]]].
  - intros _expr n s current pre item post item_key st st1 item_key1 st2
           Hpre Hitem Hp.
    eapply scan_first_match; eauto. cbn. apply String.eqb_refl.
  - intros s1 s2. cbn. apply String.eqb_eq.
  - intros _expr n z current items item_key st v item_key' st'.
    apply scan_Int.
  - reflexivity.
  - intros _expr n kv pre item post current st st1 st2 Hpre Hitem.
    rewrite (Evaluator2Facts.scan_passed2 _ _ _ _ _ _ _ Hpre),
      Evaluator2Facts.scan_cons2, Hitem.
    by rewrite String.eqb_refl.
Qed.

(** The witness: two entries with the key ["a"]; the first one wins, in
    both prototypes. *)
Lemma C4_witness :
  scan (_evaluate_key table_a1 1) (Str "a") table_a1
    ([entry (Str "b") (Str "0")] ++
     entry (Str "a") (Str "1") :: [entry (Str "a") (Str "2")]) None ∅ =
  Return (Some (Str "1"), Some (Str "a")) ∅ /\
  Evaluator2.scan (Evaluator2._unwrap Evaluator2.table_a1 1) "a"
    ([Evaluator2.entry (Evaluator2.Str "b") (Evaluator2.Str "0")] ++
     Evaluator2.entry (Evaluator2.Str "a") (Evaluator2.Str "1") ::
     [Evaluator2.entry (Evaluator2.Str "a") (Evaluator2.Str "2")]) None ∅ =
  Return (Some (Evaluator2.Str "1")) ∅.
Proof.
  split.
  - apply (proj1 C4_first_Str_match_wins table_a1 1 "a" table_a1
             [entry (Str "b") (Str "0")] (entry (Str "a") (Str "1"))
             [entry (Str "a") (Str "2")] None ∅ ∅ (Some (Str "b")) ∅).
    + eapply no_match_differs;
        [reflexivity|reflexivity|reflexivity|apply no_match_nil].
    + reflexivity.
    + reflexivity.
  - apply (proj2 (proj2 (proj2 (proj2 C4_first_Str_match_wins)))
             Evaluator2.table_a1 1 "a"
             [Evaluator2.entry (Evaluator2.Str "b") (Evaluator2.Str "0")]
             (Evaluator2.entry (Evaluator2.Str "a") (Evaluator2.Str "1"))
             [Evaluator2.entry (Evaluator2.Str "a") (Evaluator2.Str "2")]
             None ∅ ∅ ∅).
    + eapply Evaluator2.passed_differs;
        [reflexivity|reflexivity|apply Evaluator2.passed_nil].
    + reflexivity.
Defined.

(** ** C5: indexing what is not a table *)

(** C5 holds in evaluator2.py and is broken by evaluator.py.  Resolving
    ["a", "c"] against [Table{ a: "1" }]: in evaluator.py the [match] on
    the current target has no case for a scalar, the segment ["c"] is
    skipped without an error and the cache is set to ["1"]; in
    evaluator2.py the same reference raises [TypeError]. *)
Theorem C5_index_on_scalar :
  _evaluate_ref table_a1 5 7 [Str "a"; Str "c"] RefModifier.ABSOLUTE ∅ =
  Return tt (set_cache 7 (Some (Str "1")) (set_evaluated 7 true ∅)) /\
  Evaluator2._evaluate_ref Evaluator2.table_a1 5 7
    [Evaluator2.Str "a"; Evaluator2.Str "c"] Evaluator2.RefModifier.ABSOLUTE ∅ =
  Raise (Evaluator2.TypeError "Expect table.") (Evaluator2.set_evaluated 7 true ∅).
Proof. split; reflexivity. Qed.

(** ** C6: sibling keys that fail to unwrap *)

(** C6, as the specification states it, fails.  In evaluator.py the first
    key of [table_dangling] is a reference to a missing entry: unwrapping
    it raises [KeyError], which the handler does not catch, so the lookup
    of ["a"] is aborted although the second entry matches.  In
    evaluator2.py an entry key that unwraps to an [Int] aborts the lookup
    with [TypeError] although a later entry matches. *)
Lemma C6_sibling_KeyError_aborts_the_scan :
  _evaluate_ref table_dangling 9 7 [Str "a"] RefModifier.ABSOLUTE ∅ =
  Raise (KeyError "Key not found." (Str "zz") (Str "a"))
    (set_evaluated 0 true (set_evaluated 7 true ∅)) /\
  Evaluator2._evaluate_ref Evaluator2.table_mixed_keys 5 7 [Evaluator2.Str "a"]
    Evaluator2.RefModifier.ABSOLUTE ∅ =
  Raise (Evaluator2.TypeError "Expect string key for item.")
    (Evaluator2.set_evaluated 7 true ∅).
Proof. split; vm_compute; reflexivity. Qed.

(** C6, amended (both prototypes).  In evaluator.py an entry whose key
    raises [RuntimeError] (a reference that is being resolved or left no
    value; also its subclasses) or [TypeError] (a key that is not a
    string, an integer or a reference) while it is unwrapped is skipped,
    once the handler has printed its line without an error, and the scan
    goes on with the entries after it: after any run of such entries, a
    later entry whose key unwraps to a match is found.  [item_key] is
    not assigned by the skipped entries.  Any other exception raised
    while an entry key is unwrapped ([KeyError], [UnboundLocalError]) is
    not caught and ends the scan.  In evaluator2.py an entry whose key
    raises [RuntimeError] is skipped and the scan goes on with the
    entries after it; any other exception ends the scan. *)
Theorem C6_failing_sibling_keys_are_skipped :
  (forall (_expr : Expr) n key1 current pre item post item_key ik
          (st st1 st2 : gmap nat RefData),
      keys_fail (_evaluate_key _expr n) key1 current pre st st1 ->
      _evaluate_key _expr n (key item) st1 = Return ik st2 ->
      key_matches key1 ik = true ->
      print_ "MATCH" [key1; key item; current] st2 = Return tt st2 ->
      scan (_evaluate_key _expr n) key1 current (pre ++ item :: post) item_key st =
      Return (Some (value item), Some ik) st2 /\
      scan (_evaluate_key _expr n) key1 current pre item_key st =
      Return (None, item_key) st1) /\
  (forall (_expr : Expr) n key1 current bad rest item_key e
          (st' st'' : gmap nat RefData),
      _evaluate_key _expr n (key bad) st' = Raise e st'' ->
      is_RuntimeError_or_TypeError e = false ->
      scan (_evaluate_key _expr n) key1 current (bad :: rest) item_key st' =
      Raise e st'') /\
  (forall (_expr : Evaluator2.Expr) n kv bad rest current e
          (st st1 : gmap nat Evaluator2.RefData),
      Evaluator2._unwrap _expr n (Evaluator2.key bad) st = Raise e st1 ->
      Evaluator2.scan (Evaluator2._unwrap _expr n) kv (bad :: rest) current st =
      if Evaluator2.is_RuntimeError e
      then Evaluator2.scan (Evaluator2._unwrap _expr n) kv rest current st1
      else Raise e st1).
Proof.
  split; [|split].
  - intros _expr n key1 current pre item post item_key ik st st1 st2
           Hpre Hitem Hm Hp.
    split; [|by apply scan_keys_fail].
    eapply scan_first_match; eauto. by apply keys_fail_no_match.
  - intros _expr n key1 current bad rest item_key e st' st'' He Hc.
    by rewrite scan_cons, He, Hc.
  - intros _expr n kv bad rest current e st st1 He.
    by rewrite Evaluator2Facts.scan_cons2, He.
Qed.

(** The witness: the first key of [table_cyclic_key] is the reference
    being resolved, met again by its own scan; the first entry is
    skipped and the entry ["x"] is found.  In evaluator2.py, the same
    with a first key that is a reference being resolved. *)
Lemma C6_witness :
  (scan (_evaluate_key table_cyclic_key 3) (Str "x") table_cyclic_key
     ([entry (ref 0 [Str "x"]) (Str "v")] ++ entry (Str "x") (Str "k") :: [])
     None (in_progress 0) =
   Return (Some (Str "k"), Some (Str "x")) (in_progress 0) /\
   scan (_evaluate_key table_cyclic_key 3) (Str "x") table_cyclic_key
     [entry (ref 0 [Str "x"]) (Str "v")] None (in_progress 0) =
   Return (None, None) (in_progress 0)) /\
  Evaluator2.scan (Evaluator2._unwrap Evaluator2.table_a1 3) "a"
    (Evaluator2.entry (Evaluator2.ref 0 [Evaluator2.Str "a"]) (Evaluator2.Str "v") ::
     [Evaluator2.entry (Evaluator2.Str "a") (Evaluator2.Str "1")])
    None (Evaluator2.in_progress 0) =
  Evaluator2.scan (Evaluator2._unwrap Evaluator2.table_a1 3) "a"
    [Evaluator2.entry (Evaluator2.Str "a") (Evaluator2.Str "1")]
    None (Evaluator2.in_progress 0).
Proof.
  split.
  - assert (Hfail : keys_fail (_evaluate_key table_cyclic_key 3) (Str "x")
                      table_cyclic_key
                      [entry (ref 0 [Str "x"]) (Str "v")]
                      (in_progress 0) (in_progress 0)).
    { eapply keys_fail_cons;
        [reflexivity|reflexivity|reflexivity|apply keys_fail_nil]. }
    exact (proj1 C6_failing_sibling_keys_are_skipped table_cyclic_key 3 (Str "x")
             table_cyclic_key
             [entry (ref 0 [Str "x"]) (Str "v")] (entry (Str "x") (Str "k")) []
             None (Str "x") (in_progress 0) (in_progress 0) (in_progress 0)
             Hfail eq_refl eq_refl eq_refl).
  - exact (proj2 (proj2 C6_failing_sibling_keys_are_skipped)
             Evaluator2.table_a1 3 "a"
             (Evaluator2.entry (Evaluator2.ref 0 [Evaluator2.Str "a"])
                (Evaluator2.Str "v"))
             [Evaluator2.entry (Evaluator2.Str "a") (Evaluator2.Str "1")]
             None (Evaluator2.RuntimeError "Failed to evaluate reference.")
             (Evaluator2.in_progress 0) (Evaluator2.in_progress 0) eq_refl).
Defined.

(** ** C7: where the lookup starts *)




(** ** C8: evaluating twice *)

(** C8: in both prototypes, when [evaluate] has succeeded on a tree,
    calling it again on the same tree, in the store the first call left,
    succeeds (with the fuel of the first call, and with any larger one),
    returns the same tree and leaves every field of every reference
    (scope, cache and flag) as the first call left it. *)
Theorem C8_evaluate_twice :
  (forall (_expr : Expr) fuel (st st1 : gmap nat RefData),
      evaluate _expr fuel st = Return _expr st1 ->
      exists st2,
        (forall fuel', fuel <= fuel' ->
                       evaluate _expr fuel' st1 = Return _expr st2) /\
        forall oid, get st2 oid = get st1 oid) /\
  (forall (_expr : Evaluator2.Expr) fuel (st st1 : gmap nat Evaluator2.RefData),
      Evaluator2.evaluate _expr fuel st = Return _expr st1 ->
      exists st2,
        (forall fuel', fuel <= fuel' ->
                       Evaluator2.evaluate _expr fuel' st1 = Return _expr st2) /\
        forall oid, Evaluator2.get st2 oid = Evaluator2.get st1 oid).
Proof.
  split.
  - intros _expr fuel st st1 H.
    destruct (evaluate_twice _expr fuel st st1 H) as (st2 & H2 & Hsame).
    exists st2. split; [|exact Hsame].
    intros fuel' Hle. rewrite <- H2. apply evaluate_more_fuel; [exact Hle|].
    by rewrite H2.
  - intros _expr fuel st st1 H.
    destruct (Evaluator2Facts.evaluate_twice2 _expr fuel st st1 H)
      as (st2 & H2 & Hsame).
    exists st2. split; [|exact Hsame].
    intros fuel' Hle. rewrite <- H2.
    apply Evaluator2Facts.evaluate_more_fuel2; [exact Hle|].
    by rewrite H2.
Qed.

(** The witness: the two trees built under [__main__]. *)
Lemma C8_witness :
  (exists st1 st2,
      evaluate main_expr 12 ∅ = Return main_expr st1 /\
      evaluate main_expr 12 st1 = Return main_expr st2 /\
      forall oid, get st2 oid = get st1 oid) /\
  (exists st1 st2,
      Evaluator2.evaluate Evaluator2.main_expr 12 ∅ =
      Return Evaluator2.main_expr st1 /\
      Evaluator2.evaluate Evaluator2.main_expr 12 st1 =
      Return Evaluator2.main_expr st2 /\
      forall oid, Evaluator2.get st2 oid = Evaluator2.get st1 oid).
Proof.
  split.
  - assert (H : exists st1, evaluate main_expr 12 ∅ = Return main_expr st1)
      by (eexists; vm_compute; reflexivity).
    destruct H as [st1 H].
    destruct (proj1 C8_evaluate_twice main_expr 12 ∅ st1 H) as (st2 & H2 & Hsame).
    exists st1, st2. repeat split; [exact H|exact (H2 12 (le_n 12))|exact Hsame].
  - assert (H : exists st1, Evaluator2.evaluate Evaluator2.main_expr 12 ∅ =
                            Return Evaluator2.main_expr st1)
      by (eexists; vm_compute; reflexivity).
    destruct H as [st1 H].
    destruct (proj2 C8_evaluate_twice Evaluator2.main_expr 12 ∅ st1 H)
      as (st2 & H2 & Hsame).
    exists st1, st2. repeat split; [exact H|exact (H2 12 (le_n 12))|exact Hsame].
Defined.

(** ** C9: bounded recursion *)




(** ** C10: the unassigned local of the no-match branch *)

(** C10 (evaluator.py): when a key segment is looked up in a table, no
    entry key of the table can be unwrapped (each raises an exception the
    handler catches, and the handler prints its line without an error; a
    table with no entry is the simplest case) and no entry key was
    unwrapped in an earlier segment, the no-match branch reads the local
    [item_key] before any assignment: forcing the reference raises
    [UnboundLocalError] and not [KeyError]. *)
Theorem C10_no_match_branch_reads_unbound_item_key :
  forall _expr n oid keys key0 rest modifier st items st1 key1 st2 st3,
    _evaluated (get st oid) = false ->
    walk (_evaluate_key _expr n) keys
      match modifier with
      | RefModifier.ABSOLUTE => Some _expr
      | RefModifier.RELATIVE => _parent (get st oid)
      end None (set_evaluated oid true st) =
    Return (Some (Table items), None) st1 ->
    _evaluate_key _expr n key0 st1 = Return key1 st2 ->
    keys_fail (_evaluate_key _expr n) key1 (Table items) items st2 st3 ->
    _evaluate_ref _expr (S n) oid (keys ++ key0 :: rest) modifier st =
    Raise (UnboundLocalError "item_key") st3 /\
    forall msg k last,
      _evaluate_ref _expr (S n) oid (keys ++ key0 :: rest) modifier st <>
      Raise (KeyError msg k last) st3.
Proof.
  intros _expr n oid keys key0 rest modifier st items st1 key1 st2 st3
         Hflag Hwalk Hkey Hfail.
  assert (H : _evaluate_ref _expr (S n) oid (keys ++ key0 :: rest) modifier st =
              Raise (UnboundLocalError "item_key") st3).
  { exact (_evaluate_ref_not_found _expr n oid keys key0 rest modifier st items
             None st1 key1 st2 st3 None Hflag Hwalk Hkey
             (keys_fail_no_match _ key1 (Table items) items None st2 st3 Hfail)). }
  split; [exact H|]. intros msg k last. rewrite H. discriminate.
Qed.

(** The witness: the lookup of ["a"] in the table with no entry. *)
Lemma C10_witness :
  _evaluate_ref (Table []) 2 7 ([] ++ Str "a" :: []) RefModifier.ABSOLUTE ∅ =
  Raise (UnboundLocalError "item_key") (set_evaluated 7 true ∅) /\
  forall msg k last,
    _evaluate_ref (Table []) 2 7 ([] ++ Str "a" :: []) RefModifier.ABSOLUTE ∅ <>
    Raise (KeyError msg k last) (set_evaluated 7 true ∅).
Proof.
  apply (C10_no_match_branch_reads_unbound_item_key (Table []) 1 7 [] (Str "a") []
           RefModifier.ABSOLUTE ∅ [] (set_evaluated 7 true ∅) (Str "a")
           (set_evaluated 7 true ∅) (set_evaluated 7 true ∅));
    try reflexivity.
  apply keys_fail_nil.
Defined.

(** ** Further properties of the two prototypes *)

(** X1 (evaluator2.py): in a key segment, when the current target
    unwraps to something that is not a table and the key unwraps to a
    string, the segment raises [TypeError("Expect table.")]. *)
Theorem X1_evaluator2_index_on_non_table :
  forall (_expr : Evaluator2.Expr) n key0 cur curry kv
         (st st1 st2 : gmap nat Evaluator2.RefData),
    Evaluator2._unwrap _expr n cur st = Return curry st1 ->
    (forall items, curry <> Evaluator2.Table items) ->
    Evaluator2._unwrap _expr n key0 st1 = Return (Evaluator2.Str kv) st2 ->
    Evaluator2.segment (Evaluator2._unwrap _expr n) key0 (Some cur) st =
    Raise (Evaluator2.TypeError "Expect table.") st2.
Proof.
  intros _expr n key0 cur curry kv st st1 st2 Hcur Hnot Hkey.
  rewrite Evaluator2Facts.segment_Some2, Hcur, Hkey.
  destruct curry as [ | | | | |items]; try reflexivity.
  by destruct (Hnot items).
Qed.

Lemma X1_witness :
  Evaluator2.segment (Evaluator2._unwrap Evaluator2.table_a1 1)
    (Evaluator2.Str "c") (Some (Evaluator2.Str "1")) ∅ =
  Raise (Evaluator2.TypeError "Expect table.") ∅.
Proof.
  apply (X1_evaluator2_index_on_non_table Evaluator2.table_a1 1
           (Evaluator2.Str "c") (Evaluator2.Str "1") (Evaluator2.Str "1") "c"
           ∅ ∅ ∅).
  - reflexivity.
  - discriminate.
  - reflexivity.
Defined.

(** X3 (evaluator.py): in a key segment, a current target that is
    neither a table nor an array (a scalar, a reference, a unary or
    binary expression, or no target at all) is left as it is and the key
    is not looked up; an array raises [NotImplementedError]. *)
Theorem evaluator_skips_non_table :
  forall (_expr : Expr) n key0 key1 current item_key (st st1 : gmap nat RefData),
    _evaluate_key _expr n key0 st = Return key1 st1 ->
    (forall items, current <> Some (Table items)) ->
    segment (_evaluate_key _expr n) key0 current item_key st =
    match current with
    | Some (Array _) => Raise NotImplementedError st1
    | _ => Return (current, item_key) st1
    end.
Proof.
  intros _expr n key0 key1 current item_key st st1 Hkey Hnot.
  unfold segment, bind. rewrite Hkey.
  destruct current as [[ | | | | | | | |items]|]; try reflexivity.
  by destruct (Hnot items).
Qed.

Lemma evaluator_skips_non_table_witness :
  segment (_evaluate_key table_a1 1) (Str "c") (Some (Str "1")) None ∅ =
  Return (Some (Str "1"), None) ∅.
Proof.
  apply (evaluator_skips_non_table table_a1 1 (Str "c") (Str "c")
           (Some (Str "1")) None ∅ ∅).
  - reflexivity.
  - discriminate.
Defined.

(** X4 (evaluator.py): forcing a relative reference that is not flagged
    and has no recorded scope, with keys that are strings or integers,
    raises nothing and sets its cache to [None]; unwrapping it raises
    [RuntimeError]. *)
Theorem evaluator_relative_without_scope :
  forall (_expr : Expr) n oid keys (st : gmap nat RefData),
    _evaluated (get st oid) = false ->
    _parent (get st oid) = None ->
    forallb is_Str_or_Int keys = true ->
    _evaluate_ref _expr (S (S n)) oid keys RefModifier.RELATIVE st =
    Return tt (set_cache oid None (set_evaluated oid true st)) /\
    _evaluate_key _expr (S (S (S (S n)))) (Ref oid keys RefModifier.RELATIVE) st =
    Raise (RuntimeError "Failed to evaluate reference.")
      (set_cache oid None (set_evaluated oid true st)).
Proof. intros. by apply _evaluate_ref_no_scope. Qed.

Lemma evaluator_relative_without_scope_witness :
  _evaluate_ref relative_root 2 0 [Str "a"] RefModifier.RELATIVE ∅ =
  Return tt (set_cache 0 None (set_evaluated 0 true ∅)) /\
  _evaluate_key relative_root 4 relative_root ∅ =
  Raise (RuntimeError "Failed to evaluate reference.")
    (set_cache 0 None (set_evaluated 0 true ∅)).
Proof.
  apply (evaluator_relative_without_scope relative_root 0 0 [Str "a"] ∅);
    reflexivity.
Defined.

(** X2 (both prototypes): the resolver pass changes no cache and no
    flag, and run on a store whose scopes it has already set it changes
    no field of any reference. *)
Theorem X2_resolve_again_changes_nothing :
  (forall (parent0 : option Expr) (expr : Expr) (st : gmap nat RefData) oid,
      _cache (get (_resolve parent0 expr st) oid) = _cache (get st oid) /\
      _evaluated (get (_resolve parent0 expr st) oid) = _evaluated (get st oid) /\
      get (_resolve parent0 expr (_resolve parent0 expr st)) oid =
      get (_resolve parent0 expr st) oid) /\
  (forall (parent0 : option Evaluator2.Expr) (expr : Evaluator2.Expr)
          (st : gmap nat Evaluator2.RefData) oid,
      Evaluator2.ref_cache (Evaluator2.get (Evaluator2._resolve parent0 expr st) oid) =
      Evaluator2.ref_cache (Evaluator2.get st oid) /\
      Evaluator2.ref_evaluated (Evaluator2.get (Evaluator2._resolve parent0 expr st) oid) =
      Evaluator2.ref_evaluated (Evaluator2.get st oid) /\
      Evaluator2.get (Evaluator2._resolve parent0 expr
                        (Evaluator2._resolve parent0 expr st)) oid =
      Evaluator2.get (Evaluator2._resolve parent0 expr st) oid).
Proof.
  split.
  - intros parent0 expr st oid.
    pose proof (_resolve_resolver expr parent0) as Hres.
    destruct (proj1 (Hres oid) st) as [Hc He].
    repeat split; [exact Hc|exact He|].
    by apply (resolver_fixes _ st).
  - intros parent0 expr st oid.
    pose proof (Evaluator2Facts._resolve_resolver2 expr parent0) as Hres.
    destruct (proj1 (Hres oid) st) as [Hc He].
    repeat split; [exact Hc|exact He|].
    by apply (Evaluator2Facts.resolver_fixes2 _ st).
Qed.

End Claims.

(** * Further properties of the two prototypes *)

Module Properties.
Import Evaluator EvaluatorFacts Both BothFacts.

(** ** What a run changes *)

(** X5 (both prototypes): a run of [_evaluate] that finishes, normally
    or with an exception, changes a reference only by forcing it.  A
    reference that was flagged when the run started is left as it was,
    cache included; a reference that the run changes was not flagged, is
    flagged afterwards and has kept its scope.  So no flag is cleared, no
    scope is rewritten, and a cache is written at most once. *)
Theorem evaluation_only_forces :
  (forall (_expr : Expr) fuel e (st st' : gmap nat RefData),
      store_of (_evaluate _expr fuel e st) = Some st' -> forces st st') /\
  (forall (_expr : Evaluator2.Expr) fuel e (st st' : gmap nat Evaluator2.RefData),
      store_of (Evaluator2._evaluate _expr fuel e st) = Some st' ->
      Evaluator2.forces st st').
Proof.
  split; intros _expr fuel e st st' H.
  - eapply preserves_store_of; [|exact H].
    apply (forces_methods _expr fuel).
  - eapply preserves_store_of; [|exact H].
    apply (Evaluator2Facts.forces_methods2 _expr fuel).
Qed.

Lemma evaluation_only_forces_witness :
  (exists st', store_of (_evaluate table_nested 6 table_nested ∅) = Some st' /\
               forces ∅ st') /\
  (exists st', store_of (Evaluator2._evaluate Evaluator2.table_nested 6
                           Evaluator2.table_nested ∅) = Some st' /\
               Evaluator2.forces ∅ st').
Proof.
  split.
  - assert (H : exists st', store_of (_evaluate table_nested 6 table_nested ∅) = Some st')
      by (eexists; vm_compute; reflexivity).
    destruct H as [st' H]. exists st'. split; [exact H|].
    exact (proj1 evaluation_only_forces table_nested 6 table_nested ∅ st' H).
  - assert (H : exists st', store_of (Evaluator2._evaluate Evaluator2.table_nested 6
                                        Evaluator2.table_nested ∅) = Some st')
      by (eexists; vm_compute; reflexivity).
    destruct H as [st' H]. exists st'. split; [exact H|].
    exact (proj2 evaluation_only_forces Evaluator2.table_nested 6
             Evaluator2.table_nested ∅ st' H).
Defined.

(** X6 (both prototypes): when [evaluate] returns, every reference that
    is the document itself, or the key or the value of an entry of a
    table of the document (at any depth), is flagged as evaluated. *)
Theorem evaluate_flags_what_it_visits :
  (forall (_expr : Expr) fuel (st st' : gmap nat RefData) oid,
      evaluate _expr fuel st = Return _expr st' ->
      In oid (visited _expr) -> _evaluated (get st' oid) = true) /\
  (forall (_expr : Evaluator2.Expr) fuel (st st' : gmap nat Evaluator2.RefData) oid,
      Evaluator2.evaluate _expr fuel st = Return _expr st' ->
      In oid (Evaluator2.visited _expr) ->
      Evaluator2.ref_evaluated (Evaluator2.get st' oid) = true).
Proof.
  split; intros _expr fuel st st' oid.
  - unfold evaluate, bind.
    destruct (_evaluate _expr fuel _expr _) as [[] st1|?|] eqn:H; try discriminate.
    intros [= <-]. exact (proj1 (_evaluate_visited _expr fuel) _ _ _ H oid).
  - unfold Evaluator2.evaluate, bind.
    destruct (Evaluator2._evaluate _expr fuel _expr _) as [[] st1|?|] eqn:H;
      try discriminate.
    intros [= <-].
    exact (proj1 (Evaluator2Facts._evaluate_visited2 _expr fuel) _ _ _ H oid).
Qed.

Lemma evaluate_flags_what_it_visits_witness :
  (exists st', evaluate main_expr 12 ∅ = Return main_expr st' /\
               _evaluated (get st' 2) = true) /\
  (exists st', Evaluator2.evaluate Evaluator2.main_expr 12 ∅ =
               Return Evaluator2.main_expr st' /\
               Evaluator2.ref_evaluated (Evaluator2.get st' 2) = true).
Proof.
  split.
  - assert (H : exists st', evaluate main_expr 12 ∅ = Return main_expr st')
      by (eexists; vm_compute; reflexivity).
    destruct H as [st' H]. exists st'. split; [exact H|].
    apply (proj1 evaluate_flags_what_it_visits main_expr 12 ∅ st' 2 H).
    vm_compute. tauto.
  - assert (H : exists st', Evaluator2.evaluate Evaluator2.main_expr 12 ∅ =
                            Return Evaluator2.main_expr st')
      by (eexists; vm_compute; reflexivity).
    destruct H as [st' H]. exists st'. split; [exact H|].
    apply (proj2 evaluate_flags_what_it_visits Evaluator2.main_expr 12 ∅ st' 2 H).
    vm_compute. tauto.
Defined.

(** X19 (both prototypes): a failed forcing is not tried again.  When
    forcing a reference that was not flagged ends with an exception, the
    reference is left flagged and its cache is not written; forcing it
    again, with whatever keys, returns at once and changes nothing. *)
Theorem failed_forcing_is_sticky :
  (forall (_expr : Expr) n oid keys modifier (st : gmap nat RefData) e st',
      _evaluated (get st oid) = false ->
      _evaluate_ref _expr n oid keys modifier st = Raise e st' ->
      _evaluated (get st' oid) = true /\
      _cache (get st' oid) = _cache (get st oid) /\
      forall n' keys' modifier',
        _evaluate_ref _expr (S n') oid keys' modifier' st' = Return tt st') /\
  (forall (_expr : Evaluator2.Expr) n oid keys modifier
          (st : gmap nat Evaluator2.RefData) e st',
      Evaluator2.ref_evaluated (Evaluator2.get st oid) = false ->
      Evaluator2._evaluate_ref _expr n oid keys modifier st = Raise e st' ->
      Evaluator2.ref_evaluated (Evaluator2.get st' oid) = true /\
      Evaluator2.ref_cache (Evaluator2.get st' oid) =
      Evaluator2.ref_cache (Evaluator2.get st oid) /\
      forall n' keys' modifier',
        Evaluator2._evaluate_ref _expr (S n') oid keys' modifier' st' = Return tt st').
Proof.
  split; intros _expr n oid keys modifier st e st' Hflag Hrun.
  - pose proof (_evaluate_ref_raise_sticky _ _ _ _ _ _ _ _ Hflag Hrun) as Heq.
    assert (Hset : _evaluated (get st' oid) = true).
    { rewrite Heq, evaluated_set_evaluated. by case_decide. }
    repeat split; [exact Hset| |].
    + rewrite Heq. unfold set_evaluated. by rewrite get_insert_eq.
    + intros n' keys' modifier'. by apply _evaluate_ref_done.
  - pose proof (Evaluator2Facts._evaluate_ref_raise_sticky2 _ _ _ _ _ _ _ _ Hflag Hrun)
      as Heq.
    assert (Hset : Evaluator2.ref_evaluated (Evaluator2.get st' oid) = true).
    { rewrite Heq, Evaluator2Facts.evaluated_set_evaluated2. by case_decide. }
    repeat split; [exact Hset| |].
    + rewrite Heq. unfold Evaluator2.set_evaluated.
      by rewrite Evaluator2Facts.get_insert_eq2.
    + intros n' keys' modifier'. by apply Evaluator2Facts._evaluate_ref_done2.
Qed.

(** The witness: in evaluator.py the reference [Ref["zz"]] of
    [table_dangling], whose key names no entry; in evaluator2.py an
    index into the scalar of [table_a1]. *)
Lemma failed_forcing_is_sticky_witness :
  (exists e st',
      _evaluate_ref table_dangling 5 0 [Str "zz"] RefModifier.ABSOLUTE ∅ =
      Raise e st' /\
      _evaluated (get st' 0) = true /\ _cache (get st' 0) = None) /\
  (exists e st',
      Evaluator2._evaluate_ref Evaluator2.table_a1 3 7
        [Evaluator2.Str "a"; Evaluator2.Str "c"] Evaluator2.RefModifier.ABSOLUTE ∅ =
      Raise e st' /\
      Evaluator2.ref_evaluated (Evaluator2.get st' 7) = true /\
      Evaluator2.ref_cache (Evaluator2.get st' 7) = None).
Proof.
  split.
  - assert (H : exists e st',
               _evaluate_ref table_dangling 5 0 [Str "zz"] RefModifier.ABSOLUTE ∅ =
               Raise e st') by (do 2 eexists; vm_compute; reflexivity).
    destruct H as (e & st' & H). exists e, st'.
    assert (Hflag : _evaluated (get ∅ 0) = false) by reflexivity.
    destruct (proj1 failed_forcing_is_sticky table_dangling 5 0 [Str "zz"]
                RefModifier.ABSOLUTE ∅ e st' Hflag H) as (H1 & H2 & _).
    repeat split; [exact H|exact H1|exact H2].
  - assert (H : exists e st',
               Evaluator2._evaluate_ref Evaluator2.table_a1 3 7
                 [Evaluator2.Str "a"; Evaluator2.Str "c"]
                 Evaluator2.RefModifier.ABSOLUTE ∅ = Raise e st')
      by (do 2 eexists; vm_compute; reflexivity).
    destruct H as (e & st' & H). exists e, st'.
    assert (Hflag : Evaluator2.ref_evaluated (Evaluator2.get ∅ 7) = false)
      by reflexivity.
    destruct (proj2 failed_forcing_is_sticky Evaluator2.table_a1 3 7
                [Evaluator2.Str "a"; Evaluator2.Str "c"]
                Evaluator2.RefModifier.ABSOLUTE ∅ e st' Hflag H) as (H1 & H2 & _).
    repeat split; [exact H|exact H1|exact H2].
Defined.

(** ** The resolver pass *)

(** X7 (both prototypes): the scopes [_resolve] writes.  A reference
    that is not at a place [_resolve] goes through (in particular one
    that occurs only among the keys of another reference) is left as it
    is, so it keeps the scope it had, [None] for a new object.  A
    reference at such a place gets the scope passed in or an enclosing
    table; under a table it always gets a table. *)
Theorem resolve_scopes :
  (forall (parent0 : option Expr) (e : Expr) (st : gmap nat RefData) oid,
      (~ In oid (resolved e) -> get (_resolve parent0 e st) oid = get st oid) /\
      (In oid (resolved e) ->
       _parent (get (_resolve parent0 e st) oid) = parent0 \/
       exists t, _parent (get (_resolve parent0 e st) oid) = Some t /\
                 is_Table t = true) /\
      (In oid (resolved e) -> is_Table e = true ->
       exists t, _parent (get (_resolve parent0 e st) oid) = Some t /\
                 is_Table t = true)) /\
  (forall (parent0 : option Evaluator2.Expr) (e : Evaluator2.Expr)
          (st : gmap nat Evaluator2.RefData) oid,
      (~ In oid (Evaluator2.resolved e) ->
       Evaluator2.get (Evaluator2._resolve parent0 e st) oid = Evaluator2.get st oid) /\
      (In oid (Evaluator2.resolved e) ->
       Evaluator2.ref_parent (Evaluator2.get (Evaluator2._resolve parent0 e st) oid) =
       parent0 \/
       exists t, Evaluator2.ref_parent
                   (Evaluator2.get (Evaluator2._resolve parent0 e st) oid) = Some t /\
                 Evaluator2.is_Table t = true) /\
      (In oid (Evaluator2.resolved e) -> Evaluator2.is_Table e = true ->
       exists t, Evaluator2.ref_parent
                   (Evaluator2.get (Evaluator2._resolve parent0 e st) oid) = Some t /\
                 Evaluator2.is_Table t = true)).
Proof.
  split; intros parent0 e st oid.
  - destruct (_resolve_writes_scopes e parent0 oid st) as [Hin Hout].
    repeat split; [exact Hout|exact Hin|].
    intros Hoid He. destruct e as [ | | | | | | | |items]; try discriminate.
    destruct (proj1 (_resolve_writes_scopes (Table items) (Some (Table items)) oid st)
                Hoid) as [H|H]; [|exact H].
    exists (Table items). by split.
  - destruct (Evaluator2Facts._resolve_writes_scopes2 e parent0 oid st) as [Hin Hout].
    repeat split; [exact Hout|exact Hin|].
    intros Hoid He. destruct e as [ | | | | |items]; try discriminate.
    destruct (proj1 (Evaluator2Facts._resolve_writes_scopes2 (Evaluator2.Table items)
                       (Some (Evaluator2.Table items)) oid st) Hoid) as [H|H];
      [|exact H].
    exists (Evaluator2.Table items). by split.
Qed.

Lemma resolve_scopes_witness :
  exists t,
    _parent (get (_resolve (Some table_relative) table_relative ∅) 0) = Some t /\
    is_Table t = true.
Proof.
  apply (proj2 (proj2 (proj1 resolve_scopes (Some table_relative) table_relative ∅ 0))).
  - vm_compute. tauto.
  - reflexivity.
Defined.

(** X8 (both prototypes): what [_resolve] does, reference by
    reference.  After the pass a reference has the scope of the last
    place, in the order of the pass, at which it stands among the keys,
    values and [parent]s of the entries: the table whose entry that is,
    or the scope passed in when no table encloses the place.  Its cache
    and its flag are as before; a reference that stands at no such place
    is as before. *)
Theorem resolve_scope_of :
  (forall (parent0 : option Expr) (e : Expr) (st : gmap nat RefData) oid,
      get (_resolve parent0 e st) oid =
      with_scope (scope_of parent0 e oid) (get st oid)) /\
  (forall (parent0 : option Evaluator2.Expr) (e : Evaluator2.Expr)
          (st : gmap nat Evaluator2.RefData) oid,
      Evaluator2.get (Evaluator2._resolve parent0 e st) oid =
      Evaluator2.with_scope (Evaluator2.scope_of parent0 e oid)
        (Evaluator2.get st oid)).
Proof.
  split; intros parent0 e st oid.
  - apply (_resolve_sets_scopes e parent0 st oid).
  - apply (Evaluator2Facts._resolve_sets_scopes2 e parent0 st oid).
Qed.

(** ** Lookups *)



(** X10 (evaluator.py): a reference whose keys are string literals,
    looked up through tables none of whose keys is a reference and each
    of which is printed without an error in the store of the lookup, is
    a plain path lookup.  Each key selects the value of the first entry
    whose key is that string (entries with another kind of key are
    passed over); a target that is not a table lets the key pass.  When
    every key names an entry, forcing the reference returns at call
    depth two, the cache is the value at the end of the path, and no
    other reference is touched. *)
Theorem plain_path_lookup :
  forall (_expr : Expr) n oid ks modifier (st : gmap nat RefData) start v,
    _evaluated (get st oid) = false ->
    match modifier with
    | RefModifier.ABSOLUTE => Some _expr
    | RefModifier.RELATIVE => _parent (get st oid)
    end = Some start ->
    follow (set_evaluated oid true st) ks start = Some v ->
    _evaluate_ref _expr (S (S n)) oid (map Str ks) modifier st =
    Return tt (set_cache oid (Some v) (set_evaluated oid true st)).
Proof.
  intros _expr n oid ks modifier st start v Hflag Hstart Hpath.
  by apply (_evaluate_ref_follow _expr n oid ks modifier st start v).
Qed.

(** The witness: the relative reference of [table_relative], whose scope
    is the nested table. *)
Lemma plain_path_lookup_witness :
  _evaluate_ref table_relative 2 0 (map Str ["c"]) RefModifier.RELATIVE
    (_resolve (Some table_relative) table_relative ∅) =
  Return tt (set_cache 0 (Some (Str "1"))
               (set_evaluated 0 true (_resolve (Some table_relative) table_relative ∅))).
Proof.
  apply (plain_path_lookup table_relative 0 0 ["c"] RefModifier.RELATIVE
           (_resolve (Some table_relative) table_relative ∅)
           (Table [entry (Str "c") (Str "1");
                   entry (Str "r") (Ref 0 [Str "c"] RefModifier.RELATIVE)])
           (Str "1")); vm_compute; reflexivity.
Defined.

(** X12 (both prototypes): the two prototypes agree on plain paths.
    Take a document of evaluator2.py, read as a document of evaluator.py,
    and an absolute reference whose keys are string literals.  When the
    path is one that each prototype follows through tables with literal
    keys (in evaluator.py every key names an entry and every table on
    the way is printed without an error in the store of the lookup; in
    evaluator2.py every target is a table with string keys), forcing
    the reference returns in both and the two caches hold the same
    expression. *)
Theorem prototypes_agree_on_plain_paths :
  forall (root : Evaluator2.Expr) n oid ks
         (st1 : gmap nat Evaluator.RefData) (st2 : gmap nat Evaluator2.RefData) v1 v2,
    Evaluator._evaluated (Evaluator.get st1 oid) = false ->
    Evaluator2.ref_evaluated (Evaluator2.get st2 oid) = false ->
    Evaluator.follow (Evaluator.set_evaluated oid true st1) ks (embed root) =
    Some v1 ->
    Evaluator2.follow ks root = Some v2 ->
    Evaluator._evaluate_ref (embed root) (S (S n)) oid (map Evaluator.Str ks)
      Evaluator.RefModifier.ABSOLUTE st1 =
    Return tt (Evaluator.set_cache oid (Some (embed v2))
                 (Evaluator.set_evaluated oid true st1)) /\
    Evaluator2._evaluate_ref root (S (S n)) oid (map Evaluator2.Str ks)
      Evaluator2.RefModifier.ABSOLUTE st2 =
    Return tt (Evaluator2.set_cache oid (Some v2)
                 (Evaluator2.set_evaluated oid true st2)).
Proof.
  intros root n oid ks st1 st2 v1 v2 Hf1 Hf2 Hp1 Hp2. split.
  - rewrite <- (follow_embed _ ks root v1 v2 Hp1 Hp2).
    by apply (EvaluatorFacts._evaluate_ref_follow (embed root) n oid ks
                Evaluator.RefModifier.ABSOLUTE st1 (embed root) v1).
  - by apply (Evaluator2Facts._evaluate_ref_follow2 root n oid ks
                Evaluator2.RefModifier.ABSOLUTE st2 root v2).
Qed.

Lemma prototypes_agree_on_plain_paths_witness :
  Evaluator._evaluate_ref (embed Evaluator2.table_nested) 2 0
    (map Evaluator.Str ["a"; "c"]) Evaluator.RefModifier.ABSOLUTE ∅ =
  Return tt (Evaluator.set_cache 0 (Some (embed (Evaluator2.Str "10")))
               (Evaluator.set_evaluated 0 true ∅)) /\
  Evaluator2._evaluate_ref Evaluator2.table_nested 2 0
    (map Evaluator2.Str ["a"; "c"]) Evaluator2.RefModifier.ABSOLUTE ∅ =
  Return tt (Evaluator2.set_cache 0 (Some (Evaluator2.Str "10"))
               (Evaluator2.set_evaluated 0 true ∅)).
Proof.
  apply (prototypes_agree_on_plain_paths Evaluator2.table_nested 0 0 ["a"; "c"]
           ∅ ∅ (Evaluator.Str "10") (Evaluator2.Str "10"));
    vm_compute; reflexivity.
Defined.

(** ** Edge cases *)

(** X13 (evaluator.py): a document with a unary or binary expression or
    an array as the document itself, or as the key or the value of an
    entry of one of its tables, is never evaluated: whatever the store
    and the call depth allowed, [evaluate] does not return the tree.  It
    ends with an exception or does not end. *)
Theorem unsupported_never_returns :
  forall (_expr : Expr) fuel (st : gmap nat RefData),
    unsupported _expr = true ->
    fails (evaluate _expr fuel st) \/ evaluate _expr fuel st = OutOfFuel.
Proof.
  intros _expr fuel st Hbad. unfold evaluate, bind.
  destruct (_evaluate _expr fuel _expr _) as [[] st1|e st1|] eqn:H; cbn; auto.
  by destruct (proj1 (_evaluate_unsupported _expr fuel) _ _ _ Hbad H).
Qed.

Lemma unsupported_never_returns_witness :
  fails (evaluate (Table [entry (Str "a") (Array [])]) 3 ∅) \/
  evaluate (Table [entry (Str "a") (Array [])]) 3 ∅ = OutOfFuel.
Proof.
  apply (unsupported_never_returns (Table [entry (Str "a") (Array [])]) 3 ∅).
  reflexivity.
Defined.

(** X14 (evaluator.py): an integer key is never found.  In a key
    segment whose key unwraps to an [Int] and whose target is a table,
    no entry matches, whatever the keys of the entries: once the entries
    have been scanned the segment raises [KeyError] with the last entry
    key that was unwrapped, or [UnboundLocalError] when there is none;
    the segment never returns. *)
Theorem integer_key_is_never_found :
  forall (_expr : Expr) n key0 z items item_key (st st1 : gmap nat RefData),
    _evaluate_key _expr n key0 st = Return (Int z) st1 ->
    (fails (segment (_evaluate_key _expr n) key0 (Some (Table items)) item_key st) \/
     segment (_evaluate_key _expr n) key0 (Some (Table items)) item_key st = OutOfFuel) /\
    forall r st2,
      scan (_evaluate_key _expr n) (Int z) (Table items) items item_key st1 =
      Return r st2 ->
      segment (_evaluate_key _expr n) key0 (Some (Table items)) item_key st =
      Raise match snd r with
            | Some ik => KeyError "Key not found." (Int z) ik
            | None => UnboundLocalError "item_key"
            end st2.
Proof.
  intros _expr n key0 z items item_key st st1 Hkey.
  split; [by apply (segment_Int _ key0 z items item_key st st1)|].
  intros [[v|] [ik|]] st2 Hscan; rewrite segment_Table, Hkey, Hscan;
    try reflexivity; by destruct (scan_Int _ _ _ _ _ _ _ _ _ Hscan).
Qed.

Lemma integer_key_is_never_found_witness :
  segment (_evaluate_key table_int 1) (Int 1) (Some table_int) None ∅ =
  Raise (KeyError "Key not found." (Int 1) (Int 1)) ∅.
Proof.
  apply (proj2 (integer_key_is_never_found table_int 1 (Int 1) 1
                  [entry (Int 1) (Str "x")] None ∅ ∅ eq_refl)
           (None, Some (Int 1)) ∅).
  reflexivity.
Defined.

(** X15 (evaluator.py): a document that is a single absolute reference
    whose keys are string or integer literals.  The lookup starts at the
    reference itself, which is not a table, so every key passes; the
    reference ends up as its own cache, and [evaluate] returns. *)
Theorem root_reference_caches_itself :
  forall n oid keys (st : gmap nat RefData),
    _evaluated (get st oid) = false ->
    forallb is_Str_or_Int keys = true ->
    evaluate (Ref oid keys RefModifier.ABSOLUTE) (S (S (S n))) st =
    Return (Ref oid keys RefModifier.ABSOLUTE)
      (set_cache oid (Some (Ref oid keys RefModifier.ABSOLUTE))
         (set_evaluated oid true (set_parent oid None st))).
Proof. intros n oid keys st Hflag Hkeys. by apply evaluate_root_Ref. Qed.

Lemma root_reference_caches_itself_witness :
  evaluate (Ref 0 [Str "a"; Int 1] RefModifier.ABSOLUTE) 3 ∅ =
  Return (Ref 0 [Str "a"; Int 1] RefModifier.ABSOLUTE)
    (set_cache 0 (Some (Ref 0 [Str "a"; Int 1] RefModifier.ABSOLUTE))
       (set_evaluated 0 true (set_parent 0 None ∅))).
Proof.
  apply (root_reference_caches_itself 0 0 [Str "a"; Int 1] ∅); reflexivity.
Defined.

(** X17 (both prototypes): the loops that unwrap a key honour their
    contract.  Whatever [_evaluate_key] of evaluator.py returns is a
    [Str] or an [Int]; whatever [_unwrap] of evaluator2.py returns is not
    a reference. *)
Theorem key_loops_return_keys :
  (forall (_expr : Expr) n k (st : gmap nat RefData) r st',
      _evaluate_key _expr n k st = Return r st' -> is_Str_or_Int r = true) /\
  (forall (_expr : Evaluator2.Expr) n e (st : gmap nat Evaluator2.RefData) r st',
      Evaluator2._unwrap _expr n e st = Return r st' -> Evaluator2.is_Ref r = false).
Proof.
  split.
  - intros _expr n. apply _evaluate_key_returns_key.
  - intros _expr n. apply Evaluator2Facts._unwrap_returns_no_Ref.
Qed.

Lemma key_loops_return_keys_witness :
  is_Str_or_Int (Str "a") = true /\ Evaluator2.is_Ref (Evaluator2.Str "a") = false.
Proof.
  split.
  - apply (proj1 key_loops_return_keys table_a1 1 (Str "a") ∅ (Str "a") ∅).
    reflexivity.
  - apply (proj2 key_loops_return_keys Evaluator2.table_a1 1 (Evaluator2.Str "a") ∅
             (Evaluator2.Str "a") ∅).
    reflexivity.
Defined.

(** ** The scripts' own example *)

(** X18: the trees built under [__main__].  Both scripts evaluate their
    example; in each the reference used as the first entry's key
    resolves to ["10"], so that the lookup of the key ["10"] by the
    innermost reference finds that entry. *)
Theorem main_examples :
  (exists st', evaluate main_expr 12 ∅ = Return main_expr st' /\
               _cache (get st' 0) = Some (Str "10") /\
               _cache (get st' 1) = Some (Str "c") /\
               _cache (get st' 2) = Some (Str "10") /\
               _cache (get st' 3) = Some (Str "c")) /\
  (exists st', Evaluator2.evaluate Evaluator2.main_expr 12 ∅ =
               Return Evaluator2.main_expr st' /\
               Evaluator2.ref_cache (Evaluator2.get st' 0) = Some (Evaluator2.Str "10") /\
               Evaluator2.ref_cache (Evaluator2.get st' 1) = Some (Evaluator2.Str "c") /\
               Evaluator2.ref_cache (Evaluator2.get st' 2) = Some (Evaluator2.Str "10") /\
               Evaluator2.ref_cache (Evaluator2.get st' 3) = Some (Evaluator2.Str "c") /\
               Evaluator2.ref_cache (Evaluator2.get st' 4) =
               Some (Evaluator2.Table
                       [Evaluator2.entry (Evaluator2.Str "c") (Evaluator2.Str "10")])).
Proof. split; eexists; repeat split; vm_compute; reflexivity. Qed.

End Properties.

(** * Further properties of evaluator2.py *)

Module Properties2.
Import Evaluator2 Evaluator2Facts.

(** X11 (evaluator2.py): a reference whose keys are string literals,
    looked up through tables all of whose keys are string literals.
    Each key selects the value of the first entry with that key; a key
    that names no entry raises nothing and leaves the target where it
    is.  When every target on the way is a table, forcing the reference
    returns at call depth two, the cache is what the path ends at, and
    no other reference is touched. *)
Theorem string_path_lookup2 :
  forall (_expr : Expr) n oid ks modifier (st : gmap nat RefData) start v,
    ref_evaluated (get st oid) = false ->
    match modifier with
    | RefModifier.ABSOLUTE => Some _expr
    | RefModifier.RELATIVE => ref_parent (get st oid)
    end = Some start ->
    follow ks start = Some v ->
    _evaluate_ref _expr (S (S n)) oid (map Str ks) modifier st =
    Return tt (set_cache oid (Some v) (set_evaluated oid true st)).
Proof.
  intros _expr n oid ks modifier st start v Hflag Hstart Hpath.
  by apply (_evaluate_ref_follow2 _expr n oid ks modifier st start v).
Qed.

(** The witness: a key that names no entry, the cache being the table;
    and the relative reference of [table_relative], whose scope is the
    nested table. *)
Lemma string_path_lookup2_witness :
  _evaluate_ref table_a1 2 7 (map Str ["zz"]) RefModifier.ABSOLUTE ∅ =
  Return tt (set_cache 7 (Some table_a1) (set_evaluated 7 true ∅)) /\
  _evaluate_ref table_relative 2 0 (map Str ["c"]) RefModifier.RELATIVE
    (_resolve (Some table_relative) table_relative ∅) =
  Return tt (set_cache 0 (Some (Str "1"))
               (set_evaluated 0 true (_resolve (Some table_relative) table_relative ∅))).
Proof.
  split.
  - apply (string_path_lookup2 table_a1 0 7 ["zz"] RefModifier.ABSOLUTE ∅
             table_a1 table_a1); reflexivity.
  - apply (string_path_lookup2 table_relative 0 0 ["c"] RefModifier.RELATIVE
             (_resolve (Some table_relative) table_relative ∅)
             (Table [entry (Str "c") (Str "1");
                     entry (Str "r") (Ref 0 [Str "c"] RefModifier.RELATIVE)])
             (Str "1")); reflexivity.
Defined.

(** X16 (evaluator2.py): a document that is a single reference.  With at
    least one key, an absolute reference starts at itself and unwraps
    itself while it is being resolved: [evaluate] raises
    [RuntimeError].  With no key the loop body never runs, no check is
    made, and [evaluate] returns: an absolute reference is its own
    cache, a relative one has the cache [None]. *)
Theorem root_reference2 :
  forall n oid (st : gmap nat RefData),
    ref_evaluated (get st oid) = false ->
    (forall key0 keys,
        ref_cache (get st oid) = None ->
        evaluate (Ref oid (key0 :: keys) RefModifier.ABSOLUTE)
          (S (S (S (S (S n))))) st =
        Raise (RuntimeError "Failed to evaluate reference.")
          (set_evaluated oid true (set_parent oid None st))) /\
    (forall modifier,
        evaluate (Ref oid [] modifier) (S (S n)) st =
        Return (Ref oid [] modifier)
          (set_cache oid
             match modifier with
             | RefModifier.ABSOLUTE => Some (Ref oid [] modifier)
             | RefModifier.RELATIVE => None
             end
             (set_evaluated oid true (set_parent oid None st)))).
Proof.
  intros n oid st Hflag. split.
  - intros key0 keys Hcache. by apply evaluate_root_Ref2.
  - intros modifier. by apply evaluate_root_Ref_no_keys2.
Qed.

Lemma root_reference2_witness :
  evaluate (Ref 0 [Str "a"] RefModifier.ABSOLUTE) 5 ∅ =
  Raise (RuntimeError "Failed to evaluate reference.")
    (set_evaluated 0 true (set_parent 0 None ∅)) /\
  evaluate (Ref 0 [] RefModifier.RELATIVE) 2 ∅ =
  Return (Ref 0 [] RefModifier.RELATIVE)
    (set_cache 0 None (set_evaluated 0 true (set_parent 0 None ∅))).
Proof.
  assert (Hflag : ref_evaluated (get ∅ 0) = false) by reflexivity.
  assert (Hcache : ref_cache (get ∅ 0) = None) by reflexivity.
  destruct (root_reference2 0 0 ∅ Hflag) as [H1 H2].
  split; [exact (H1 (Str "a") [] Hcache)|exact (H2 RefModifier.RELATIVE)].
Defined.

(** X20 (evaluator2.py): the scan of the entries of a table for the
    string [kv].  Entries whose key raises [RuntimeError], or unwraps to
    another string, are passed.  After any run of such entries: an entry
    whose key unwraps to [kv] ends the scan with its value, whatever
    follows; an entry whose key unwraps to something that is not a
    string ends it with [TypeError], even when a later entry would
    match; an exception other than [RuntimeError] raised by a key ends
    it too; and if the run is the whole table the target is left as it
    was and nothing is raised. *)
Theorem entry_scan2 :
  forall (_expr : Expr) n kv pre current (st st1 : gmap nat RefData),
    passed (_unwrap _expr n) kv pre st st1 ->
    scan (_unwrap _expr n) kv pre current st = Return current st1 /\
    (forall item post st2,
        _unwrap _expr n (key item) st1 = Return (Str kv) st2 ->
        scan (_unwrap _expr n) kv (pre ++ item :: post) current st =
        Return (Some (value item)) st2) /\
    (forall item post ik st2,
        _unwrap _expr n (key item) st1 = Return ik st2 ->
        is_Str ik = false ->
        scan (_unwrap _expr n) kv (pre ++ item :: post) current st =
        Raise (TypeError "Expect string key for item.") st2) /\
    (forall item post e st2,
        _unwrap _expr n (key item) st1 = Raise e st2 ->
        is_RuntimeError e = false ->
        scan (_unwrap _expr n) kv (pre ++ item :: post) current st = Raise e st2).
Proof.
  intros _expr n kv pre current st st1 Hpre. repeat split.
  - rewrite <- (app_nil_r pre). by rewrite (scan_passed2 _ _ _ _ _ _ _ Hpre).
  - intros item post st2 Hk.
    rewrite (scan_passed2 _ _ _ _ _ _ _ Hpre), scan_cons2, Hk.
    by rewrite String.eqb_refl.
  - intros item post ik st2 Hk Hik.
    rewrite (scan_passed2 _ _ _ _ _ _ _ Hpre), scan_cons2, Hk.
    by destruct ik.
  - intros item post e st2 Hk He.
    by rewrite (scan_passed2 _ _ _ _ _ _ _ Hpre), scan_cons2, Hk, He.
Qed.

(** The witness: [Table{ b: "0", 1: "x", a: "y" }] scanned for ["a"]. *)
Lemma entry_scan2_witness :
  scan (_unwrap table_a1 1) "a"
    ([entry (Str "b") (Str "0")] ++ entry (Int 1) (Str "x") :: [entry (Str "a") (Str "y")])
    None ∅ =
  Raise (TypeError "Expect string key for item.") ∅.
Proof.
  assert (Hpre : passed (_unwrap table_a1 1) "a" [entry (Str "b") (Str "0")] ∅ ∅).
  { eapply passed_differs; [reflexivity|reflexivity|apply passed_nil]. }
  destruct (entry_scan2 table_a1 1 "a" [entry (Str "b") (Str "0")] None ∅ ∅ Hpre)
    as (_ & _ & H & _).
  apply (H (entry (Int 1) (Str "x")) [entry (Str "a") (Str "y")] (Int 1) ∅);
    reflexivity.
Defined.

(** X21 (evaluator2.py): in a key segment, a key that unwraps to
    something that is not a string raises [TypeError("Expect string
    key.")].  The key is checked before the target: the error is this
    one also when the target is not a table. *)
Theorem non_string_key_raises2 :
  forall (_expr : Expr) n key0 cur curry key1 (st st1 st2 : gmap nat RefData),
    _unwrap _expr n cur st = Return curry st1 ->
    _unwrap _expr n key0 st1 = Return key1 st2 ->
    is_Str key1 = false ->
    segment (_unwrap _expr n) key0 (Some cur) st =
    Raise (TypeError "Expect string key.") st2.
Proof.
  intros _expr n key0 cur curry key1 st st1 st2 Hcur Hkey Hk.
  rewrite segment_Some2, Hcur, Hkey. by destruct key1.
Qed.

Lemma non_string_key_raises2_witness :
  segment (_unwrap table_a1 1) (Int 1) (Some (Str "1")) ∅ =
  Raise (TypeError "Expect string key.") ∅.
Proof.
  apply (non_string_key_raises2 table_a1 1 (Int 1) (Str "1") (Str "1") (Int 1) ∅ ∅ ∅);
    reflexivity.
Defined.

End Properties2.
